(** * cvpanda: the resume text parser of [server/python/extract_pdf.py]

    A shallow embedding of the section segmenter ([identify_sections]), the
    work-experience extractor ([extract_work_experiences_v2]), the education,
    skills, name and contact extractors, the record that
    [extract_structured_info] builds from them and the choice that
    [extract_from_pdf] makes between the extracted texts, and of the
    backtracking regular-expression matching they are written with, followed
    by the properties of the specification that hold of them, the inputs on
    which others fail, and further properties that the code shows. *)

From Stdlib Require Import NArith Ascii String.
From stdpp Require Import gmap list strings sorting.

Local Open Scope nat_scope.

(** ** Text

    A Python [str] is a sequence of Unicode code points. *)

Definition char := N.
Abbreviation str := (list char) (only parsing).

(** An ASCII literal of the source, as code points. *)
Definition u (s : string) : str := map N_of_ascii (list_ascii_of_string s).

Definition nl : char := 10%N.
Definition colon : char := 58%N.

(** The character tables of the Python runtime are not part of the
    repository; the extractors are written against this interface.
    - [is_space]: [str.isspace] on one code point, also the class [\s],
      what [str.strip] removes and what [str.split()] splits on;
    - [is_digit]: the class [\d];
    - [is_word]: the class [\w], which decides [\b];
    - [is_upper]: [str.isupper] on one code point;
    - [ci_eq c x]: the literal [c] of a pattern compiled with
      [re.IGNORECASE] accepts the input code point [x].
    The laws say what the tables are on ASCII. *)
Definition ascii_space (c : char) : bool :=
  ((9 <=? c) && (c <=? 13) || (28 <=? c) && (c <=? 32))%N.
Definition ascii_digit (c : char) : bool := ((48 <=? c) && (c <=? 57))%N.
Definition ascii_upper (c : char) : bool := ((65 <=? c) && (c <=? 90))%N.
Definition ascii_lower (c : char) : bool := ((97 <=? c) && (c <=? 122))%N.
Definition ascii_letter (c : char) : bool := ascii_upper c || ascii_lower c.
Definition ascii_fold (c : char) : char := if ascii_upper c then (c + 32)%N else c.

Class Unicode := {
  is_space : char → bool;
  is_digit : char → bool;
  is_word : char → bool;
  is_upper : char → bool;
  ci_eq : char → char → bool;
  is_space_ascii : ∀ c, (c < 128)%N → is_space c = ascii_space c;
  is_digit_ascii : ∀ c, (c < 128)%N → is_digit c = ascii_digit c;
  is_digit_not_space : ∀ c, is_digit c = true → is_space c = false;
  ci_eq_uncased : ∀ c x, (c < 128)%N → ascii_letter c = false →
                         ci_eq c x = bool_decide (c = x);
  ci_eq_uncased_r : ∀ c x, (x < 128)%N → ascii_letter x = false →
                           ci_eq c x = bool_decide (c = x);
  ci_eq_ascii : ∀ c x, (c < 128)%N → (x < 128)%N →
                       ci_eq c x = bool_decide (ascii_fold c = ascii_fold x);
}.

(** ** String operations of Python used by the extractors *)

Section Strings.
Context `{Unicode}.

(** [s[a:b]] for [0 <= a] and [0 <= b]. *)
Definition slice (s : str) (a b : nat) : str := take (b - a) (drop a s).

Fixpoint lstrip (s : str) : str :=
  match s with
  | x :: s' => if is_space x then lstrip s' else s
  | [] => []
  end.

Definition rstrip (s : str) : str := reverse (lstrip (reverse s)).

(** [s.strip()] *)
Definition strip (s : str) : str := rstrip (lstrip s).

(** [s.split(c)] for a one-character separator. *)
Fixpoint split_on (c : char) (s : str) : list str :=
  match s with
  | [] => [[]]
  | x :: s' =>
      if bool_decide (x = c) then [] :: split_on c s'
      else match split_on c s' with
           | l :: ls => (x :: l) :: ls
           | [] => [[x]]
           end
  end.

(** [s.split()]: the maximal runs of non-whitespace. [cur] is the run being
    read, reversed. *)
Fixpoint split_ws_from (cur : str) (s : str) : list str :=
  match s with
  | [] => match cur with [] => [] | _ => [reverse cur] end
  | x :: s' =>
      if is_space x
      then match cur with
           | [] => split_ws_from [] s'
           | _ => reverse cur :: split_ws_from [] s'
           end
      else split_ws_from (x :: cur) s'
  end.

Definition split_ws (s : str) : list str := split_ws_from [] s.

(** [sep.join(ls)] *)
Fixpoint join (sep : str) (ls : list str) : str :=
  match ls with
  | [] => []
  | [l] => l
  | l :: ls' => l ++ sep ++ join sep ls'
  end.

Fixpoint starts_with (p s : str) : bool :=
  match p, s with
  | [], _ => true
  | a :: p', b :: s' => bool_decide (a = b) && starts_with p' s'
  | _ :: _, [] => false
  end.

(** [p in s] on strings. *)
Fixpoint contains (p s : str) : bool :=
  starts_with p s || match s with [] => false | _ :: s' => contains p s' end.

(** [s[0].isupper()] guarded by [s] being non-empty, as the source writes it. *)
Definition first_is_upper (s : str) : bool :=
  match s with
  | x :: _ => is_upper x
  | [] => false
  end.

End Strings.

(** ** Regular expressions

    The patterns of the source use literals, character classes, greedy
    repetition, alternation, groups, [^], [\b] and two look-arounds. [Grp]
    is a capturing group with its number; non-capturing groups leave no
    node. *)

Inductive citem :=
| CLit (c : char)
| CRange (lo hi : char)
| CSpace
| CDigit.

Inductive regex :=
| Empty
| Chr (c : char)
| Cls (items : list citem)
| Seq (r1 r2 : regex)
| Alt (r1 r2 : regex)
| Rep (r : regex) (lo : nat) (hi : option nat)
| Grp (n : nat) (r : regex)
| Bol
| Wb
| NotBehind (items : list citem)
| NotAhead (r : regex).

(** The text of a pattern: a literal string is the sequence of its
    characters, an alternation of several branches nests to the right. *)
Fixpoint lit (s : str) : regex :=
  match s with
  | [] => Empty
  | [c] => Chr c
  | c :: s' => Seq (Chr c) (lit s')
  end.

Fixpoint seqs (rs : list regex) : regex :=
  match rs with
  | [] => Empty
  | [r] => r
  | r :: rs' => Seq r (seqs rs')
  end.

Fixpoint alts (rs : list regex) : regex :=
  match rs with
  | [] => NotAhead Empty
  | [r] => r
  | r :: rs' => Alt r (alts rs')
  end.

Definition star (r : regex) : regex := Rep r 0 None.
Definition plus (r : regex) : regex := Rep r 1 None.
Definition opt (r : regex) : regex := Rep r 0 (Some 1).
Definition times (n : nat) (r : regex) : regex := Rep r n (Some n).
Definition ws : regex := Cls [CSpace].
Definition digit : regex := Cls [CDigit].

(** The code points from [lo] to [hi]. *)
Definition char_range (lo hi : char) : list char :=
  map (λ i, (lo + N.of_nat i)%N) (seq 0 (N.to_nat (hi + 1 - lo))).

(** A position of the matcher in the subject string: the offset, the
    character before it and the characters from it on. *)
Record mstate := MState { pos : nat; prev : option char; rest : str }.

(** The text of the groups closed so far, latest first. *)
Abbreviation caps := (list (nat * str)) (only parsing).

Section Matcher.
Context `{Unicode}.

Definition item_matches (ic : bool) (it : citem) (x : char) : bool :=
  match it with
  | CLit c => if ic then ci_eq c x else bool_decide (c = x)
  | CRange lo hi =>
      if ic then existsb (λ c, ci_eq c x) (char_range lo hi)
      else ((lo <=? x) && (x <=? hi))%N
  | CSpace => is_space x
  | CDigit => is_digit x
  end.

Definition class_matches (ic : bool) (its : list citem) (x : char) : bool :=
  existsb (λ it, item_matches ic it x) its.

Definition step_char (ok : char → bool) (s : mstate) (c : caps)
  : list (mstate * caps) :=
  match rest s with
  | x :: r => if ok x then [(MState (S (pos s)) (Some x) r, c)] else []
  | [] => []
  end.

Definition word_at (o : option char) : bool :=
  match o with Some x => is_word x | None => false end.

(** The loop of a greedy repetition [r{lo,hi}] whose body matches as [body]:
    one more iteration is tried before stopping here. An iteration that
    consumes nothing ends the loop, which bounds the iterations by the
    characters left; [fuel] is that bound. *)
Fixpoint rep_loop (body : mstate → caps → list (mstate * caps))
    (fuel lo : nat) (hi : option nat) (s : mstate) (c : caps)
  : list (mstate * caps) :=
  match fuel with
  | 0 => []
  | S fuel' =>
      (match hi with
       | Some 0 => []
       | _ =>
           flat_map
             (λ sc, if pos s <? pos sc.1
                    then rep_loop body fuel' (pred lo) (pred <$> hi) sc.1 sc.2
                    else [])
             (body s c)
       end)
      ++ (match lo with 0 => [(s, c)] | _ => [] end)
  end.

(** [matches ic r s c]: every way [r] matches from [s], in the order in which
    the backtracking matcher of [re] tries them; [ic] is [re.IGNORECASE]. *)
Fixpoint matches (ic : bool) (r : regex) (s : mstate) (c : caps)
  : list (mstate * caps) :=
  match r with
  | Empty => [(s, c)]
  | Chr a => step_char (item_matches ic (CLit a)) s c
  | Cls its => step_char (class_matches ic its) s c
  | Seq r1 r2 =>
      flat_map (λ sc, matches ic r2 sc.1 sc.2) (matches ic r1 s c)
  | Alt r1 r2 => matches ic r1 s c ++ matches ic r2 s c
  | Rep r1 lo hi =>
      rep_loop (matches ic r1) (S (length (rest s))) lo hi s c
  | Grp n r1 =>
      map (λ sc, (sc.1, (n, take (pos sc.1 - pos s) (rest s)) :: sc.2))
          (matches ic r1 s c)
  | Bol => match pos s with 0 => [(s, c)] | _ => [] end
  | Wb =>
      if xorb (word_at (prev s)) (word_at (head (rest s)))
      then [(s, c)] else []
  | NotBehind its =>
      match prev s with
      | Some x => if class_matches ic its x then [] else [(s, c)]
      | None => [(s, c)]
      end
  | NotAhead r1 =>
      match matches ic r1 s c with
      | [] => [(s, c)]
      | _ => []
      end
  end.

(** A match object: [start()], [end()], [group(0)] and the groups. *)
Record rmatch := RMatch {
  m_start : nat;
  m_end : nat;
  m_text : str;
  m_caps : caps;
  m_after : mstate;
}.

(** [m.group(n)] for [n >= 1]; a group that took no part is empty. *)
Definition group (n : nat) (m : rmatch) : str :=
  match list_find (λ p, p.1 = n) (m_caps m) with
  | Some (_, (_, t)) => t
  | None => []
  end.

Definition match_at (ic : bool) (r : regex) (s : mstate) : option rmatch :=
  match matches ic r s [] with
  | (s', c) :: _ =>
      Some (RMatch (pos s) (pos s') (take (pos s' - pos s) (rest s)) c s')
  | [] => None
  end.

(** The leftmost match from [s] on. *)
Fixpoint search_from (ic : bool) (r : regex) (p : nat) (pv : option char)
    (rs : str) : option rmatch :=
  match match_at ic r (MState p pv rs) with
  | Some m => Some m
  | None =>
      match rs with
      | [] => None
      | x :: rs' => search_from ic r (S p) (Some x) rs'
      end
  end.

(** [re.search(r, text)] *)
Definition search (ic : bool) (r : regex) (text : str) : option rmatch :=
  search_from ic r 0 None text.

(** [re.finditer(r, text)]: the successive non-overlapping matches. After a
    match the scan goes on where it ended, one character further on when the
    match was empty. *)
Fixpoint finditer_from (fuel : nat) (ic : bool) (r : regex) (s : mstate)
  : list rmatch :=
  match fuel with
  | 0 => []
  | S fuel' =>
      match search_from ic r (pos s) (prev s) (rest s) with
      | None => []
      | Some m =>
          m :: (if m_start m <? m_end m
                then finditer_from fuel' ic r (m_after m)
                else match rest (m_after m) with
                     | [] => []
                     | x :: rs =>
                         finditer_from fuel' ic r
                           (MState (S (m_end m)) (Some x) rs)
                     end)
      end
  end.

Definition finditer (ic : bool) (r : regex) (text : str) : list rmatch :=
  finditer_from (S (length text)) ic r (MState 0 None text).

End Matcher.

(** ** Sorting

    [list.sort] is stable. [sort_by le] inserts from the right, an element
    going before the elements it is [le] to, which keeps the input order of
    elements that compare equal. *)

Section Sort.
Context {A : Type} (le : A → A → bool).

Fixpoint insert_sorted (x : A) (l : list A) : list A :=
  match l with
  | [] => [x]
  | y :: l' => if le x y then x :: l else y :: insert_sorted x l'
  end.

Definition sort_by (l : list A) : list A := foldr insert_sorted [] l.

End Sort.

(** The order of Python on strings (by code point) and on the tuples
    [(start_pos, section_type, section_title)]. *)
Fixpoint str_le (a b : str) : bool :=
  match a, b with
  | [], _ => true
  | _ :: _, [] => false
  | x :: a', y :: b' => (x <? y)%N || (bool_decide (x = y) && str_le a' b')
  end.

Abbreviation boundary := (nat * str * str)%type (only parsing).

Definition boundary_le (a b : boundary) : bool :=
  let '(p, k, t) := a in
  let '(q, l, v) := b in
  (p <? q) || (bool_decide (p = q) &&
    (negb (str_le l k) || (bool_decide (k = l) && str_le t v))).

(** ** The pattern catalog of [identify_sections] *)

Definition word (s : string) : regex := lit (u s).

(** Words separated by [\s+]. *)
Fixpoint phrase (ws_ : list str) : regex :=
  match ws_ with
  | [] => Empty
  | [w] => lit w
  | w :: ws' => Seq (lit w) (Seq (plus ws) (phrase ws'))
  end.

Definition az : citem := CRange 97%N 122%N.
Definition AZ : citem := CRange 65%N 90%N.
Definition d09 : citem := CRange 48%N 57%N.

Definition o_acute : char := 243%N.
Definition e_acute : char := 233%N.
Definition i_acute : char := 237%N.
Definition a_acute : char := 225%N.
Definition u_diaer : char := 252%N.
Definition A_acute : char := 193%N.
Definition en_dash : char := 8211%N.
Definition em_dash : char := 8212%N.

Definition section_patterns : list (str * regex) :=
  [ (u "summary",
      Seq (alts [word "Summary"; word "Profile"; word "About"; word "Objective";
                 phrase [u "Professional"; u "Summary"]; word "Resumen";
                 word "Perfil"; word "Objetivo"; phrase [u "Acerca"; u "de"]])
          (Rep (Seq (plus ws) (plus (Cls [AZ; az]))) 0 (Some 3)));
    (u "experience",
      alts [word "Experience"; phrase [u "Work"; u "Experience"];
            word "Employment"; phrase [u "Employment"; u "History"];
            phrase [u "Professional"; u "Experience"]; word "Career";
            word "Experiencia"; phrase [u "Experiencia"; u "Laboral"];
            word "Empleo"; phrase [u "Historial"; u "de"; u "Empleo"];
            phrase [u "Experiencia"; u "Profesional"]; word "Trayectoria";
            word "Trabajo"]);
    (u "education",
      alts [word "Education"; phrase [u "Educational"; u "Background"];
            word "Academic"; word "Academics"; word "Qualifications";
            word "Degrees"; lit (u "Educaci" ++ [o_acute] ++ u "n");
            phrase [u "Formaci" ++ [o_acute] ++ u "n";
                    u "Acad" ++ [e_acute] ++ u "mica"];
            word "Estudios"; lit (u "T" ++ [i_acute] ++ u "tulos")]);
    (u "skills",
      alts [word "Skills"; word "Abilities"; word "Competencies";
            phrase [u "Technical"; u "Skills"];
            phrase [u "Core"; u "Competencies"]; word "Qualifications";
            word "Habilidades"; word "Competencias"; word "Capacidades";
            word "Aptitudes"; word "Conocimientos"]);
    (u "certifications",
      alts [word "Certifications"; word "Certificates"; word "Credentials";
            word "Certificaciones"; word "Certificados"; word "Credenciales"]);
    (u "languages",
      alts [word "Languages"; phrase [u "Language"; u "Skills"]; word "Idiomas";
            phrase [u "Competencias";
                    u "Ling" ++ [u_diaer; i_acute] ++ u "sticas"]]);
    (u "projects",
      alts [word "Projects"; phrase [u "Key"; u "Projects"];
            phrase [u "Significant"; u "Projects"];
            phrase [u "Project"; u "Experience"]; word "Proyectos";
            phrase [u "Proyectos"; u "Clave"];
            phrase [u "Proyectos"; u "Significativos"]]);
    (u "interests",
      alts [word "Interests"; word "Hobbies"; word "Activities";
            phrase [u "Personal"; u "Interests"]; word "Intereses";
            word "Pasatiempos"; word "Actividades";
            phrase [u "Intereses"; u "Personales"]]);
    (u "references",
      alts [word "References"; word "Referees";
            phrase [u "Professional"; u "References"]; word "Referencias";
            lit ([A_acute] ++ u "rbitros");
            phrase [u "Referencias"; u "Profesionales"]]);
    (u "publications",
      alts [word "Publications"; phrase [u "Published"; u "Works"];
            word "Papers"; word "Publicaciones";
            phrase [u "Trabajos"; u "Publicados"];
            lit (u "Art" ++ [i_acute] ++ u "culos")]);
    (u "awards",
      alts [word "Awards"; word "Honors"; word "Achievements";
            word "Recognitions"; word "Premios"; word "Honores"; word "Logros";
            word "Reconocimientos"]);
    (u "volunteering",
      alts [word "Volunteering"; phrase [u "Volunteer"; u "Experience"];
            phrase [u "Community"; u "Service"]; word "Voluntariado";
            phrase [u "Experiencia"; u "de"; u "Voluntariado"];
            phrase [u "Servicio"; u "Comunitario"]]) ].

(** [(?:^|\n\s*|\n\n)] and [(?:\s*:|\s*\n)], the two ends of a header. *)
Definition header_left : regex :=
  alts [Bol; Seq (Chr nl) (star ws); Seq (Chr nl) (Chr nl)].
Definition header_right : regex :=
  alts [Seq (star ws) (Chr colon); Seq (star ws) (Chr nl)].

Definition full_pattern (pattern : regex) : regex :=
  seqs [header_left; Grp 1 pattern; header_right].

(** ** [identify_sections] *)

Section Segmenter.
Context `{Unicode}.

(** The boundaries one pattern contributes: the end of each match, the kind
    and the stripped header text. *)
Definition boundaries_of (text : str) (kp : str * regex) : list boundary :=
  map (λ m, (m_end m, kp.1, strip (group 1 m)))
      (finditer true (full_pattern kp.2) text).

Definition section_positions (text : str) : list boundary :=
  sort_by boundary_le (flat_map (boundaries_of text) section_patterns).

(** The loop over the sorted boundaries: the body of a boundary runs to the
    next boundary, or to the end of the text, and is stored under its kind. *)
Fixpoint fill_sections (text : str) (ps : list boundary)
    (sections : gmap str str) : gmap str str :=
  match ps with
  | [] => sections
  | (start_pos, section_type, _) :: ps' =>
      let end_pos :=
        match ps' with
        | (next_pos, _, _) :: _ => next_pos
        | [] => length text
        end in
      fill_sections text ps'
        (<[section_type := strip (slice text start_pos end_pos)]> sections)
  end.

Definition identify_sections (text : str) : gmap str str :=
  fill_sections text (section_positions text) ∅.

(** The part of [extract_from_pdf] that assembles the [sections] of the
    result around the segmenter: the whole text under [content], the pages
    under [page_1], [page_2], ..., then the identified sections on top. *)
Fixpoint decimal_from (fuel n : nat) (acc : str) : str :=
  match fuel with
  | 0 => acc
  | S fuel' =>
      let acc' := (48 + N.of_nat (n mod 10))%N :: acc in
      if n <? 10 then acc' else decimal_from fuel' (n / 10) acc'
  end.

Definition decimal (n : nat) : str := decimal_from (S n) n [].

Definition page_key (i : nat) : str := u "page_" ++ decimal (S i).

Definition assemble_sections (text : str) (pages : list str)
  : gmap str str :=
  let sections := <[u "content" := text]> ∅ in
  let sections :=
    foldl (λ acc ip, <[page_key ip.1 := ip.2]> acc) sections
          (imap (λ i p, (i, p)) pages) in
  identify_sections text ∪ sections.

End Segmenter.

(** ** [extract_work_experiences_v2] *)

Definition months_en : regex :=
  alts (word <$> ["January"; "February"; "March"; "April"; "May"; "June";
                  "July"; "August"; "September"; "October"; "November";
                  "December"]%string).
Definition months_es : regex :=
  alts (word <$> ["Enero"; "Febrero"; "Marzo"; "Abril"; "Mayo"; "Junio";
                  "Julio"; "Agosto"; "Septiembre"; "Octubre"; "Noviembre";
                  "Diciembre"]%string).
Definition abbr_en : regex :=
  Seq (alts (word <$> ["Jan"; "Feb"; "Mar"; "Apr"; "May"; "Jun"; "Jul"; "Aug";
                       "Sep"; "Oct"; "Nov"; "Dec"]%string))
      (star (Cls [az])).
Definition abbr_es : regex :=
  Seq (alts (word <$> ["Ene"; "Feb"; "Mar"; "Abr"; "May"; "Jun"; "Jul"; "Ago";
                       "Sep"; "Oct"; "Nov"; "Dic"]%string))
      (star (Cls [az])).

(** [\s*[-–—a]+\s*] *)
Definition range_sep : regex :=
  seqs [star ws;
        plus (Cls [CLit 45%N; CLit en_dash; CLit em_dash; CLit 97%N]);
        star ws].

Definition year4 : regex := times 4 digit.
(** [(?:19|20)\d{2}] *)
Definition century_year : regex :=
  Seq (alts [word "19"; word "20"]) (times 2 digit).

Definition now_en : regex := alts [word "Present"; word "Current"].
Definition now_es : regex :=
  alts [word "Presente"; word "Actual"; word "Actualidad"].

Definition month_to_month (mo : regex) : regex :=
  seqs [mo; plus ws; year4; range_sep; mo; plus ws; year4].
Definition month_to_now (mo now : regex) : regex :=
  seqs [mo; plus ws; year4; range_sep; now].

Definition date_patterns : list regex :=
  [ month_to_month months_en;
    month_to_now months_en now_en;
    month_to_month months_es;
    month_to_now months_es now_es;
    month_to_month abbr_en;
    month_to_now abbr_en now_en;
    month_to_month abbr_es;
    month_to_now abbr_es now_es;
    seqs [NotBehind [CDigit];
          Grp 1 (alts [word "19"; word "20"]); times 2 digit;
          range_sep;
          Grp 2 (alts [century_year; word "Present"; word "Current";
                       word "Presente"; word "Actual"; word "Actualidad"]);
          NotAhead digit] ].

Definition experience_pattern : regex :=
  seqs [header_left;
        alts [word "Experience"; phrase [u "Work"; u "Experience"];
              word "Employment"; phrase [u "Professional"; u "Experience"];
              word "Experiencia"; word "Trayectoria"];
        header_right].

Definition education_pattern : regex :=
  seqs [header_left;
        alts [word "Education"; word "Educational"; word "Academic";
              word "Academics"; word "Qualifications"; word "Degrees";
              lit (u "Educaci" ++ [o_acute] ++ u "n");
              phrase [u "Formaci" ++ [o_acute] ++ u "n";
                      u "Acad" ++ [e_acute] ++ u "mica"]];
        header_right].

Definition title_keywords : list str :=
  u <$> ["Director"; "CIO"; "Chief"; "Manager"; "Lead"; "Engineer";
         "Developer"; "Architect"; "Analyst"; "Consultant"; "Specialist";
         "Asesor"; "Jefe"; "Gerente"; "Ingeniero"]%string.

Definition Unknown : str := u "Unknown".

Record job := Job {
  company : str;
  title : str;
  date : str;
  description : str;
}.

Section WorkExperience.
Context `{Unicode}.

(** [lines[i]] for an index in range. *)
Definition line_at (lines : list str) (i : nat) : str := default [] (lines !! i).

(** The experience section: the text from the end of the experience header
    to the start of the education header, else the [experience] body of the
    segmenter. An empty section counts as not found. *)
Definition direct_section (text : str) : option str :=
  match search true experience_pattern text with
  | Some experience_match =>
      let start_idx := m_end experience_match in
      let end_idx :=
        match search true education_pattern text with
        | Some education_match => m_start education_match
        | None => length text
        end in
      Some (strip (slice text start_idx end_idx))
  | None => None
  end.

Definition experience_section (text : str) : option str :=
  match direct_section text with
  | Some (x :: s) => Some (x :: s)
  | _ => identify_sections text !! u "experience"
  end.

(** The first date pattern that matches a line, with the matched text. *)
Fixpoint first_date (patterns : list regex) (line : str) : option str :=
  match patterns with
  | [] => None
  | pattern :: patterns' =>
      match search true pattern line with
      | Some m => Some (m_text m)
      | None => first_date patterns' line
      end
  end.

(** [date_positions]: the index of each line that has a date, with the date. *)
Fixpoint date_positions_from (i : nat) (lines : list str)
  : list (nat * str) :=
  match lines with
  | [] => []
  | line :: lines' =>
      match first_date date_patterns line with
      | Some d => (i, d) :: date_positions_from (S i) lines'
      | None => date_positions_from (S i) lines'
      end
  end.

Definition date_positions (lines : list str) : list (nat * str) :=
  date_positions_from 0 lines.

Definition find_company (lines job_lines : list str) (start_idx : nat) : str :=
  let company :=
    if 0 <? start_idx
    then let company_line := strip (line_at lines (start_idx - 1)) in
         if first_is_upper company_line then company_line else Unknown
    else Unknown in
  if bool_decide (company = Unknown)
  then match
         list_find (λ line, first_is_upper (strip line) = true
                            ∧ length (split_ws (strip line)) ≤ 5)
                   (take 2 job_lines)
       with
       | Some (_, line) => strip line
       | None => company
       end
  else company.

Definition title_candidates (lines job_lines : list str) (start_idx : nat)
    (company date_text : str) : list str :=
  (if bool_decide (company ≠ strip (line_at lines (start_idx - 1)))
   then [strip (line_at lines (start_idx - 1))] else [])
  ++ (if (1 <? start_idx)
          && bool_decide (company = strip (line_at lines (start_idx - 1)))
      then [strip (line_at lines (start_idx - 2))] else [])
  ++ match list_find (λ line, line ≠ company
                              ∧ contains date_text line = false) job_lines with
     | Some (_, line) => [strip line]
     | None => []
     end.

Definition find_title (lines job_lines : list str) (start_idx : nat)
    (company date_text : str) : str :=
  if 0 <? start_idx
  then
    let candidates :=
      title_candidates lines job_lines start_idx company date_text in
    let title :=
      match list_find (λ candidate,
                         existsb (λ keyword, contains keyword candidate)
                                 title_keywords = true) candidates with
      | Some (_, candidate) => candidate
      | None => Unknown
      end in
    if bool_decide (title = Unknown)
    then match candidates with
         | candidate :: _ => candidate
         | [] => title
         end
    else title
  else Unknown.

(** The description keeps every line of the entry that is neither the
    company nor the title, without the blank lines at the top. *)
Fixpoint description_lines (company title : str) (job_lines : list str)
    (acc : list str) : list str :=
  match job_lines with
  | [] => acc
  | line :: job_lines' =>
      match strip line, acc with
      | [], [] => description_lines company title job_lines' acc
      | _, _ =>
          if bool_decide (strip line ≠ company)
             && bool_decide (strip line ≠ title)
          then description_lines company title job_lines' (acc ++ [line])
          else description_lines company title job_lines' acc
      end
  end.

Definition make_job (lines : list str) (start_idx end_idx : nat)
    (date_text : str) : job :=
  let job_lines := take (end_idx - start_idx) (drop start_idx lines) in
  let company := find_company lines job_lines start_idx in
  let title := find_title lines job_lines start_idx company date_text in
  Job company title date_text
      (strip (join [nl] (description_lines company title job_lines []))).

(** One entry per date, from its line to the line of the next date. *)
Fixpoint make_jobs (lines : list str) (dps : list (nat * str)) : list job :=
  match dps with
  | [] => []
  | (date_line_idx, date_text) :: dps' =>
      let end_idx :=
        match dps' with
        | (next_idx, _) :: _ => next_idx
        | [] => length lines
        end in
      make_job lines date_line_idx end_idx date_text :: make_jobs lines dps'
  end.

(** [re.findall(r'(19|20)\d{2}', date_str)]: the pattern has one group, so
    the list holds what the group matched. *)
Definition year_pattern : regex :=
  Seq (Grp 1 (alts [word "19"; word "20"])) (times 2 digit).

(** [int(y)] on a string of ASCII digits. *)
Definition int_of (s : str) : nat :=
  foldl (λ acc c, 10 * acc + (N.to_nat c - 48)) 0 s.

Definition extract_year (date_str : str) : nat :=
  if bool_decide (date_str = []) || bool_decide (date_str = Unknown) then 0
  else
    let years := group 1 <$> finditer false year_pattern date_str in
    match years with
    | [] => 0
    | _ => foldr max 0 (int_of <$> years)
    end.

Definition newest_first (a b : job) : bool :=
  extract_year (date b) <=? extract_year (date a).

Definition extract_work_experiences_v2 (text : str) : list job :=
  match experience_section text with
  | None => []
  | Some section =>
      let lines := split_on nl section in
      sort_by newest_first (make_jobs lines (date_positions lines))
  end.

End WorkExperience.

(** ** [extract_name] *)

Section Name.
Context `{Unicode}.

(** The test of the loop body: the line is not empty, has at most four
    whitespace-separated words and, stripped, more than three characters. *)
Definition name_like (line : str) : bool :=
  negb (bool_decide (line = []))
  && (length (split_ws (strip line)) <=? 4)
  && (3 <? length (strip line)).

Fixpoint first_name_like (lines : list str) : option str :=
  match lines with
  | [] => None
  | line :: lines' =>
      if name_like line then Some (strip line) else first_name_like lines'
  end.

Definition extract_name (text : str) : option str :=
  first_name_like (take 3 (split_on nl text)).

End Name.

(** ** [extract_skills] *)

Definition bounded (names : list str) : regex :=
  seqs [Wb; alts (lit <$> names); Wb].

Definition skill_patterns : list regex :=
  [ bounded (u <$> ["Python"; "Java"; "JavaScript"; "TypeScript"; "C++"; "C#";
                    "PHP"; "Ruby"; "Swift"; "Kotlin"; "Go"; "Rust"; "SQL";
                    "HTML"; "CSS"; "R"; "Matlab"; "Scala"; "Perl"; "Shell";
                    "Bash"]%string);
    bounded (u <$> ["React"; "Angular"; "Vue"; "Node.js"; "Express"; "Django";
                    "Flask"; "Spring"; "Laravel"; "Rails"; "TensorFlow";
                    "PyTorch"; "Scikit-learn"; "Pandas"]%string);
    bounded (u <$> ["Git"; "Docker"; "Kubernetes"; "AWS"; "Azure"; "GCP";
                    "Jenkins"; "Jira"; "Confluence"; "Tableau"; "PowerBI";
                    "Excel"; "Word"; "PowerPoint"; "Photoshop";
                    "Illustrator"]%string);
    bounded [u "Leadership"; u "Communication"; u "Teamwork";
             u "Problem-solving"; u "Critical thinking"; u "Time management";
             u "Project management"; u "Agile"; u "Scrum"; u "Liderazgo";
             u "Comunicaci" ++ [o_acute] ++ u "n"; u "Trabajo en equipo";
             u "Resoluci" ++ [o_acute] ++ u "n de problemas";
             u "Gesti" ++ [o_acute] ++ u "n de tiempo";
             u "Gesti" ++ [o_acute] ++ u "n de proyectos"];
    bounded [u "ISO 27001"; u "ISO 27000"; u "Information Security";
             u "Cybersecurity"; u "Security"; u "SOX";
             u "Seguridad Inform" ++ [a_acute] ++ u "tica";
             u "Ciberseguridad"] ].

Section Skills.
Context `{Unicode}.

(** [re.findall] for a pattern without groups: the matched texts. *)
Definition findall (ic : bool) (r : regex) (text : str) : list str :=
  m_text <$> finditer ic r text.

(** The [set] that the loop fills; [list(skills)] enumerates it in an order
    the source does not fix. *)
Definition extract_skills (text : str) : gset str :=
  foldl (λ skills pattern, skills ∪ list_to_set (findall true pattern text))
        ∅ skill_patterns.

End Skills.

(** ** [extract_education] *)

Definition degree_tail (fields : list string) : regex :=
  opt (alts [seqs [ws; word "of"; ws; alts (word <$> fields)];
             seqs [ws; word "en"; ws; plus (Cls [AZ; az; CSpace])]]).

Definition degree_patterns : list regex :=
  [ Seq (alts [word "Bachelor"; word "BA"; word "BS"; word "B.A."; word "B.S.";
               word "Licenciatura"; word "Grado"; word "Licenciado";
               word "Graduado"])
        (degree_tail ["Science"; "Arts"; "Business"; "Engineering"]%string);
    Seq (alts [word "Master"; word "MA"; word "MS"; word "M.A."; word "M.S.";
               word "MBA"; word "M.B.A.";
               lit (u "M" ++ [a_acute] ++ u "ster");
               lit (u "Maestr" ++ [i_acute] ++ u "a")])
        (degree_tail ["Science"; "Arts"; "Business"; "Engineering"]%string);
    Seq (alts [word "Doctor"; word "PhD"; word "Ph.D."; word "Doctorate";
               word "Doctorado"])
        (degree_tail ["Science"; "Arts"; "Philosophy"; "Engineering"]%string) ].

Definition institution_pattern : regex :=
  Grp 1 (seqs [Cls [AZ];
               plus (Cls [az; AZ; CSpace; CLit 38%N]);
               alts (word <$> ["University"; "College"; "School"; "Institute";
                               "Universidad"; "Escuela"; "Instituto"]%string)]).

Definition either (a b : string) : regex := Cls (CLit <$> (u a ++ u b)).

(** [(19|20)\d{2}\s*[-–—a]+\s*((?:19|20)\d{2}|[Pp]resent|[Cc]urrent|[Aa]ctual)] *)
Definition education_dates : regex :=
  seqs [Grp 1 (alts [word "19"; word "20"]); times 2 digit;
        range_sep;
        Grp 2 (alts [century_year;
                     Seq (either "P" "p") (word "resent");
                     Seq (either "C" "c") (word "urrent");
                     Seq (either "A" "a") (word "ctual")])].

(** [\n\s*\n] *)
Definition blank_line : regex := seqs [Chr nl; star ws; Chr nl].

Record education_entry := Education {
  degree : str;
  institution : str;
  edu_date : str;
}.

Section Education.
Context `{Unicode}.

(** [re.split(r, text)] for a pattern without groups. *)
Fixpoint pieces (text : str) (from : nat) (ms : list rmatch) : list str :=
  match ms with
  | [] => [drop from text]
  | m :: ms' => slice text from (m_start m) :: pieces text (m_end m) ms'
  end.

Definition re_split (r : regex) (text : str) : list str :=
  pieces text 0 (finditer false r text).

(** The value is neither [None] nor the empty string. *)
Definition truthy (o : option str) : bool :=
  match o with
  | Some (_ :: _) => true
  | _ => false
  end.

(** [o or d] *)
Definition or_else (o : option str) (d : str) : str :=
  match o with
  | Some (x :: s) => x :: s
  | _ => d
  end.

Fixpoint first_degree (patterns : list regex) (paragraph : str)
  : option str :=
  match patterns with
  | [] => None
  | pattern :: patterns' =>
      match findall true pattern paragraph with
      | d :: _ => Some d
      | [] => first_degree patterns' paragraph
      end
  end.

Definition education_of (paragraph : str) : list education_entry :=
  match strip paragraph with
  | [] => []
  | _ =>
      let degree := first_degree degree_patterns paragraph in
      let institution :=
        head (group 1 <$> finditer false institution_pattern paragraph) in
      let date :=
        match finditer false education_dates paragraph with
        | m :: _ => Some (group 1 m ++ u "-" ++ group 2 m)
        | [] => None
        end in
      if truthy degree || truthy institution
      then [Education (or_else degree (u "Unspecified Degree"))
                      (or_else institution (u "Unspecified Institution"))
                      (or_else date (u "Unknown Date"))]
      else []
  end.

Definition extract_education (text : str) : list education_entry :=
  match identify_sections text !! u "education" with
  | Some (x :: education_section) =>
      flat_map education_of (re_split blank_line (x :: education_section))
  | _ => []
  end.

End Education.

(** ** The contact extractors: [extract_email], [extract_phone],
    [extract_linkedin], [extract_github], [extract_website],
    [extract_location], [extract_job_title] *)

(** The literal characters of a class. *)
Definition any_of (s : string) : list citem := CLit <$> u s.

Definition n_tilde : char := 241%N.

(** [[a-zA-Z0-9._%+-]+@[a-zA-Z0-9.-]+\.[a-zA-Z]{2,}] *)
Definition email_pattern : regex :=
  seqs [plus (Cls ([az; AZ; d09] ++ any_of "._%+-"));
        word "@";
        plus (Cls ([az; AZ; d09] ++ any_of ".-"));
        word ".";
        Rep (Cls [az; AZ]) 2 None].

(** [[-.\s]?] *)
Definition phone_sep : regex := opt (Cls (any_of "-." ++ [CSpace])).
(** [\+?\d{1,3}[-.\s]?] *)
Definition country_code : list regex :=
  [opt (word "+"); Rep digit 1 (Some 3); phone_sep].

Definition phone_patterns : list regex :=
  [ seqs [opt (seqs country_code);
          opt (word "("); times 3 digit; opt (word ")"); phone_sep;
          times 3 digit; phone_sep; times 4 digit];
    seqs (country_code
          ++ [Rep digit 1 (Some 4); phone_sep; times 3 digit; phone_sep;
              times 4 digit]);
    seqs [times 3 digit; phone_sep; times 3 digit; phone_sep; times 4 digit];
    seqs (country_code ++ [Rep digit 6 (Some 12)]) ].

(** [[a-zA-Z0-9_-]+/?] after the address of the site. *)
Definition profile_at (site : string) : regex :=
  seqs [word site; plus (Cls ([az; AZ; d09] ++ any_of "_-")); opt (word "/")].

Definition linkedin_patterns : list regex :=
  [ profile_at "linkedin.com/in/";
    profile_at "linkedin.com/profile/";
    profile_at "www.linkedin.com/in/" ].

Definition github_patterns : list regex :=
  [ profile_at "github.com/"; profile_at "www.github.com/" ].

Definition website_pattern : regex :=
  seqs [word "http"; opt (word "s"); word "://";
        NotAhead (seqs [opt (word "www.");
                        alts (word <$> ["linkedin"; "github"; "facebook";
                                        "twitter"; "instagram"]%string);
                        word ".com"]);
        opt (word "www.");
        Rep (Cls (any_of "-" ++ [az; AZ; d09] ++ any_of "@:%._+~#="))
            1 (Some 256);
        word ".";
        Rep (Cls ([az; AZ; d09] ++ any_of "()")) 1 (Some 6);
        Wb;
        star (Cls (any_of "-" ++ [az; AZ; d09] ++ any_of "()@:%_+.~#?&//="))].

(** [(?:[A-Z][a-z]+ ?){1,2}(?:,)? [A-Z]{2}] *)
Definition city_state : list regex :=
  [Rep (seqs [Cls [AZ]; plus (Cls [az]); opt (word " ")]) 1 (Some 2);
   opt (word ","); word " "; times 2 (Cls [AZ])].

Definition location_patterns : list regex :=
  [ seqs ([Wb] ++ city_state ++ [word " "; times 5 digit; Wb]);
    seqs ([Wb] ++ city_state ++ [Wb]);
    Seq (alts [word "Chile"; word "Santiago";
               lit (u "Espa" ++ [n_tilde] ++ u "a"); word "Mexico";
               word "Colombia"; word "Argentina"])
        (opt (seqs [word ","; star ws; plus (Cls [AZ; az; CSpace])]));
    seqs [alts [word "Region"; lit (u "Regi" ++ [o_acute] ++ u "n")];
          word " ";
          alts [word "Metropolitana";
                seqs [word "del Bio"; opt (word "-");
                      lit (u "B" ++ [i_acute] ++ u "o")];
                lit (u "de Valpara" ++ [i_acute] ++ u "so")]] ].

Definition title_patterns : list regex :=
  [ seqs [Wb;
          opt (alts (word <$> ["Senior"; "Lead"; "Principal"; "Junior";
                               "Staff"]%string));
          opt ws;
          opt (alts (word <$> ["Software"; "Data"; "Full Stack"; "Frontend";
                               "Backend"; "Web"; "Mobile"; "UI"; "UX";
                               "DevOps"; "Cloud"; "Machine Learning"; "AI";
                               "QA"]%string));
          opt ws;
          alts (word <$> ["Engineer"; "Developer"; "Scientist"; "Analyst";
                          "Designer"; "Architect"; "Manager"; "Director";
                          "Consultant"; "Specialist"]%string);
          Wb];
    seqs [Wb;
          alts [word "CIO"; word "CTO"; word "CEO"; word "VP";
                Seq (word "Director") (opt (word "a")); word "Gerente";
                Seq (word "Jefe") (opt (word "a"))];
          Wb];
    seqs [Wb;
          alts (word <$> ["Ingeniero"; "Desarrollador"; "Analista";
                          "Consultor"; "Arquitecto"; "Especialista"]%string);
          opt (word "a");
          Wb] ].

Section Contacts.
Context `{Unicode}.

(** The loop over a list of patterns: the first text found by the first
    pattern that finds one, [None] when none does. *)
Fixpoint first_found (ic : bool) (patterns : list regex) (text : str)
  : option str :=
  match patterns with
  | [] => None
  | pattern :: patterns' =>
      match findall ic pattern text with
      | found :: _ => Some found
      | [] => first_found ic patterns' text
      end
  end.

Definition extract_email (text : str) : option str :=
  head (findall false email_pattern text).

Definition extract_phone (text : str) : option str :=
  first_found false phone_patterns text.

Definition extract_linkedin (text : str) : option str :=
  first_found true linkedin_patterns text.

Definition extract_github (text : str) : option str :=
  first_found true github_patterns text.

Definition extract_website (text : str) : option str :=
  head (findall true website_pattern text).

Definition extract_location (text : str) : option str :=
  first_found false location_patterns text.

Definition extract_job_title (text : str) : option str :=
  first_found false title_patterns text.

End Contacts.

(** ** [extract_structured_info] *)

Record structured_info := StructuredInfo {
  data_email : option str;
  data_phone : option str;
  data_linkedin : option str;
  data_github : option str;
  data_website : option str;
  data_name : option str;
  data_location : option str;
  data_job_title : option str;
  data_skills : gset str;
  data_education : list education_entry;
  data_work_experiences : list job;
  data_sections : gmap str str;
}.

Section StructuredInfo.
Context `{Unicode}.

(** The skills and the education are read in the body of their section when
    the segmenter finds one, in the whole text otherwise. *)
Definition extract_structured_info (text : str) : structured_info :=
  let sections := identify_sections text in
  {| data_email := extract_email text;
     data_phone := extract_phone text;
     data_linkedin := extract_linkedin text;
     data_github := extract_github text;
     data_website := extract_website text;
     data_name := extract_name text;
     data_location := extract_location text;
     data_job_title := extract_job_title text;
     data_skills := extract_skills (default text (sections !! u "skills"));
     data_education :=
       extract_education (default text (sections !! u "education"));
     data_work_experiences := extract_work_experiences_v2 text;
     data_sections := sections |}.

End StructuredInfo.

(** ** [extract_from_pdf]

    Reading the file is the work of the two libraries. What they give is the
    input here: [read] holds the texts of the pages that PyPDF extracted,
    [None] when it failed on the file; [mined] is the text that PDFMiner
    gave, [None] when the library is not there. A failure of PDFMiner counts
    as the empty text, which the choice below treats in the same way. *)

Inductive method := pypdf | pdfminer.

(** An entry of [extraction_results]. *)
Record extraction := Extraction {
  ex_method : method;
  ex_text : str;
  ex_pages : option (list str);
}.

(** The result: the record with an [error] and empty fields, or the record
    with the text, its sections and the structured data. *)
Inductive outcome :=
| Failed
| Extracted (full_text : str) (sections : gmap str str)
            (structured_data : structured_info).

(** [max(items, key=...)]: the first of the items of greatest key. *)
Fixpoint max_by {A : Type} (key : A → nat) (items : list A) : option A :=
  match items with
  | [] => None
  | x :: items' =>
      match max_by key items' with
      | Some y => if key x <? key y then Some y else Some x
      | None => Some x
      end
  end.

Section Extraction.
Context `{Unicode}.

(** The pages that are kept are those with a text that is not blank. *)
Definition pypdf_extraction (read : option (list str)) : extraction :=
  match read with
  | Some texts =>
      let page_texts :=
        filter (λ page_text, page_text ≠ [] ∧ strip page_text ≠ []) texts in
      Extraction pypdf (join [nl; nl] page_texts) (Some page_texts)
  | None => Extraction pypdf [] None
  end.

Definition extraction_results (read : option (list str)) (mined : option str)
  : list extraction :=
  pypdf_extraction read
  :: match mined with
     | Some pdfminer_text => [Extraction pdfminer pdfminer_text None]
     | None => []
     end.

Definition extract_from_pdf (read : option (list str)) (mined : option str)
  : outcome :=
  let valid_extractions :=
    filter (λ v, 0 < length (ex_text v)) (extraction_results read mined) in
  match max_by (λ v, length (ex_text v)) valid_extractions with
  | None => Failed
  | Some extraction =>
      let text := ex_text extraction in
      let pages :=
        match ex_method extraction, ex_pages extraction with
        | pypdf, Some page_texts => page_texts
        | _, _ => []
        end in
      Extracted text (assemble_sections text pages)
                (extract_structured_info text)
  end.

End Extraction.

(** ** What a pattern can match

    [lang ic r w]: the pattern [r] can consume the text [w]. The anchors and
    the look-arounds consume nothing; the conditions they put on the context
    are left out, so this bounds what the matcher accepts from above. *)

Fixpoint lang `{Unicode} (ic : bool) (r : regex) (w : str) : Prop :=
  match r with
  | Empty => w = []
  | Chr a => ∃ x, w = [x] ∧ item_matches ic (CLit a) x = true
  | Cls its => ∃ x, w = [x] ∧ class_matches ic its x = true
  | Seq r1 r2 => ∃ a b, w = a ++ b ∧ lang ic r1 a ∧ lang ic r2 b
  | Alt r1 r2 => lang ic r1 w ∨ lang ic r2 w
  | Rep r1 lo hi =>
      ∃ ws, w = concat ws ∧ Forall (lang ic r1) ws ∧ lo ≤ length ws
            ∧ ∀ h, hi = Some h → length ws ≤ h
  | Grp _ r1 => lang ic r1 w
  | Bol | Wb | NotBehind _ | NotAhead _ => w = []
  end.

(** The character before a position that lies [seg] after a position with
    [o] before it. *)
Definition last_char (o : option char) (seg : str) : option char :=
  match last seg with Some x => Some x | None => o end.

(** [s'] is [s] moved over [seg]. *)
Definition moved (s : mstate) (seg : str) (s' : mstate) : Prop :=
  rest s = seg ++ rest s' ∧ pos s' = pos s + length seg
  ∧ prev s' = last_char (prev s) seg.

(** The position at offset [k] of [text]. *)
Definition state_at (text : str) (k : nat) : mstate :=
  MState k (last (take k text)) (drop k text).

(** The least number of characters a pattern consumes. *)
Fixpoint min_len (r : regex) : nat :=
  match r with
  | Empty => 0
  | Chr _ | Cls _ => 1
  | Seq r1 r2 => min_len r1 + min_len r2
  | Alt r1 r2 => min_len r1 `min` min_len r2
  | Rep r1 lo _ => lo * min_len r1
  | Grp _ r1 => min_len r1
  | Bol | Wb | NotBehind _ | NotAhead _ => 0
  end.

(** What holds of a match object found in [text]. *)
Record match_ok `{Unicode} (ic : bool) (r : regex) (text : str) (m : rmatch)
  : Prop := {
  ok_start : m_start m ≤ m_end m;
  ok_end : m_end m ≤ length text;
  ok_text : m_text m = slice text (m_start m) (m_end m);
  ok_lang : lang ic r (m_text m);
  ok_after : m_after m = state_at text (m_end m);
}.

(** Successive matches from offset [k] on: each starts where the one before
    it ended, or later. *)
Fixpoint chain `{Unicode} (ic : bool) (r : regex) (text : str) (k : nat)
    (ms : list rmatch) : Prop :=
  match ms with
  | [] => True
  | m :: ms' =>
      match_ok ic r text m ∧ k ≤ m_start m ∧ chain ic r text (m_end m) ms'
  end.

(** Every text the pattern matches holds a digit: a sufficient test on the
    shape of the pattern. *)
Definition digits_only (its : list citem) : bool :=
  forallb (λ it, match it with CDigit => true | _ => false end) its.

Fixpoint needs_digit (r : regex) : bool :=
  match r with
  | Cls its => digits_only its
  | Seq r1 r2 => needs_digit r1 || needs_digit r2
  | Alt r1 r2 => needs_digit r1 && needs_digit r2
  | Rep r1 lo _ => (0 <? lo) && needs_digit r1
  | Grp _ r1 => needs_digit r1
  | _ => false
  end.

(** A line in which some date pattern matches. *)
Definition dated `{Unicode} (line : str) : bool :=
  existsb (λ pattern, bool_decide (is_Some (search true pattern line)))
          date_patterns.

(** A pattern whose matches do not depend on where the subject string
    starts and ends, as long as no digit is put next to it: no [^], no [\b],
    and look-arounds that only refuse a digit. *)
Fixpoint stable (r : regex) : bool :=
  match r with
  | Empty | Chr _ | Cls _ => true
  | Seq r1 r2 | Alt r1 r2 => stable r1 && stable r2
  | Rep r1 _ _ | Grp _ r1 => stable r1
  | Bol | Wb => false
  | NotBehind its => digits_only its
  | NotAhead (Cls its) => digits_only its
  | NotAhead _ => false
  end.

(** The position [z] is the position [s] of a line seen in a longer line
    that has [d] characters more before it, none of them a digit next to
    it, and [post] more after it. *)
Definition lifts `{Unicode} (d : nat) (post : str) (s z : mstate) : Prop :=
  pos z = d + pos s ∧ rest z = rest s ++ post
  ∧ (prev z = prev s
     ∨ prev s = None ∧ ∀ x, prev z = Some x → is_digit x = false).

(** Either the match ends before the end of the short line, or what follows
    it in the long line is not a digit. *)
Definition clear_after `{Unicode} (post : str) (s' : mstate) : Prop :=
  rest s' ≠ [] ∨ ∀ x, head post = Some x → is_digit x = false.

(** No text the pattern matches holds a colon: a sufficient test on the
    shape of the pattern. *)
Definition item_colon_free (it : citem) : bool :=
  match it with
  | CLit c => negb (bool_decide (c = colon))
  | CRange lo hi => negb ((lo <=? colon) && (colon <=? hi))%N
  | CSpace | CDigit => true
  end.

Fixpoint colon_free (r : regex) : bool :=
  match r with
  | Chr c => negb (bool_decide (c = colon))
  | Cls its => forallb item_colon_free its
  | Seq r1 r2 | Alt r1 r2 => colon_free r1 && colon_free r2
  | Rep r1 _ _ | Grp _ r1 => colon_free r1
  | Empty | Bol | Wb | NotBehind _ | NotAhead _ => true
  end.

(** The piece [text[a:b]] is cut the way the experience section is: after a
    colon or a newline on the left; on the right at the end of the text,
    before a newline, or after a colon or a newline. *)
Definition cut_left (text : str) (a : nat) : Prop :=
  1 ≤ a ∧ a ≤ length text
  ∧ (text !! (a - 1) = Some colon ∨ text !! (a - 1) = Some nl).

Definition cut_right (text : str) (a b : nat) : Prop :=
  b ≤ a ∨ length text ≤ b ∨ text !! b = Some nl
  ∨ text !! (b - 1) = Some colon ∨ text !! (b - 1) = Some nl.

(** The capturing groups of a pattern, with their numbers. *)
Fixpoint groups (r : regex) : list (nat * regex) :=
  match r with
  | Seq r1 r2 | Alt r1 r2 => groups r1 ++ groups r2
  | Rep r1 _ _ => groups r1
  | Grp n r1 => (n, r1) :: groups r1
  | _ => []
  end.

(** The text [p.2] is one that the group of number [p.1] can match. *)
Definition captured `{Unicode} (ic : bool) (r : regex) (p : nat * str) : Prop :=
  ∃ sub, (p.1, sub) ∈ groups r ∧ lang ic sub p.2.

(** Every text the pattern matches holds a character matched by an item
    that [ok] accepts: a sufficient test on the shape of the pattern. *)
Fixpoint needs (ok : citem → bool) (r : regex) : bool :=
  match r with
  | Chr a => ok (CLit a)
  | Cls its => forallb ok its
  | Seq r1 r2 => needs ok r1 || needs ok r2
  | Alt r1 r2 => needs ok r1 && needs ok r2
  | Rep r1 lo _ => (0 <? lo) && needs ok r1
  | Grp _ r1 => needs ok r1
  | _ => false
  end.

(** A pattern without groups and without look-ahead: how it matches does not
    depend on the groups closed before it. *)
Fixpoint plain (r : regex) : bool :=
  match r with
  | Seq r1 r2 | Alt r1 r2 => plain r1 && plain r2
  | Rep r1 _ _ => plain r1
  | Grp _ _ | NotAhead _ => false
  | _ => true
  end.

(** The item is the literal [a]; the item only matches capitals of ASCII. *)
Definition is_lit (a : char) (it : citem) : bool :=
  match it with
  | CLit c => bool_decide (c = a)
  | _ => false
  end.

Definition upper_item (it : citem) : bool :=
  match it with
  | CLit c => ascii_upper c
  | CRange lo hi => ascii_upper lo && ascii_upper hi
  | _ => false
  end.

(** ** The vocabulary of the specification of the segmenter *)

(** The twelve kinds of section. *)
Definition section_kinds : list str :=
  u <$> ["summary"; "experience"; "education"; "skills"; "certifications";
         "languages"; "projects"; "interests"; "references"; "publications";
         "awards"; "volunteering"]%string.

(** The offset at which the body of the boundary of index [i] ends: the
    offset of the next boundary, the end of the text for the last one. *)
Definition next_offset (text : str) (ps : list boundary) (i : nat) : nat :=
  match ps !! S i with
  | Some (q, _, _) => q
  | None => length text
  end.

(** The slices of the text between successive boundaries, before they are
    stripped. *)
Fixpoint raw_slices (text : str) (ps : list boundary) : list str :=
  match ps with
  | [] => []
  | (p, _, _) :: ps' =>
      slice text p (match ps' with
                    | (q, _, _) :: _ => q
                    | [] => length text
                    end) :: raw_slices text ps'
  end.

(** Boundaries of two kinds are found, at different offsets. *)
Definition two_kinds `{Unicode} (text : str) : Prop :=
  ∃ i j p q k l t v,
    section_positions text !! i = Some (p, k, t)
    ∧ section_positions text !! j = Some (q, l, v)
    ∧ k ≠ l ∧ p ≠ q.

(** The bodies as the specification describes them: the body of each
    boundary is the text from its offset to the next offset, with the
    whitespace at its two ends removed, it is in the mapping under the kind
    of the boundary, and the pieces of text that the bodies are read from
    are, together, the text from the first offset on. *)
Definition bodies_partition `{Unicode} (text : str) : Prop :=
  let ps := section_positions text in
  (∀ i p k t, ps !! i = Some (p, k, t) →
     identify_sections text !! k
     = Some (strip (slice text p (next_offset text ps i))))
  ∧ concat (raw_slices text ps)
    = drop (default 0 ((λ b, b.1.1) <$> head ps)) text.

(** A line of the specification's name rule: at most four words and more
    than three characters, once stripped. *)
Definition qualifies `{Unicode} (line : str) : Prop :=
  length (split_ws (strip line)) ≤ 4 ∧ 3 < length (strip line).

(** ** Sample texts *)

(** A text given line by line. *)
Definition text_of (ls : list string) : str := join [nl] (u <$> ls).

Definition cv_two_skills : str := text_of ["Skills"; "a"; "Skills"; "b"]%string.
Definition cv_no_header : str := u "hello".
Definition cv_two_sections : str :=
  text_of ["Experience"; "foo"; "Education"; "bar"]%string.

(** The resume of the specification's example, and the same under an
    [Experience] header. *)
Definition cv_jane : str :=
  text_of ["Jane Smith"; "Acme Corp"; "Senior Engineer";
           "January 2019 - Present"; "Built systems."; "";
           "Beta Inc"; "Analyst"; "June 2015 - December 2018";
           "Analyzed data."]%string.
Definition cv_jane_headed : str := u "Experience" ++ [nl] ++ cv_jane.

(** Two dated entries of one century, the older first in the text. *)
Definition cv_two_dates : str :=
  text_of ["Experience"; "Acme"; "2015 - 2016"; "Beta"; "2019 - 2020"]%string.

(** The education paragraph of the specification's example, and the same
    under an [Education] header. *)
Definition cv_master : str :=
  u "Master of Science in Computing, Tech University, 2015-2017".
Definition cv_master_headed : str := u "Education" ++ [nl] ++ cv_master.

Definition cv_python_twice : str := u "Python python".

(** A kind that comes twice, around another one. *)
Definition cv_skills_twice : str :=
  text_of ["Skills"; "a"; "Experience"; "b"; "Skills"; "c"]%string.

(** An experience section without a date range. *)
Definition cv_no_dates : str :=
  text_of ["Experience"; "Acme Corp"; "Senior Engineer";
           "Built systems in 2019."]%string.

(** The head of a resume with its contact lines. *)
Definition cv_contact : str :=
  text_of ["Jane Smith"; "jane.smith@example.com"; "+1 (555) 123-4567";
           "www.linkedin.com/in/jane-smith"; "github.com/jsmith/";
           "https://www.janesmith.dev/cv"; "Santiago, Chile";
           "Senior Software Engineer"]%string.

(** ** The vocabulary of the specification of the extractors *)

(** What the specification expects of its example resume: two entries, the
    one of 2019 first, both with a title. *)
Definition two_jobs_newest_first (jobs : list job) : Prop :=
  ∃ j1 j2, jobs = [j1; j2]
           ∧ date j1 = u "January 2019 - Present"
           ∧ date j2 = u "June 2015 - December 2018"
           ∧ title j1 ≠ Unknown ∧ title j2 ≠ Unknown.

(** The year the specification sorts by: the greatest four-digit year
    (19xx or 20xx) found in the date, 0 when there is none. *)
Definition max_year `{Unicode} (date_str : str) : nat :=
  foldr max 0 (int_of <$> findall false century_year date_str).

(** Sorted by [max_year], newest first. *)
Definition newest_first_by_year `{Unicode} (jobs : list job) : Prop :=
  Sorted (λ a b, max_year (date b) ≤ max_year (date a)) jobs.

(** What the specification expects of its example paragraph. *)
Definition master_entry `{Unicode} (e : education_entry) : Prop :=
  contains (u "Master") (degree e) = true
  ∧ contains (u "Tech University") (institution e) = true
  ∧ edu_date e = u "2015-2017".

(** The anchor of a line: the text that the first pattern of the catalog
    that matches the line matches in it. *)
Definition anchored `{Unicode} (line d : str) : Prop :=
  ∃ n p m, date_patterns !! n = Some p ∧ search true p line = Some m
           ∧ d = m_text m ∧ m_text m = slice line (m_start m) (m_end m)
           ∧ ∀ n' q, n' < n → date_patterns !! n' = Some q →
                     search true q line = None.

(** Two strings that differ in the case of ASCII letters at most. *)
Definition same_ignoring_case (a b : str) : Prop :=
  ascii_fold <$> a = ascii_fold <$> b.

(** One entry for each skill, whatever its case in the text. *)
Definition one_entry_per_skill (skills : gset str) : Prop :=
  ∀ a b, a ∈ skills → b ∈ skills → same_ignoring_case a b → a = b.

(** ** The character tables on Latin-1

    An instance of the interface to run the extractors with: the tables of
    Python on the code points below 256, where they are exact as long as the
    text holds no code point above; [is_space] is the whole whitespace table. *)

Definition latin1_upper (c : char) : bool :=
  (ascii_upper c || (192 <=? c) && (c <=? 214) || (216 <=? c) && (c <=? 222))%N.

Definition latin1_fold (c : char) : char :=
  if latin1_upper c then (c + 32)%N else c.

Definition unicode_space (c : char) : bool :=
  (ascii_space c || bool_decide (c = 133) || bool_decide (c = 160)
   || bool_decide (c = 5760) || (8192 <=? c) && (c <=? 8202)
   || bool_decide (c = 8232) || bool_decide (c = 8233)
   || bool_decide (c = 8239) || bool_decide (c = 8287)
   || bool_decide (c = 12288))%N.

Definition latin1_word (c : char) : bool :=
  (ascii_digit c || ascii_letter c || bool_decide (c = 95)
   || bool_decide (c = 170) || bool_decide (c = 178) || bool_decide (c = 179)
   || bool_decide (c = 181) || bool_decide (c = 185) || bool_decide (c = 186)
   || (188 <=? c) && (c <=? 190)
   || (192 <=? c) && (c <=? 214) || (216 <=? c) && (c <=? 246)
   || (248 <=? c) && (c <=? 255))%N.

Definition latin1_ci_eq (c x : char) : bool :=
  bool_decide (latin1_fold c = latin1_fold x).

Lemma latin1_space_ascii c : (c < 128)%N → unicode_space c = ascii_space c.
Proof.
  intros Hc. unfold unicode_space.
  repeat (rewrite (bool_decide_eq_false_2 (c = _)%N) by lia).
  replace (8192 <=? c)%N with false by (symmetry; apply N.leb_gt; lia).
  by rewrite !orb_false_r.
Qed.

Lemma latin1_digit_not_space c : ascii_digit c = true → unicode_space c = false.
Proof.
  unfold ascii_digit, unicode_space, ascii_space.
  rewrite andb_true_iff, !N.leb_le. intros [H1 H2].
  repeat (rewrite (bool_decide_eq_false_2 (c = _)%N) by lia).
  replace (c <=? 13)%N with false by (symmetry; apply N.leb_gt; lia).
  replace (c <=? 32)%N with false by (symmetry; apply N.leb_gt; lia).
  replace (8192 <=? c)%N with false by (symmetry; apply N.leb_gt; lia).
  by rewrite !andb_false_r.
Qed.

Lemma latin1_fold_ascii c : (c < 128)%N → latin1_fold c = ascii_fold c.
Proof.
  intros Hc. unfold latin1_fold, latin1_upper, ascii_fold.
  replace (192 <=? c)%N with false by (symmetry; apply N.leb_gt; lia).
  replace (216 <=? c)%N with false by (symmetry; apply N.leb_gt; lia).
  by rewrite !orb_false_r.
Qed.

Lemma latin1_ci_eq_uncased c x :
  (c < 128)%N → ascii_letter c = false →
  latin1_ci_eq c x = bool_decide (c = x).
Proof.
  intros Hc Hl. unfold latin1_ci_eq.
  apply orb_false_iff in Hl as [Hu Hlow].
  rewrite (latin1_fold_ascii c Hc). unfold ascii_fold. rewrite Hu.
  apply bool_decide_ext. unfold latin1_fold, latin1_upper.
  unfold ascii_upper, ascii_lower in *.
  destruct (N.leb_spec 65 x), (N.leb_spec x 90), (N.leb_spec 192 x),
    (N.leb_spec x 214), (N.leb_spec 216 x), (N.leb_spec x 222);
    simpl; try lia;
    destruct (N.leb_spec 97 c), (N.leb_spec c 122), (N.leb_spec 65 c),
      (N.leb_spec c 90); simpl in *; try discriminate; lia.
Qed.

Lemma latin1_ci_eq_uncased_r c x :
  (x < 128)%N → ascii_letter x = false →
  latin1_ci_eq c x = bool_decide (c = x).
Proof.
  intros Hx Hl. unfold latin1_ci_eq.
  apply orb_false_iff in Hl as [Hu Hlow].
  rewrite (latin1_fold_ascii x Hx). unfold ascii_fold. rewrite Hu.
  apply bool_decide_ext. unfold latin1_fold, latin1_upper.
  unfold ascii_upper, ascii_lower in *.
  destruct (N.leb_spec 65 c), (N.leb_spec c 90), (N.leb_spec 192 c),
    (N.leb_spec c 214), (N.leb_spec 216 c), (N.leb_spec c 222);
    simpl; try lia;
    destruct (N.leb_spec 97 x), (N.leb_spec x 122), (N.leb_spec 65 x),
      (N.leb_spec x 90); simpl in *; try discriminate; lia.
Qed.

Lemma latin1_ci_eq_ascii c x :
  (c < 128)%N → (x < 128)%N →
  latin1_ci_eq c x = bool_decide (ascii_fold c = ascii_fold x).
Proof.
  intros Hc Hx. unfold latin1_ci_eq.
  by rewrite (latin1_fold_ascii c Hc), (latin1_fold_ascii x Hx).
Qed.

#[export] Instance latin1 : Unicode := {|
  is_space := unicode_space;
  is_digit := ascii_digit;
  is_word := latin1_word;
  is_upper := latin1_upper;
  ci_eq := latin1_ci_eq;
  is_space_ascii := latin1_space_ascii;
  is_digit_ascii := λ c _, eq_refl;
  is_digit_not_space := latin1_digit_not_space;
  ci_eq_uncased := latin1_ci_eq_uncased;
  ci_eq_uncased_r := latin1_ci_eq_uncased_r;
  ci_eq_ascii := latin1_ci_eq_ascii;
|}.

(** * Properties

    ** The matcher *)

Section MatcherFacts.
Context `{Unicode}.

Lemma moved_nil s : moved s [] s.
Proof. unfold moved. simpl. by rewrite Nat.add_0_r. Qed.

Lemma last_char_app o a b : last_char (last_char o a) b = last_char o (a ++ b).
Proof.
  unfold last_char. destruct b as [|x b _] using rev_ind.
  - by rewrite app_nil_r.
  - by rewrite app_assoc, !last_snoc.
Qed.

Lemma moved_app s a s1 b s2 : moved s a s1 → moved s1 b s2 → moved s (a ++ b) s2.
Proof.
  intros (Hr & Hp & Hv) (Hr' & Hp' & Hv'). split_and!.
  - by rewrite Hr, Hr', app_assoc.
  - rewrite Hp', Hp, length_app. lia.
  - by rewrite Hv', Hv, last_char_app.
Qed.

Lemma step_char_moved ok s c s' c' :
  (s', c') ∈ step_char ok s c → ∃ x, ok x = true ∧ moved s [x] s' ∧ c' = c.
Proof.
  unfold step_char. destruct (rest s) as [|x r] eqn:Hr; [by intros ?%elem_of_nil|].
  destruct (ok x) eqn:Hok; [|by intros ?%elem_of_nil].
  intros Hin%list_elem_of_singleton. injection Hin as -> ->.
  exists x. split_and!; try done. unfold moved. simpl. rewrite Hr. split_and!; try done. lia.
Qed.

Lemma rep_loop_sound (P : str → Prop) body :
  (∀ s c s' c', (s', c') ∈ body s c → ∃ seg, moved s seg s' ∧ P seg) →
  ∀ fuel lo hi s c s' c',
    (s', c') ∈ rep_loop body fuel lo hi s c →
    ∃ ws, moved s (concat ws) s' ∧ Forall P ws ∧ lo ≤ length ws
          ∧ ∀ h, hi = Some h → length ws ≤ h.
Proof.
  intros Hbody. induction fuel as [|fuel IH]; intros lo hi s c s' c'; simpl.
  { by intros ?%elem_of_nil. }
  intros [Hgo|Hstop]%elem_of_app.
  - assert (hi ≠ Some 0) as Hhi by (intros ->; by apply elem_of_nil in Hgo).
    assert ((s', c') ∈ flat_map
             (λ sc, if pos s <? pos sc.1
                    then rep_loop body fuel (pred lo) (pred <$> hi) sc.1 sc.2
                    else []) (body s c)) as Hin.
    { destruct hi as [[|h]|]; done. }
    clear Hgo. apply list_elem_of_In, in_flat_map in Hin as ([s1 c1] & Hb & Hin).
    apply list_elem_of_In in Hb, Hin. simpl in Hin.
    destruct (pos s <? pos s1); [|by apply elem_of_nil in Hin].
    destruct (Hbody _ _ _ _ Hb) as (seg & Hm & HP).
    destruct (IH _ _ _ _ _ _ Hin) as (ws & Hm' & HF & Hlo & Hh).
    exists (seg :: ws). split_and!.
    + simpl. by eapply moved_app.
    + by constructor.
    + simpl. lia.
    + intros h ->. simpl. destruct h as [|h]; [done|]. specialize (Hh h eq_refl). lia.
  - destruct lo; [|by apply elem_of_nil in Hstop].
    apply list_elem_of_singleton in Hstop. injection Hstop as -> ->.
    exists []. split_and!; simpl; auto using moved_nil; intros; lia.
Qed.

Lemma matches_sound ic r : ∀ s c s' c',
  (s', c') ∈ matches ic r s c → ∃ seg, moved s seg s' ∧ lang ic r seg.
Proof.
  induction r as [|a|its|r1 IH1 r2 IH2|r1 IH1 r2 IH2|r1 IH1 lo hi|n r1 IH1| | |its|r1 IH1];
    intros s c s' c'; cbn [matches lang].
  - intros Hin%list_elem_of_singleton. injection Hin as -> ->. exists []. eauto using moved_nil.
  - intros (x & Hok & Hm & _)%step_char_moved. exists [x]. eauto.
  - intros (x & Hok & Hm & _)%step_char_moved. exists [x]. eauto.
  - intros ([s1 c1] & Hb & Hin)%list_elem_of_In%in_flat_map.
    apply list_elem_of_In in Hb, Hin.
    destruct (IH1 _ _ _ _ Hb) as (a & Hm1 & Ha).
    destruct (IH2 _ _ _ _ Hin) as (b & Hm2 & Hb').
    exists (a ++ b). split; [by eapply moved_app|]. eauto.
  - intros [Hin|Hin]%elem_of_app.
    + destruct (IH1 _ _ _ _ Hin) as (a & ? & ?). eauto.
    + destruct (IH2 _ _ _ _ Hin) as (a & ? & ?). eauto.
  - intros Hin. destruct (rep_loop_sound (lang ic r1) _ IH1 _ _ _ _ _ _ _ Hin)
      as (ws & ? & ? & ? & ?). exists (concat ws). split; [done|]. exists ws. eauto.
  - intros ([s1 c1] & Heq & Hin)%list_elem_of_fmap. injection Heq as -> ->.
    destruct (IH1 _ _ _ _ Hin) as (a & ? & ?). eauto.
  - destruct (pos s); [|by intros ?%elem_of_nil].
    intros Hin%list_elem_of_singleton. injection Hin as -> ->. exists []. eauto using moved_nil.
  - destruct (xorb _ _); [|by intros ?%elem_of_nil].
    intros Hin%list_elem_of_singleton. injection Hin as -> ->. exists []. eauto using moved_nil.
  - destruct (prev s) as [x|]; [destruct (class_matches ic its x)|];
      try (by intros ?%elem_of_nil);
      intros Hin%list_elem_of_singleton; injection Hin as -> ->; exists []; eauto using moved_nil.
  - destruct (matches ic r1 s c); [|by intros ?%elem_of_nil].
    intros Hin%list_elem_of_singleton. injection Hin as -> ->. exists []. eauto using moved_nil.
Qed.

Lemma min_len_sound ic r : ∀ w, lang ic r w → min_len r ≤ length w.
Proof.
  induction r as [|a|its|r1 IH1 r2 IH2|r1 IH1 r2 IH2|r1 IH1 lo hi|n r1 IH1| | |its|r1 IH1];
    intros w; cbn [lang min_len]; try (intros ->; simpl; lia).
  - intros (x & -> & _). simpl. lia.
  - intros (x & -> & _). simpl. lia.
  - intros (a & b & -> & Ha & Hb). rewrite length_app.
    specialize (IH1 _ Ha). specialize (IH2 _ Hb). lia.
  - intros [Hw|Hw]; [specialize (IH1 _ Hw)|specialize (IH2 _ Hw)]; lia.
  - intros (ws & -> & HF & Hlo & _).
    assert (length ws * min_len r1 ≤ length (concat ws)) as Hle.
    { clear Hlo. induction HF as [|w ws Hw HF IH]; simpl; [lia|].
      rewrite length_app. specialize (IH1 _ Hw). lia. }
    nia.
  - auto.
Qed.

Lemma state_at_0 text : state_at text 0 = MState 0 None text.
Proof. done. Qed.

Lemma last_char_last (a seg : str) : last_char (last a) seg = last (a ++ seg).
Proof.
  unfold last_char. destruct seg as [|x seg _] using rev_ind.
  - by rewrite app_nil_r.
  - by rewrite app_assoc, !last_snoc.
Qed.

Lemma moved_state_at text k seg s' :
  moved (state_at text k) seg s' →
  s' = state_at text (k + length seg) ∧ seg = slice text k (k + length seg)
  ∧ k + length seg ≤ length text ∨ length text < k.
Proof.
  intros (Hr & Hp & Hv). simpl in *.
  destruct (decide (k ≤ length text)) as [Hk|]; [left|right; lia].
  assert (take (length seg) (drop k text) = seg) as Hseg
    by (rewrite Hr; apply take_app_length).
  assert (length (drop k text) = length seg + length (rest s')) as Hlen
    by (by rewrite Hr, length_app).
  rewrite length_drop in Hlen.
  split_and!.
  - destruct s' as [p v r0]. simpl in *. unfold state_at. f_equal.
    + done.
    + by rewrite Hv, <- take_take_drop, Hseg, last_char_last.
    + rewrite <- drop_drop, Hr. by rewrite drop_app_length.
  - unfold slice. by replace (k + length seg - k) with (length seg) by lia.
  - lia.
Qed.

Lemma match_at_ok ic r text k m :
  k ≤ length text →
  match_at ic r (state_at text k) = Some m →
  match_ok ic r text m ∧ m_start m = k.
Proof.
  intros Hk. unfold match_at.
  destruct (matches ic r (state_at text k) []) as [|[s' c] l] eqn:Hm; [done|].
  intros [= <-]. simpl.
  assert ((s', c) ∈ matches ic r (state_at text k) []) as Hin
    by (rewrite Hm; left).
  apply matches_sound in Hin as (seg & Hmv & Hl).
  destruct (moved_state_at _ _ _ _ Hmv) as [(-> & Hseg & Hle)|?]; [|lia].
  simpl. replace (k + length seg - k) with (length seg) by lia.
  assert (take (length seg) (drop k text) = seg) as Htk.
  { rewrite Hseg at 2. unfold slice. f_equal. lia. }
  split; [|done]. split; simpl; rewrite ?Htk; try done; try lia.
Qed.

Lemma state_at_step text k pv x rs :
  MState k pv (x :: rs) = state_at text k →
  MState (S k) (Some x) rs = state_at text (S k) ∧ S k ≤ length text.
Proof.
  unfold state_at. intros [= -> Hd].
  assert (text !! k = Some x) as Hk.
  { pose proof (lookup_drop text k 0) as E. rewrite Nat.add_0_r in E.
    by rewrite <- E, <- Hd. }
  split; [|by apply lookup_lt_Some in Hk].
  f_equal.
  - by rewrite (take_S_r text k x), last_snoc.
  - by rewrite <- Nat.add_1_r, <- drop_drop, <- Hd.
Qed.

Lemma search_from_ok ic r text : ∀ rs k pv m,
  MState k pv rs = state_at text k → k ≤ length text →
  search_from ic r k pv rs = Some m →
  match_ok ic r text m ∧ k ≤ m_start m.
Proof.
  induction rs as [|x rs IH]; intros k pv m Heq Hk; simpl; rewrite Heq;
    destruct (match_at ic r (state_at text k)) as [m'|] eqn:Hm;
    try (intros [= ->]; apply match_at_ok in Hm as [? ->]; done); try done.
  intros Hs. apply state_at_step in Heq as [Heq' Hk'].
  destruct (IH _ _ _ Heq' Hk' Hs) as [? ?]. split; [done|lia].
Qed.

Lemma search_ok ic r text m :
  search ic r text = Some m → match_ok ic r text m.
Proof.
  intros Hs. by apply (search_from_ok ic r text text 0 None m); [|lia|].
Qed.

End MatcherFacts.

Section IterFacts.
Context `{Unicode}.

Lemma chain_mono ic r text k k' ms :
  k' ≤ k → chain ic r text k ms → chain ic r text k' ms.
Proof. destruct ms as [|m ms]; simpl; [done|]. intros ? (? & ? & ?). split_and!; [done|lia|done]. Qed.

Lemma finditer_from_chain ic r text : ∀ fuel k,
  k ≤ length text →
  chain ic r text k (finditer_from fuel ic r (state_at text k)).
Proof.
  induction fuel as [|fuel IH]; intros k Hk; simpl; [done|].
  destruct (search_from ic r k (last (take k text)) (drop k text)) as [m|] eqn:Hs;
    [|done].
  apply (search_from_ok ic r text) in Hs as [Hok Hle]; [|done|done].
  simpl. split_and!; [done|done|].
  destruct (m_start m <? m_end m).
  - rewrite (ok_after _ _ _ _ Hok). apply IH. apply Hok.
  - destruct (rest (m_after m)) as [|x rs] eqn:Hr; [done|].
    pose proof (ok_after _ _ _ _ Hok) as Ha.
    destruct (m_after m) as [p v r0] eqn:Hm. simpl in Hr. subst r0.
    assert (p = m_end m) as -> by (by injection Ha).
    apply state_at_step in Ha as [-> Hlen].
    apply (chain_mono _ _ _ (S (m_end m))); [lia|]. by apply IH.
Qed.

Lemma finditer_chain ic r text : chain ic r text 0 (finditer ic r text).
Proof. apply (finditer_from_chain ic r text _ 0). lia. Qed.

Lemma chain_elem ic r text k ms m :
  chain ic r text k ms → m ∈ ms → match_ok ic r text m ∧ k ≤ m_start m.
Proof.
  revert k. induction ms as [|m' ms IH]; intros k; simpl; [by intros _ ?%elem_of_nil|].
  intros (Hok & Hk & Hc) [->|Hin]%elem_of_cons; [done|].
  destruct (IH _ Hc Hin) as [? ?]. split; [done|]. pose proof (ok_start _ _ _ _ Hok). lia.
Qed.

Lemma finditer_ok ic r text m : m ∈ finditer ic r text → match_ok ic r text m.
Proof. intros Hin. by apply (chain_elem _ _ _ _ _ _ (finditer_chain ic r text)) in Hin as [? _]. Qed.

Lemma match_ok_length ic r text m :
  match_ok ic r text m → length (m_text m) = m_end m - m_start m.
Proof.
  intros Hok. rewrite (ok_text _ _ _ _ Hok). unfold slice.
  rewrite length_take, length_drop. pose proof (ok_end _ _ _ _ Hok). lia.
Qed.

Lemma match_ok_nonempty ic r text m :
  1 ≤ min_len r → match_ok ic r text m → m_start m < m_end m.
Proof.
  intros Hr Hok. pose proof (min_len_sound _ _ _ (ok_lang _ _ _ _ Hok)) as Hl.
  rewrite (match_ok_length _ _ _ _ Hok) in Hl. lia.
Qed.

(** The ends of the successive matches of a pattern that cannot match the
    empty string increase. *)
Lemma chain_ends_NoDup ic r text k ms :
  1 ≤ min_len r → chain ic r text k ms → NoDup (m_end <$> ms).
Proof.
  intros Hr. revert k. induction ms as [|m ms IH]; intros k; simpl; [constructor|].
  intros (Hok & Hk & Hc). constructor; [|by eapply IH].
  intros (m' & Heq & Hin)%list_elem_of_fmap.
  destruct (chain_elem _ _ _ _ _ _ Hc Hin) as [Hok' Hle].
  pose proof (match_ok_nonempty _ _ _ _ Hr Hok'). lia.
Qed.

End IterFacts.

(** ** Sorting *)

Section SortFacts.
Context {A : Type} (le : A → A → bool).

Lemma insert_sorted_perm x l : insert_sorted le x l ≡ₚ x :: l.
Proof.
  induction l as [|y l IH]; simpl; [done|].
  destruct (le x y); [done|]. by rewrite IH, Permutation_swap.
Qed.

Lemma sort_by_perm l : sort_by le l ≡ₚ l.
Proof.
  induction l as [|x l IH]; simpl; [done|].
  fold (sort_by le l). by rewrite insert_sorted_perm, IH.
Qed.

Context (le_total : ∀ a b, le a b = false → le b a = true).

Lemma insert_sorted_sorted x l :
  Sorted (λ a b, le a b = true) l →
  Sorted (λ a b, le a b = true) (insert_sorted le x l).
Proof.
  induction 1 as [|y l Hs IH Hhd]; simpl.
  - repeat constructor.
  - destruct (le x y) eqn:Hxy.
    + constructor; [by constructor|]. by constructor.
    + constructor; [done|].
      destruct l as [|z l]; simpl.
      * constructor. by apply le_total.
      * destruct (le x z); constructor; [by apply le_total|].
        by inversion Hhd.
Qed.

Lemma sort_by_sorted l : Sorted (λ a b, le a b = true) (sort_by le l).
Proof.
  induction l as [|x l IH]; simpl; [constructor|].
  by apply insert_sorted_sorted.
Qed.

End SortFacts.

Lemma str_le_total a : ∀ b, str_le a b = false → str_le b a = true.
Proof.
  induction a as [|x a IH]; intros [|y b]; simpl; try done.
  intros [Hlt Hr]%orb_false_iff. apply N.ltb_ge in Hlt.
  destruct (decide (x = y)) as [->|Hne].
  - rewrite bool_decide_eq_true_2 in * by done. simpl in *.
    rewrite (IH _ Hr). by rewrite orb_true_r.
  - replace (y <? x)%N with true; [done|]. symmetry. apply N.ltb_lt. lia.
Qed.

Lemma str_le_antisym a : ∀ b, str_le a b = true → str_le b a = true → a = b.
Proof.
  induction a as [|x a IH]; intros [|y b]; simpl; try done.
  intros [Hxy|[Hxy Hab]%andb_true_iff]%orb_true_iff
         [Hyx|[Hyx Hba]%andb_true_iff]%orb_true_iff;
    rewrite ?N.ltb_lt in *; try apply bool_decide_eq_true_1 in Hxy;
    try apply bool_decide_eq_true_1 in Hyx; try lia.
  subst. f_equal. by apply IH.
Qed.

Lemma boundary_le_total (a b : boundary) :
  boundary_le a b = false → boundary_le b a = true.
Proof.
  destruct a as [[p k] t], b as [[q l] v]. unfold boundary_le.
  intros [Hlt Hr]%orb_false_iff. apply Nat.ltb_ge in Hlt.
  destruct (decide (p = q)) as [->|Hne].
  - rewrite !bool_decide_eq_true_2 in * by done. simpl in *.
    rewrite Nat.ltb_irrefl. simpl.
    apply orb_false_iff in Hr as [Hlk Hr]. apply negb_false_iff in Hlk.
    destruct (str_le k l) eqn:Hkl; [|done]. simpl.
    assert (k = l) as -> by (by apply str_le_antisym).
    rewrite bool_decide_eq_true_2 in * by done. simpl in *.
    by apply str_le_total.
  - replace (q <? p) with true; [done|]. symmetry. apply Nat.ltb_lt. lia.
Qed.

Lemma boundary_le_pos (a b : boundary) :
  boundary_le a b = true → a.1.1 ≤ b.1.1.
Proof.
  destruct a as [[p k] t], b as [[q l] v]. unfold boundary_le. simpl.
  intros [Hlt|[Heq _]%andb_true_iff]%orb_true_iff.
  - apply Nat.ltb_lt in Hlt. lia.
  - apply bool_decide_eq_true_1 in Heq. lia.
Qed.

(** ** The segmenter *)

Section SegmenterFacts.
Context `{Unicode}.

Lemma next_offset_cons text b ps i :
  next_offset text (b :: ps) (S i) = next_offset text ps i.
Proof. done. Qed.

Lemma next_offset_head text b ps :
  next_offset text (b :: ps) 0
  = match ps with (q, _, _) :: _ => q | [] => length text end.
Proof. unfold next_offset. simpl. by destruct ps as [|[[??]?] ?]. Qed.

(** Nothing is stored under a kind that has no boundary. *)
Lemma fill_sections_other text k : ∀ ps acc,
  (∀ i p t, ps !! i ≠ Some (p, k, t)) →
  fill_sections text ps acc !! k = acc !! k.
Proof.
  induction ps as [|[[p l] t] ps IH]; intros acc Hk; simpl; [done|].
  rewrite IH.
  - apply lookup_insert_ne. intros ->. by apply (Hk 0 p t).
  - intros i q v. apply (Hk (S i)).
Qed.

(** The last boundary of a kind decides what is stored under it. *)
Lemma fill_sections_last text k : ∀ ps acc i p t,
  ps !! i = Some (p, k, t) →
  (∀ j q v, i < j → ps !! j ≠ Some (q, k, v)) →
  fill_sections text ps acc !! k
  = Some (strip (slice text p (next_offset text ps i))).
Proof.
  induction ps as [|[[p0 l] t0] ps IH]; intros acc i p t Hi Hlast; [done|].
  destruct i as [|i]; simpl in Hi.
  - injection Hi as -> -> ->. cbn [fill_sections].
    rewrite fill_sections_other.
    + rewrite lookup_insert_eq. by rewrite next_offset_head.
    + intros j q v. apply (Hlast (S j)). lia.
  - cbn [fill_sections]. rewrite next_offset_cons. apply (IH _ i p t Hi).
    intros j q v Hj. apply (Hlast (S j)). lia.
Qed.

(** Whatever is stored comes from a boundary of that kind. *)
Lemma fill_sections_inv text k body : ∀ ps acc,
  fill_sections text ps acc !! k = Some body →
  acc !! k = Some body
  ∨ ∃ i p t, ps !! i = Some (p, k, t)
             ∧ body = strip (slice text p (next_offset text ps i)).
Proof.
  induction ps as [|[[p l] t] ps IH]; intros acc; simpl; [by left|].
  intros [Hacc|(i & q & v & Hi & ->)]%IH.
  - destruct (decide (l = k)) as [->|Hne].
    + rewrite lookup_insert_eq in Hacc. injection Hacc as <-.
      right. exists 0, p, t. split; [done|]. by rewrite next_offset_head.
    + rewrite lookup_insert_ne in Hacc by done. by left.
  - right. by exists (S i), q, v.
Qed.

Lemma flat_map_bind {A B} (f : A → list B) (l : list A) : flat_map f l = l ≫= f.
Proof. induction l as [|x l IH]; simpl; [done|]. by rewrite IH. Qed.

Lemma section_positions_perm text :
  section_positions text ≡ₚ flat_map (boundaries_of text) section_patterns.
Proof. apply sort_by_perm. Qed.

Lemma Sorted_weaken {A} (R1 R2 : relation A) l :
  (∀ a b, R1 a b → R2 a b) → Sorted R1 l → Sorted R2 l.
Proof.
  intros HR. induction 1 as [|x l Hs IH Hhd]; constructor; [done|].
  destruct Hhd; constructor; auto.
Qed.

Lemma section_positions_sorted text :
  StronglySorted (λ a b : boundary, a.1.1 ≤ b.1.1) (section_positions text).
Proof.
  apply Sorted_StronglySorted.
  { intros a b c. lia. }
  eapply Sorted_weaken; [|apply (sort_by_sorted boundary_le boundary_le_total)].
  intros a b. apply boundary_le_pos.
Qed.

Lemma StronglySorted_lookup_lt {A} (R : relation A) l i j a b :
  StronglySorted R l → l !! i = Some a → l !! j = Some b → i < j → R a b.
Proof.
  intros Hs. revert i j. induction Hs as [|x l Hs IH Hx]; intros i j; [done|].
  destruct i as [|i], j as [|j]; simpl; try lia.
  - intros [= ->] Hj _. rewrite Forall_forall in Hx. apply Hx.
    by eapply list_elem_of_lookup_2.
  - intros Hi Hj ?. apply (IH i j); [done|done|lia].
Qed.

Lemma boundaries_of_elem text kp b :
  b ∈ boundaries_of text kp →
  b.1.2 = kp.1 ∧ ∃ m, m ∈ finditer true (full_pattern kp.2) text ∧ b.1.1 = m_end m.
Proof.
  unfold boundaries_of. intros (m & -> & Hm)%list_elem_of_fmap. simpl. eauto.
Qed.

Lemma section_positions_elem text b :
  b ∈ section_positions text →
  ∃ kp m, kp ∈ section_patterns ∧ b.1.2 = kp.1
          ∧ m ∈ finditer true (full_pattern kp.2) text ∧ b.1.1 = m_end m.
Proof.
  rewrite section_positions_perm. intros (kp & Hb & Hkp)%list_elem_of_In%in_flat_map.
  apply list_elem_of_In in Hb, Hkp.
  destruct (boundaries_of_elem _ _ _ Hkp) as (? & m & ? & ?). by exists kp, m.
Qed.

Lemma section_kinds_patterns : section_kinds = section_patterns.*1.
Proof. done. Qed.

Lemma section_positions_kind text i p k t :
  section_positions text !! i = Some (p, k, t) → k ∈ section_kinds.
Proof.
  intros Hi%list_elem_of_lookup_2.
  apply section_positions_elem in Hi as (kp & m & Hkp & Hk & _).
  simpl in Hk. subst k. rewrite section_kinds_patterns.
  by apply list_elem_of_fmap_2.
Qed.

Lemma section_positions_bound text i p k t :
  section_positions text !! i = Some (p, k, t) → p ≤ length text.
Proof.
  intros Hi%list_elem_of_lookup_2.
  apply section_positions_elem in Hi as (kp & m & _ & _ & Hm & Hp).
  simpl in Hp. subst p. apply finditer_ok in Hm. apply Hm.
Qed.

Lemma full_patterns_nonempty :
  Forall (λ kp : str * regex, 1 ≤ min_len (full_pattern kp.2)) section_patterns.
Proof. repeat constructor. Qed.

Lemma section_patterns_NoDup : NoDup section_patterns.*1.
Proof. apply (bool_decide_unpack _). by vm_compute. Qed.

(** No two boundaries have both the same offset and the same kind. *)
Lemma boundaries_NoDup text (l : list (str * regex)) :
  NoDup l.*1 → Forall (λ kp, 1 ≤ min_len (full_pattern kp.2)) l →
  NoDup (flat_map (boundaries_of text) l).*1.
Proof.
  induction l as [|kp l IH]; simpl; [constructor|].
  intros [Hkp Hnd]%NoDup_cons [Hmin HF]%Forall_cons.
  rewrite fmap_app. apply NoDup_app. split_and!.
  - assert ((boundaries_of text kp).*1.*1
            = m_end <$> finditer true (full_pattern kp.2) text) as E.
    { unfold boundaries_of. by rewrite <- !list_fmap_compose. }
    apply (NoDup_fmap_1 fst). rewrite E.
    apply (chain_ends_NoDup true (full_pattern kp.2) text 0);
      [done|apply finditer_chain].
  - intros [p k] (b & Hb & Hin)%list_elem_of_fmap (b' & Hb' & Hin')%list_elem_of_fmap.
    apply boundaries_of_elem in Hin as [Hk _].
    apply list_elem_of_In, in_flat_map in Hin' as (kp' & Hkp' & Hin').
    apply list_elem_of_In in Hkp', Hin'.
    apply boundaries_of_elem in Hin' as [Hk' _].
    apply Hkp. replace kp.1 with kp'.1; [by apply list_elem_of_fmap_2|].
    rewrite <- Hk', <- Hk. by rewrite <- Hb, <- Hb'.
  - by apply IH.
Qed.

Lemma section_positions_NoDup text : NoDup (section_positions text).*1.
Proof.
  rewrite section_positions_perm.
  apply boundaries_NoDup; [apply section_patterns_NoDup|apply full_patterns_nonempty].
Qed.

End SegmenterFacts.

(** ** Claims on the segmenter *)

(** C7 — When a kind has several boundaries, the body stored under it is the
    one of its boundary of greatest offset (the last write wins); when no
    header pattern matches anywhere, the mapping is empty. *)
Theorem identify_sections_last_write_wins `{Unicode} (text : str) :
  (∀ k i p t,
     section_positions text !! i = Some (p, k, t) →
     (∀ j q v, section_positions text !! j = Some (q, k, v) → q ≤ p) →
     identify_sections text !! k
     = Some (strip (slice text p
                      (next_offset text (section_positions text) i))))
  ∧ ((∀ kp, kp ∈ section_patterns →
        finditer true (full_pattern kp.2) text = []) →
     identify_sections text = ∅).
Proof.
  split.
  - intros k i p t Hi Hmax. apply (fill_sections_last text k _ _ i p t Hi).
    intros j q v Hij Hj.
    assert (p ≤ q) as Hpq.
    { apply (StronglySorted_lookup_lt _ _ i j _ _
               (section_positions_sorted text) Hi Hj Hij). }
    assert (q = p) as -> by (specialize (Hmax _ _ _ Hj); lia).
    assert (i = j); [|lia].
    apply (NoDup_lookup _ i j (p, k) (section_positions_NoDup text));
      by rewrite list_lookup_fmap, ?Hi, ?Hj.
  - intros Hnone. unfold identify_sections, section_positions.
    replace (flat_map (boundaries_of text) section_patterns)
      with (@nil boundary); [done|].
    symmetry. induction section_patterns as [|kp l IH]; simpl; [done|].
    rewrite IH by (intros; apply Hnone; by right).
    unfold boundaries_of. rewrite Hnone by left. done.
Qed.

Lemma identify_sections_last_write_wins_witness :
  identify_sections (H:=latin1) cv_two_skills !! u "skills" = Some (u "b")
  ∧ identify_sections (H:=latin1) cv_no_header = ∅.
Proof.
  split.
  - assert (section_positions (H:=latin1) cv_two_skills
            = [(7, u "skills", u "Skills"); (16, u "skills", u "Skills")]) as E
      by (by vm_compute).
    assert (Some (strip (slice cv_two_skills 16
                          (next_offset cv_two_skills
                             (section_positions (H:=latin1) cv_two_skills) 1)))
            = Some (u "b")) as <- by (by vm_compute).
    apply (proj1 (identify_sections_last_write_wins cv_two_skills)
             (u "skills") 1 16 (u "Skills")).
    + by rewrite E.
    + rewrite E. intros [|[|j]] q v; simpl; intros [=]; subst; lia.
  - apply (proj2 (identify_sections_last_write_wins cv_no_header)).
    apply Forall_forall. repeat constructor.
Defined.

Lemma section_kinds_head (k : str) :
  k ∈ section_kinds → k ≠ u "content" ∧ ∀ tail, k ≠ u "page_" ++ tail.
Proof.
  intros Hk. vm_compute in Hk.
  repeat (apply elem_of_cons in Hk as [->|Hk]; [by split|]).
  by apply elem_of_nil in Hk.
Qed.

Lemma foldl_insert_is_Some (l : list (nat * str)) : ∀ (acc : gmap str str) k,
  is_Some (acc !! k) ∨ (∃ ip, ip ∈ l ∧ page_key ip.1 = k) →
  is_Some (foldl (λ acc ip, <[page_key ip.1 := ip.2]> acc) acc l !! k).
Proof.
  induction l as [|ip l IH]; intros acc k; simpl.
  - intros [?|(? & []%elem_of_nil & _)]. done.
  - intros Hk. apply IH.
    destruct (decide (page_key ip.1 = k)) as [<-|Hne].
    + left. by rewrite lookup_insert_eq.
    + rewrite lookup_insert_ne by done.
      destruct Hk as [?|(ip' & [->|?]%elem_of_cons & Heq)]; [by left|done|].
      right. by exists ip'.
Qed.

(** C10 — Every key of the mapping of the segmenter is one of the twelve
    kinds; [content] and the [page_N] keys are not among them, they come
    from the assembly of the result around the segmenter. *)
Theorem identify_sections_keys `{Unicode} (text k : str) :
  is_Some (identify_sections text !! k) →
  k ∈ section_kinds
  ∧ k ≠ u "content" ∧ (∀ n, k ≠ page_key n)
  ∧ ∀ pages,
      is_Some (assemble_sections text pages !! u "content")
      ∧ ∀ n, n < length pages →
             is_Some (assemble_sections text pages !! page_key n).
Proof.
  intros [body Hk]. unfold identify_sections in Hk.
  apply fill_sections_inv in Hk as [Hk|(i & p & t & Hi & _)]; [done|].
  apply section_positions_kind in Hi.
  destruct (section_kinds_head k Hi) as [Hc Hp].
  split_and!; [done|done|intros n; apply Hp|].
  intros pages. unfold assemble_sections.
  split; [|intros n Hn]; rewrite lookup_union, union_is_Some; right;
    apply foldl_insert_is_Some.
  - left. by rewrite lookup_insert_eq.
  - right. destruct (lookup_lt_is_Some_2 pages n Hn) as [pg Hpg].
    exists (n, pg). split; [|done].
    by apply (elem_of_lookup_imap_2 (λ i p, (i, p))).
Qed.

Lemma identify_sections_keys_witness :
  u "skills" ∈ section_kinds
  ∧ is_Some (assemble_sections (H:=latin1) cv_two_skills [u "p"] !! page_key 0).
Proof.
  assert (is_Some (identify_sections (H:=latin1) cv_two_skills !! u "skills"))
    as Hk by (vm_compute; by eexists).
  destruct (identify_sections_keys cv_two_skills (u "skills") Hk)
    as (Hin & _ & _ & Hglue).
  split; [done|]. apply (Hglue [u "p"]). simpl. lia.
Defined.

Section Slices.
Context `{Unicode}.

Lemma raw_slices_lookup text : ∀ ps i p k t,
  ps !! i = Some (p, k, t) →
  raw_slices text ps !! i = Some (slice text p (next_offset text ps i)).
Proof.
  induction ps as [|[[p0 k0] t0] ps IH]; intros i p k t; [done|].
  destruct i as [|i]; simpl.
  - intros [= -> -> ->]. by rewrite next_offset_head.
  - intros Hi. rewrite next_offset_cons. by eapply IH.
Qed.

(** Slices cut at increasing offsets make up the text from the first
    offset on. *)
Lemma raw_slices_concat text : ∀ ps,
  StronglySorted (λ a b : boundary, a.1.1 ≤ b.1.1) ps →
  concat (raw_slices text ps)
  = match ps with
    | (p, _, _) :: _ => drop p text
    | [] => []
    end.
Proof.
  induction ps as [|[[p k] t] ps IH]; intros Hs; [done|].
  apply StronglySorted_inv in Hs as [Hs Hhd]. cbn [raw_slices concat].
  rewrite (IH Hs). destruct ps as [|[[q l] v] ps].
  - unfold slice. rewrite app_nil_r. apply take_ge. rewrite length_drop. lia.
  - apply Forall_cons in Hhd as [Hpq _]. simpl in Hpq.
    unfold slice. replace q with (p + (q - p)) at 2 by lia.
    rewrite <- drop_drop. apply take_drop.
Qed.

End Slices.

Section LastOfKind.
Context `{Unicode}.

(** A kind that has a boundary has a last one. *)
Lemma last_of_kind (ps : list boundary) (k : str) :
  (∃ i p t, ps !! i = Some (p, k, t)) →
  ∃ i p t, ps !! i = Some (p, k, t)
           ∧ ∀ j q v, i < j → ps !! j ≠ Some (q, k, v).
Proof.
  induction ps as [|[[p0 k0] t0] ps IH] using rev_ind.
  { by intros (i & p & t & Hi). }
  intros (i & p & t & Hi).
  destruct (decide (k0 = k)) as [->|Hne].
  - exists (length ps), p0, t0. split; [by apply list_lookup_middle|].
    intros j q v Hj. rewrite lookup_ge_None_2; [done|].
    rewrite length_app. simpl. lia.
  - apply lookup_app_Some in Hi as [Hi|[Hlen Hi]].
    + destruct IH as (i0 & p1 & t1 & Hi0 & Hlast); [by eauto|].
      exists i0, p1, t1. split; [by apply lookup_app_l_Some|].
      intros j q v Hj [Hin|[Hlen Hin]]%lookup_app_Some.
      * by apply (Hlast j q v).
      * apply list_lookup_singleton_Some in Hin as [_ Heq]. congruence.
    + apply list_lookup_singleton_Some in Hi as [_ Heq]. congruence.
Qed.

Lemma NoDup_kinds_last (ps : list boundary) i p k t :
  NoDup ps.*1.*2 → ps !! i = Some (p, k, t) →
  ∀ j q v, i < j → ps !! j ≠ Some (q, k, v).
Proof.
  intros Hnd Hi j q v Hlt Hj.
  assert (ps.*1.*2 !! i = Some k) as Hi' by (by rewrite !list_lookup_fmap, Hi).
  assert (ps.*1.*2 !! j = Some k) as Hj' by (by rewrite !list_lookup_fmap, Hj).
  pose proof (NoDup_lookup _ _ _ _ Hnd Hi' Hj'). lia.
Qed.

End LastOfKind.

(** C6, as the code has it — When boundaries of two kinds are found, the
    slices of the text between successive boundaries do not overlap (each
    runs from its offset to the next offset, which is not before it) and
    together make up the text from the first offset to the end. The mapping
    holds, for each kind that has a boundary, the slice of the last boundary
    of that kind with the whitespace at its two ends removed, and nothing
    else: the slice of an earlier boundary of a kind that comes again is in
    no body. When no kind comes twice, the bodies are as the specification
    describes them. *)
Theorem slices_partition_text `{Unicode} (text : str) :
  two_kinds text →
  let ps := section_positions text in
  (∀ i p k t, ps !! i = Some (p, k, t) →
     p ≤ next_offset text ps i ≤ length text
     ∧ raw_slices text ps !! i = Some (slice text p (next_offset text ps i)))
  ∧ concat (raw_slices text ps)
    = drop (default 0 ((λ b, b.1.1) <$> head ps)) text
  ∧ (∀ k body, identify_sections text !! k = Some body ↔
       ∃ i p t, ps !! i = Some (p, k, t)
                ∧ (∀ j q v, i < j → ps !! j ≠ Some (q, k, v))
                ∧ body = strip (slice text p (next_offset text ps i)))
  ∧ (NoDup ps.*1.*2 → bodies_partition text).
Proof.
  intros Htwo ps.
  assert (concat (raw_slices text ps)
          = drop (default 0 ((λ b, b.1.1) <$> head ps)) text) as Hcover.
  { rewrite (raw_slices_concat text ps (section_positions_sorted text)).
    destruct Htwo as (i & _ & p & _ & k & _ & t & _ & Hi & _).
    fold ps in Hi. destruct ps as [|[[p0 k0] t0] ps']; [done|done]. }
  assert (∀ k body, identify_sections text !! k = Some body ↔
            ∃ i p t, ps !! i = Some (p, k, t)
                     ∧ (∀ j q v, i < j → ps !! j ≠ Some (q, k, v))
                     ∧ body = strip (slice text p (next_offset text ps i)))
    as Hstored.
  { intros k body. unfold identify_sections. fold ps. split.
    - intros Hk.
      destruct (fill_sections_inv _ _ _ _ _ Hk) as [Hacc|(i & p & t & Hi & _)].
      { by rewrite lookup_empty in Hacc. }
      destruct (last_of_kind ps k) as (i0 & p0 & t0 & Hi0 & Hlast); [by eauto|].
      exists i0, p0, t0. split_and!; [done|done|].
      rewrite (fill_sections_last text k ps ∅ i0 p0 t0 Hi0 Hlast) in Hk.
      by injection Hk.
    - intros (i & p & t & Hi & Hlast & ->).
      by apply (fill_sections_last text k ps ∅ i p t). }
  split_and!; [|done|done|].
  - intros i p k t Hi. split; [|by eapply raw_slices_lookup].
    unfold next_offset. destruct (ps !! S i) as [[[q l] v]|] eqn:Hn.
    + split; [|by eapply section_positions_bound].
      apply (StronglySorted_lookup_lt _ _ i (S i) _ _
               (section_positions_sorted text) Hi Hn). lia.
    + split; [by eapply section_positions_bound|done].
  - intros Hnd. split; [|done]. fold ps. intros i p k t Hi.
    apply Hstored. exists i, p, t. split_and!; [done| |done].
    by eapply NoDup_kinds_last.
Qed.

Lemma slices_partition_text_witness :
  bodies_partition (H:=latin1) cv_two_sections.
Proof.
  assert (two_kinds (H:=latin1) cv_two_sections) as Htwo.
  { exists 0, 1, 11, 25, (u "experience"), (u "education"),
      (u "Experience"), (u "Education"). by vm_compute. }
  apply (proj2 (proj2 (proj2 (slices_partition_text cv_two_sections Htwo)))).
  apply (bool_decide_unpack _). vm_compute. reflexivity.
Defined.

(** C6, as the specification states it, fails: in this text the kind
    [skills] comes twice, at different offsets and around a boundary of
    another kind. The mapping keeps one body for it, the one of the last
    boundary, so the body of the first boundary is not in the mapping and
    the text it is read from is covered by no body. *)
Lemma bodies_do_not_partition :
  two_kinds (H:=latin1) cv_skills_twice
  ∧ section_positions (H:=latin1) cv_skills_twice
    = [(7, u "skills", u "Skills"); (20, u "experience", u "Experience");
       (29, u "skills", u "Skills")]
  ∧ identify_sections (H:=latin1) cv_skills_twice !! u "skills"
    = Some (u "c")
  ∧ strip (H:=latin1) (slice cv_skills_twice 7 20)
    = text_of ["a"; "Experience"]%string
  ∧ ¬ bodies_partition (H:=latin1) cv_skills_twice.
Proof.
  split_and!; try (vm_compute; reflexivity).
  - exists 0, 1, 7, 20, (u "skills"), (u "experience"),
      (u "Skills"), (u "Experience"). by vm_compute.
  - intros [Hbody _].
    specialize (Hbody 0 7 (u "skills") (u "Skills")
                  ltac:(vm_compute; reflexivity)).
    vm_compute in Hbody. discriminate Hbody.
Qed.

(** ** The name *)

Section NameFacts.
Context `{Unicode}.

Lemma strip_nil : strip [] = [].
Proof. done. Qed.

(** The test of the source and the rule of the specification agree: a line
    that qualifies is not empty. *)
Lemma name_like_qualifies line : name_like line = true ↔ qualifies line.
Proof.
  unfold name_like, qualifies.
  rewrite !andb_true_iff, negb_true_iff, Nat.leb_le, Nat.ltb_lt.
  split; [by intros [[_ ?] ?]|]. intros [? Hlen]. split_and!; [|done|done].
  apply bool_decide_eq_false_2. intros ->. rewrite strip_nil in Hlen.
  simpl in Hlen. lia.
Qed.

Lemma first_name_like_Some lines name :
  first_name_like lines = Some name ↔
  ∃ i line, lines !! i = Some line ∧ qualifies line ∧ name = strip line
            ∧ ∀ j line', j < i → lines !! j = Some line' → ¬ qualifies line'.
Proof.
  induction lines as [|l lines IH]; simpl.
  { split; [done|]. by intros (i & line & ? & _). }
  destruct (name_like l) eqn:Hl.
  - apply name_like_qualifies in Hl. split.
    + intros [= <-]. exists 0, l. split_and!; try done. intros; lia.
    + intros ([|i] & line & Hi & Hq & -> & Hfirst); simpl in Hi.
      * by injection Hi as ->.
      * destruct (Hfirst 0 l); [lia|done|done].
  - assert (¬ qualifies l) as Hnq.
    { intros Hq%name_like_qualifies. congruence. }
    rewrite IH. split.
    + intros (i & line & Hi & Hq & -> & Hfirst). exists (S i), line.
      split_and!; try done. intros [|j] line' Hj; simpl.
      * by intros [= <-].
      * apply Hfirst. lia.
    + intros ([|i] & line & Hi & Hq & -> & Hfirst); simpl in Hi.
      * by injection Hi as ->.
      * exists i, line. split_and!; try done. intros j line' Hj.
        apply (Hfirst (S j)). lia.
Qed.

Lemma first_name_like_None lines :
  first_name_like lines = None ↔
  ∀ i line, lines !! i = Some line → ¬ qualifies line.
Proof.
  induction lines as [|l lines IH]; simpl; [done|].
  destruct (name_like l) eqn:Hl.
  - split; [done|]. intros Hall. apply name_like_qualifies in Hl.
    by destruct (Hall 0 l).
  - rewrite IH. split.
    + intros Hall [|i] line; simpl.
      * intros [= <-] Hq%name_like_qualifies. congruence.
      * apply Hall.
    + intros Hall i line. apply (Hall (S i)).
Qed.

End NameFacts.

(** C8 — The name is looked for in the first three lines only: it is the
    first of them that has at most four whitespace-separated words and,
    stripped, more than three characters, returned stripped; there is no
    name when none of the three qualifies. *)
Theorem extract_name_first_three `{Unicode} (text : str) :
  let lines := split_on nl text in
  (∀ name, extract_name text = Some name ↔
     ∃ i line, i < 3 ∧ lines !! i = Some line ∧ qualifies line
               ∧ name = strip line
               ∧ ∀ j line', j < i → lines !! j = Some line' → ¬ qualifies line')
  ∧ (extract_name text = None ↔
     ∀ i line, i < 3 → lines !! i = Some line → ¬ qualifies line).
Proof.
  intros lines. unfold extract_name. fold lines. split.
  - intros name. rewrite first_name_like_Some. split.
    + intros (i & line & [Hi Hlt]%lookup_take_Some & Hq & -> & Hfirst).
      exists i, line. split_and!; try done. intros j line' Hj Hl.
      apply (Hfirst j); [done|]. apply lookup_take_Some. split; [done|lia].
    + intros (i & line & Hlt & Hi & Hq & -> & Hfirst).
      exists i, line. split_and!; try done.
      * by apply lookup_take_Some.
      * intros j line' Hj [Hl _]%lookup_take_Some. by apply (Hfirst j).
  - rewrite first_name_like_None. split.
    + intros Hall i line Hlt Hi. apply (Hall i). by apply lookup_take_Some.
    + intros Hall i line [Hi Hlt]%lookup_take_Some. by apply (Hall i).
Qed.

Lemma extract_name_first_three_witness :
  extract_name (H:=latin1) cv_jane = Some (u "Jane Smith").
Proof.
  apply (proj1 (extract_name_first_three cv_jane)).
  exists 0, (u "Jane Smith"). split_and!; try done; try (vm_compute; lia).
Defined.

(** ** The examples of the specification *)

(** C1, as the specification states it, fails: the example resume has no
    experience header, so no experience section is found and no entry is
    returned. *)
Lemma jane_without_header_no_entries :
  extract_work_experiences_v2 (H:=latin1) cv_jane = []
  ∧ ¬ two_jobs_newest_first (extract_work_experiences_v2 (H:=latin1) cv_jane).
Proof.
  assert (extract_work_experiences_v2 (H:=latin1) cv_jane = []) as E
    by (vm_compute; reflexivity).
  split; [exact E|]. rewrite E. intros (j1 & j2 & Heq & _). discriminate Heq.
Qed.

(** C1, as the code has it — Under an [Experience] header line the example
    resume gives exactly two entries, the one dated [January 2019 - Present]
    before the one dated [June 2015 - December 2018], both with a title that
    is not [Unknown]. *)
Theorem jane_with_header_two_entries :
  two_jobs_newest_first (extract_work_experiences_v2 (H:=latin1) cv_jane_headed).
Proof.
  assert (extract_work_experiences_v2 (H:=latin1) cv_jane_headed
          = [Job (u "Senior Engineer") (u "Acme Corp")
                 (u "January 2019 - Present")
                 (text_of ["January 2019 - Present"; "Built systems."; "";
                           "Beta Inc"; "Analyst"]%string);
             Job (u "Analyst") (u "Beta Inc") (u "June 2015 - December 2018")
                 (text_of ["June 2015 - December 2018";
                           "Analyzed data."]%string)]) as E
    by (vm_compute; reflexivity).
  rewrite E. eexists _, _. split; [reflexivity|].
  cbn [date title]. split; [reflexivity|]. split; [reflexivity|].
  split; intros Heq; vm_compute in Heq; discriminate Heq.
Qed.

(** C2 fails on the code — The sort key is the century: [re.findall] returns
    what the group [(19|20)] matched, so two dates of this century compare
    equal and stay in the order of the text, the older first. *)
Theorem same_century_keeps_text_order :
  let jobs := extract_work_experiences_v2 (H:=latin1) cv_two_dates in
  date <$> jobs = [u "2015 - 2016"; u "2019 - 2020"]
  ∧ extract_year (H:=latin1) <$> (date <$> jobs) = [20; 20]
  ∧ max_year (H:=latin1) <$> (date <$> jobs) = [2016; 2020]
  ∧ ¬ newest_first_by_year (H:=latin1) jobs.
Proof.
  intros jobs.
  assert (date <$> jobs = [u "2015 - 2016"; u "2019 - 2020"]) as E
    by (vm_compute; reflexivity).
  rewrite E. split; [reflexivity|].
  split; [vm_compute; reflexivity|]. split; [vm_compute; reflexivity|].
  unfold newest_first_by_year. clearbody jobs.
  destruct jobs as [|j1 [|j2 [|j3 l]]]; try discriminate E.
  injection E as E1 E2. intros [_ Hhd]%Sorted_inv. apply HdRel_inv in Hhd.
  rewrite E1, E2 in Hhd. vm_compute in Hhd. lia.
Qed.

(** C3 fails on the code — The paragraph of the specification's example
    gives no entry with the date [2015-2017]. Given alone, as the only
    caller gives it when it is the body of the education section, it gives
    no entry at all: [extract_education] looks for an education header in
    what it is given and the paragraph has none. Under an [Education] header
    line it gives one entry, whose date is [20-2017]: the date is made of
    the two groups of the pattern and the first group holds the century
    only. *)
Theorem master_paragraph_no_entry :
  extract_education (H:=latin1) cv_master = []
  ∧ data_education (extract_structured_info (H:=latin1) cv_master) = []
  ∧ identify_sections (H:=latin1) cv_master_headed !! u "education"
    = Some cv_master
  ∧ data_education (extract_structured_info (H:=latin1) cv_master_headed) = []
  ∧ extract_education (H:=latin1) cv_master_headed
    = [Education (u "Master of Science") (u "Tech University") (u "20-2017")]
  ∧ (¬ ∃ e, e ∈ extract_education (H:=latin1) cv_master
            ∧ master_entry (H:=latin1) e)
  ∧ (¬ ∃ e, e ∈ extract_education (H:=latin1) cv_master_headed
            ∧ master_entry (H:=latin1) e).
Proof.
  assert (extract_education (H:=latin1) cv_master = []) as E
    by (vm_compute; reflexivity).
  assert (extract_education (H:=latin1) cv_master_headed
          = [Education (u "Master of Science") (u "Tech University")
                       (u "20-2017")]) as E'
    by (vm_compute; reflexivity).
  split_and!; try (vm_compute; reflexivity).
  - rewrite E. intros (e & Hin & _). by apply elem_of_nil in Hin.
  - rewrite E'. intros (e & ->%list_elem_of_singleton & _ & _ & Hd).
    vm_compute in Hd. discriminate Hd.
Qed.

(** ** The skills *)

Section SkillFacts.
Context `{Unicode}.

Lemma elem_of_skills_fold (text : str) (s : str) : ∀ (l : list regex) (acc : gset str),
  s ∈ foldl (λ skills pattern, skills ∪ list_to_set (findall true pattern text))
            acc l
  ↔ s ∈ acc ∨ ∃ p, p ∈ l ∧ s ∈ findall true p text.
Proof.
  induction l as [|p l IH]; intros acc; simpl.
  - split; [by left|]. intros [?|(p & Hp & _)]; [done|]. by apply elem_of_nil in Hp.
  - rewrite IH, elem_of_union, elem_of_list_to_set. split.
    + intros [[?|?]|(q & ? & ?)]; [by left|right|right].
      * exists p. split; [left|done].
      * exists q. split; [by right|done].
    + intros [?|(q & [->|?]%elem_of_cons & ?)]; [by left; left|by left; right|].
      right. by exists q.
Qed.

End SkillFacts.

(** C4, as the specification states it, fails: [Python] and [python] are
    both kept. *)
Lemma python_twice_two_entries :
  u "Python" ∈ extract_skills (H:=latin1) cv_python_twice
  ∧ u "python" ∈ extract_skills (H:=latin1) cv_python_twice
  ∧ ¬ one_entry_per_skill (extract_skills (H:=latin1) cv_python_twice).
Proof.
  assert (u "Python" ∈ extract_skills (H:=latin1) cv_python_twice) as H1.
  { apply elem_of_skills_fold. right. eexists. split; [left|].
    vm_compute. left. }
  assert (u "python" ∈ extract_skills (H:=latin1) cv_python_twice) as H2.
  { apply elem_of_skills_fold. right. eexists. split; [left|].
    vm_compute. right. left. }
  split_and!; [done|done|]. intros Hone.
  specialize (Hone _ _ H1 H2 eq_refl). discriminate Hone.
Qed.

(** C4, as the code has it — The skills are the texts that the skill patterns
    match in the text, case-insensitively, each kept as it is written in the
    text and the same text kept once: an entry is a piece of the text that one
    of the patterns can match, and two spellings of a skill that differ in
    case are two entries. *)
Theorem extract_skills_matched_texts `{Unicode} (text : str) :
  (∀ s, s ∈ extract_skills text ↔
        ∃ p, p ∈ skill_patterns ∧ s ∈ findall true p text)
  ∧ ∀ s, s ∈ extract_skills text →
         ∃ p a b, p ∈ skill_patterns ∧ a ≤ b ≤ length text
                  ∧ s = slice text a b ∧ lang true p s.
Proof.
  assert (∀ s, s ∈ extract_skills text ↔
               ∃ p, p ∈ skill_patterns ∧ s ∈ findall true p text) as Hchar.
  { intros s. unfold extract_skills. rewrite elem_of_skills_fold.
    split; [|by right]. intros [Hin|?]; [|done]. by apply elem_of_empty in Hin. }
  split; [done|]. intros s (p & Hp & Hs)%Hchar.
  unfold findall in Hs. apply list_elem_of_fmap in Hs as (m & -> & Hm).
  apply finditer_ok in Hm. exists p, (m_start m), (m_end m).
  split_and!; [done|apply Hm|apply Hm|apply Hm|apply Hm].
Qed.

(** ** The work experiences *)

Section WorkFacts.
Context `{Unicode}.

Lemma needs_digit_sound ic r : ∀ w,
  needs_digit r = true → lang ic r w → ∃ x, x ∈ w ∧ is_digit x = true.
Proof.
  induction r as [|a|its|r1 IH1 r2 IH2|r1 IH1 r2 IH2|r1 IH1 lo hi|n r1 IH1| | |its|r1 IH1];
    intros w; cbn [lang needs_digit]; try done.
  - intros Hd (x & -> & Hx). exists x. split; [left|].
    unfold class_matches in Hx. apply existsb_exists in Hx as (it & Hit & Hm).
    unfold digits_only in Hd. rewrite forallb_forall in Hd.
    specialize (Hd _ Hit). by destruct it.
  - intros [Hd|Hd]%orb_true_iff (a & b & -> & Ha & Hb).
    + destruct (IH1 _ Hd Ha) as (x & ? & ?). exists x. split; [|done].
      apply elem_of_app. by left.
    + destruct (IH2 _ Hd Hb) as (x & ? & ?). exists x. split; [|done].
      apply elem_of_app. by right.
  - intros [Hd1 Hd2]%andb_true_iff [Hw|Hw]; eauto.
  - intros [Hlo Hd]%andb_true_iff (ws & -> & HF & Hlen & _).
    apply Nat.ltb_lt in Hlo. destruct HF as [|w ws Hw HF]; [simpl in Hlen; lia|].
    destruct (IH1 _ Hd Hw) as (x & ? & ?). exists x. split; [|done].
    simpl. apply elem_of_app. by left.
  - eauto.
Qed.

Lemma date_patterns_need_digit :
  Forall (λ p, needs_digit p = true) date_patterns.
Proof. repeat constructor. Qed.

Lemma Unknown_no_digit x : x ∈ Unknown → is_digit x = false.
Proof.
  intros Hx.
  assert (Forall (λ x, (x < 128)%N ∧ ascii_digit x = false) Unknown) as HF.
  { repeat constructor. }
  rewrite Forall_forall in HF. destruct (HF _ Hx) as [Hlt Hd].
  by rewrite is_digit_ascii.
Qed.

(** The first pattern of the list that matches decides the date. *)
Lemma first_date_Some line d : ∀ patterns,
  first_date patterns line = Some d →
  ∃ n p m, patterns !! n = Some p ∧ search true p line = Some m
           ∧ d = m_text m
           ∧ ∀ n' q, n' < n → patterns !! n' = Some q →
                     search true q line = None.
Proof.
  induction patterns as [|p patterns IH]; simpl; [done|].
  destruct (search true p line) as [m|] eqn:Hs.
  - intros [= <-]. exists 0, p, m. split_and!; try done. intros; lia.
  - intros (n & q & m & Hn & Hq & -> & Hfirst)%IH.
    exists (S n), q, m. split_and!; try done.
    intros [|n'] q' Hlt; simpl; [by intros [= <-]|]. apply Hfirst. lia.
Qed.

Lemma first_date_dated line :
  is_Some (first_date date_patterns line) ↔ dated line = true.
Proof.
  unfold dated. induction date_patterns as [|p patterns IH]; simpl.
  - split; [by intros [? ?]|done].
  - destruct (search true p line) as [m|] eqn:Hs.
    + rewrite bool_decide_eq_true_2 by eauto. split; eauto.
    + rewrite bool_decide_eq_false_2 by (by intros [? ?]). done.
Qed.

Lemma date_positions_from_length : ∀ lines i,
  length (date_positions_from i lines)
  = length (filter (λ l, dated l = true) lines).
Proof.
  induction lines as [|l lines IH]; intros i; [done|].
  rewrite filter_cons. cbn [date_positions_from].
  destruct (first_date date_patterns l) as [d|] eqn:Hd.
  - rewrite decide_True by (apply first_date_dated; eauto).
    cbn [length]. by rewrite (IH (S i)).
  - rewrite decide_False; [by rewrite (IH (S i))|].
    intros [? Hs]%first_date_dated. congruence.
Qed.

Lemma date_positions_from_elem : ∀ lines k i d,
  (i, d) ∈ date_positions_from k lines →
  ∃ line, k ≤ i ∧ lines !! (i - k) = Some line
          ∧ first_date date_patterns line = Some d.
Proof.
  induction lines as [|l lines IH]; intros k i d; cbn [date_positions_from].
  { by intros ?%elem_of_nil. }
  assert (∀ i d, (i, d) ∈ date_positions_from (S k) lines →
            ∃ line, k ≤ i ∧ (l :: lines) !! (i - k) = Some line
                    ∧ first_date date_patterns line = Some d) as Htail.
  { intros i' d' Hin. apply IH in Hin as (line & Hle & Hl & Hf). exists line.
    split_and!; [lia| |done]. by replace (i' - k) with (S (i' - S k)) by lia. }
  destruct (first_date date_patterns l) as [d'|] eqn:Hd; [|by apply Htail].
  intros [[= -> ->]|Hin]%elem_of_cons; [|by apply Htail].
  exists l. rewrite Nat.sub_diag. split_and!; [lia|done|done].
Qed.

Lemma make_jobs_length lines : ∀ dps, length (make_jobs lines dps) = length dps.
Proof.
  induction dps as [|[i d] dps IH]; simpl; [done|]. by rewrite IH.
Qed.

Lemma make_jobs_elem lines j : ∀ dps,
  j ∈ make_jobs lines dps → ∃ i, (i, date j) ∈ dps.
Proof.
  induction dps as [|[i d] dps IH]; simpl; [by intros ?%elem_of_nil|].
  intros [->|Hin]%elem_of_cons.
  - exists i. left.
  - destruct (IH Hin) as [i' ?]. exists i'. by right.
Qed.

End WorkFacts.

Section AnchorFacts.
Context `{Unicode}.

Lemma first_date_intro line : ∀ patterns n p m,
  patterns !! n = Some p → search true p line = Some m →
  (∀ n' q, n' < n → patterns !! n' = Some q → search true q line = None) →
  first_date patterns line = Some (m_text m).
Proof.
  induction patterns as [|p0 patterns IH]; intros n p m Hn Hs Hfirst; [done|].
  destruct n as [|n]; simpl in *.
  - injection Hn as ->. by rewrite Hs.
  - rewrite (Hfirst 0 p0) by (done || lia). apply (IH n p m Hn Hs).
    intros n' q Hlt. apply (Hfirst (S n')). lia.
Qed.

Lemma first_date_anchored line d :
  first_date date_patterns line = Some d ↔ anchored line d.
Proof.
  split.
  - intros (n & p & m & Hn & Hs & -> & Hfirst)%first_date_Some.
    exists n, p, m. split_and!; try done. by apply search_ok in Hs as [].
  - intros (n & p & m & Hn & Hs & -> & _ & Hfirst).
    by apply (first_date_intro line date_patterns n p m).
Qed.

Lemma anchored_not_Unknown line d : anchored line d → d ≠ Unknown.
Proof.
  intros (n & p & m & Hn & Hs & -> & _ & _) Heq.
  pose proof (search_ok _ _ _ _ Hs) as Hok.
  assert (needs_digit p = true) as Hp.
  { pose proof date_patterns_need_digit as HF. rewrite Forall_forall in HF.
    apply HF. by eapply list_elem_of_lookup_2. }
  destruct (needs_digit_sound true p (m_text m) Hp (ok_lang _ _ _ _ Hok))
    as (x & Hx & Hdig).
  rewrite Heq in Hx. apply Unknown_no_digit in Hx. congruence.
Qed.

Lemma date_positions_from_intro : ∀ lines k i line d,
  k ≤ i → lines !! (i - k) = Some line →
  first_date date_patterns line = Some d →
  (i, d) ∈ date_positions_from k lines.
Proof.
  induction lines as [|l lines IH]; intros k i line d Hk Hl Hf; [done|].
  cbn [date_positions_from].
  destruct (decide (i = k)) as [->|Hne].
  - rewrite Nat.sub_diag in Hl. injection Hl as ->. rewrite Hf. left.
  - assert ((i, d) ∈ date_positions_from (S k) lines) as Hin.
    { apply (IH (S k) i line d); [lia| |done].
      replace (i - k) with (S (i - S k)) in Hl by lia. done. }
    destruct (first_date date_patterns l); [by right|done].
Qed.

Lemma date_positions_from_sorted : ∀ lines k,
  StronglySorted (λ a b : nat * str, a.1 < b.1) (date_positions_from k lines).
Proof.
  induction lines as [|l lines IH]; intros k; cbn [date_positions_from];
    [constructor|].
  destruct (first_date date_patterns l) as [d|]; [|apply IH].
  constructor; [apply IH|]. apply Forall_forall. intros [i d'] Hin.
  apply date_positions_from_elem in Hin as (_ & Hle & _). simpl. lia.
Qed.

Lemma make_jobs_anchors lines : ∀ dps,
  Forall2 (λ j (a : nat * str),
             date j = a.2 ∧ ∃ end_idx, j = make_job lines a.1 end_idx a.2)
          (make_jobs lines dps) dps.
Proof.
  induction dps as [|[i d] dps IH]; simpl; constructor; [|done].
  split; [done|]. eauto.
Qed.

End AnchorFacts.

(** C9 — A line of the experience section gives at most one anchor, the
    match of the first date pattern that matches it: the anchors are the
    dated lines, each once and in the order of the lines, with the text
    matched on the line. The entries are the ones built from the anchors,
    one for each: the entry of an anchor starts at the line of the anchor
    and its date is the text matched on that line, never [Unknown]. There
    are as many entries as lines in which some date pattern matches. *)
Theorem one_entry_per_dated_line `{Unicode} (text section : str) :
  experience_section text = Some section →
  let lines := split_on nl section in
  let jobs := extract_work_experiences_v2 text in
  ∃ anchors : list (nat * str),
    StronglySorted (λ a b, a.1 < b.1) anchors
    ∧ (∀ i d, (i, d) ∈ anchors ↔
              ∃ line, lines !! i = Some line ∧ anchored line d)
    ∧ length anchors = length (filter (λ l, dated l = true) lines)
    ∧ jobs ≡ₚ make_jobs lines anchors
    ∧ Forall2 (λ j (a : nat * str),
                 date j = a.2 ∧ ∃ end_idx, j = make_job lines a.1 end_idx a.2)
              (make_jobs lines anchors) anchors
    ∧ length jobs = length (filter (λ l, dated l = true) lines)
    ∧ ∀ j, j ∈ jobs →
        date j ≠ Unknown
        ∧ ∃ i line end_idx,
            lines !! i = Some line ∧ (i, date j) ∈ anchors
            ∧ anchored line (date j)
            ∧ j = make_job lines i end_idx (date j).
Proof.
  intros Hsec lines jobs. unfold jobs, extract_work_experiences_v2.
  rewrite Hsec. fold lines. exists (date_positions lines).
  assert (∀ i d, (i, d) ∈ date_positions lines ↔
                 ∃ line, lines !! i = Some line ∧ anchored line d) as Hiff.
  { intros i d. unfold date_positions. split.
    - intros (line & _ & Hl & Hf)%date_positions_from_elem.
      rewrite Nat.sub_0_r in Hl. exists line. split; [done|].
      by apply first_date_anchored.
    - intros (line & Hl & Ha%first_date_anchored).
      apply (date_positions_from_intro lines 0 i line d); [lia| |done].
      by rewrite Nat.sub_0_r. }
  split_and!.
  - apply date_positions_from_sorted.
  - done.
  - apply date_positions_from_length.
  - apply sort_by_perm.
  - apply make_jobs_anchors.
  - rewrite sort_by_perm, make_jobs_length. apply date_positions_from_length.
  - intros j Hj. rewrite sort_by_perm in Hj.
    pose proof (make_jobs_anchors lines (date_positions lines)) as HF.
    apply list_elem_of_lookup_1 in Hj as [k Hk].
    destruct (Forall2_lookup_l _ _ _ _ _ HF Hk) as ([i d] & Ha & Hd & e & Hj).
    simpl in Hd, Hj. apply list_elem_of_lookup_2 in Ha.
    destruct (proj1 (Hiff i d) Ha) as (line & Hl & Hanch).
    rewrite Hd. split; [by eapply anchored_not_Unknown|].
    by exists i, line, e.
Qed.

Lemma one_entry_per_dated_line_witness :
  ∃ anchors : list (nat * str),
    extract_work_experiences_v2 (H:=latin1) cv_jane_headed
    ≡ₚ make_jobs (H:=latin1) (split_on nl cv_jane) anchors
    ∧ ((3, u "January 2019 - Present") ∈ anchors)
    ∧ ((8, u "June 2015 - December 2018") ∈ anchors)
    ∧ length anchors = 2.
Proof.
  assert (experience_section (H:=latin1) cv_jane_headed = Some cv_jane) as Hsec
    by (vm_compute; reflexivity).
  destruct (one_entry_per_dated_line cv_jane_headed cv_jane Hsec)
    as (anchors & _ & Hiff & Hlen & Hperm & _).
  exists anchors. split_and!; [done| | |].
  - apply Hiff. eexists. split; [vm_compute; reflexivity|].
    apply first_date_anchored. vm_compute. reflexivity.
  - apply Hiff. eexists. split; [vm_compute; reflexivity|].
    apply first_date_anchored. vm_compute. reflexivity.
  - rewrite Hlen. vm_compute. reflexivity.
Defined.

(** ** Lines and stripping *)

Section LineFacts.
Context `{Unicode}.

Lemma split_on_first (x y : str) :
  nl ∉ x → split_on nl (x ++ nl :: y) = x :: split_on nl y.
Proof.
  induction x as [|a x IH]; intros Hx; simpl.
  - done.
  - apply not_elem_of_cons in Hx as [Ha Hx].
    rewrite bool_decide_eq_false_2 by done. by rewrite IH.
Qed.

Lemma split_on_single (x : str) : nl ∉ x → split_on nl x = [x].
Proof.
  induction x as [|a x IH]; intros Hx; simpl; [done|].
  apply not_elem_of_cons in Hx as [Ha Hx].
  rewrite bool_decide_eq_false_2 by done. by rewrite IH.
Qed.

(** A text has no newline or splits at its first one. *)
Lemma first_newline (s : str) :
  nl ∉ s ∨ ∃ x y, s = x ++ nl :: y ∧ nl ∉ x.
Proof.
  induction s as [|a s IH]; [left; by intros ?%elem_of_nil|].
  destruct (decide (a = nl)) as [->|Ha].
  - right. exists [], s. split; [done|]. by intros ?%elem_of_nil.
  - destruct IH as [Hs|(x & y & -> & Hx)].
    + left. by intros [?|?]%elem_of_cons.
    + right. exists (a :: x), y. split; [done|]. by intros [?|?]%elem_of_cons.
Qed.

(** ... and at its last one. *)
Lemma last_newline (s : str) :
  ∃ s0 s1, s = s0 ++ s1 ∧ (nl ∉ s1) ∧ (s0 = [] ∨ last s0 = Some nl).
Proof.
  induction s as [|a s IH] using rev_ind.
  { exists [], []. split_and!; [done|by intros ?%elem_of_nil|by left]. }
  destruct (decide (a = nl)) as [->|Ha].
  - exists (s ++ [nl]), []. rewrite app_nil_r.
    split_and!; [done|by intros ?%elem_of_nil|right; by rewrite last_snoc].
  - destruct IH as (s0 & t & -> & Ht & Hs0).
    exists s0, (t ++ [a]). rewrite app_assoc. split_and!; [done| |done].
    intros [?|?%list_elem_of_singleton]%elem_of_app; done.
Qed.

Lemma first_newline_unique (x x' y y' : str) :
  nl ∉ x → nl ∉ x' → x ++ nl :: y = x' ++ nl :: y' → x = x' ∧ y = y'.
Proof.
  revert x'. induction x as [|a x IH]; intros [|a' x'] Hx Hx'; simpl.
  - by intros [= ->].
  - intros [= <- _]. destruct Hx'. left.
  - intros [= -> _]. destruct Hx. left.
  - apply not_elem_of_cons in Hx as [? Hx], Hx' as [? Hx'].
    intros [= -> Heq]. destruct (IH _ Hx Hx' Heq) as [-> ->]. done.
Qed.

(** A line of a text is a piece without newline that has the start of the
    text or a newline before it and the end of the text or a newline after
    it. *)
Lemma split_on_elem_1 (l : str) : ∀ s,
  l ∈ split_on nl s →
  (nl ∉ l) ∧ ∃ A B, s = A ++ l ++ B
                  ∧ (A = [] ∨ last A = Some nl)
                  ∧ (B = [] ∨ head B = Some nl).
Proof.
  intros s. remember (length s) as n eqn:Hn. revert s Hn.
  induction n as [n IH] using lt_wf_ind. intros s Hn.
  destruct (first_newline s) as [Hs|(x & y & -> & Hx)].
  - rewrite split_on_single by done. intros ->%list_elem_of_singleton.
    split; [done|]. exists [], []. rewrite app_nil_r. auto.
  - rewrite split_on_first by done. intros [->|Hin]%elem_of_cons.
    + split; [done|]. exists [], (nl :: y). auto.
    + assert (length y < n) as Hlt
        by (subst n; rewrite ?length_app; simpl; lia).
      destruct (IH _ Hlt y eq_refl Hin) as [Hl (A & B & -> & HA & HB)].
      split; [done|]. exists (x ++ nl :: A), B. split_and!.
      * by rewrite <- app_assoc.
      * right. destruct HA as [->|HA]; [by rewrite last_snoc|].
        rewrite last_app, last_cons, HA. done.
      * done.
Qed.

Lemma split_on_elem_2 (l : str) : ∀ s A B,
  nl ∉ l → s = A ++ l ++ B →
  (A = [] ∨ last A = Some nl) → (B = [] ∨ head B = Some nl) →
  l ∈ split_on nl s.
Proof.
  intros s. remember (length s) as n eqn:Hn. revert s Hn.
  induction n as [n IH] using lt_wf_ind. intros s Hn A B Hl -> HA HB.
  assert (l ∈ split_on nl (l ++ B)) as Hhere.
  { destruct HB as [->|HB].
    - rewrite app_nil_r, split_on_single by done. left.
    - destruct B as [|b B]; [done|]. injection HB as ->.
      rewrite split_on_first by done. left. }
  destruct HA as [->|HA]; [done|].
  assert (nl ∈ A) as HinA.
  { destruct A as [|a A _] using rev_ind; [done|].
    rewrite last_snoc in HA. injection HA as ->.
    apply elem_of_app. right. left. }
  destruct (first_newline A) as [?|(x & A1 & -> & Hx)]; [done|].
  rewrite <- app_assoc. simpl. rewrite split_on_first by done. right.
  assert (length (A1 ++ l ++ B) < n) as Hlt.
  { subst n. rewrite !length_app. simpl. lia. }
  apply (IH _ Hlt _ eq_refl A1 B); try done.
  destruct A1 as [|a A1]; [by left|right].
  by rewrite last_app_cons, last_cons_cons in HA.
Qed.

(** A line of a piece of a text is a piece of a line of the text: what the
    line gains on a side is not empty only when the line touches that end of
    the piece. *)
Lemma line_of_piece (P S Q l' : str) :
  l' ∈ split_on nl S →
  ∃ pre post,
    pre ++ l' ++ post ∈ split_on nl (P ++ S ++ Q)
    ∧ (pre = [] ∨ last pre = last P ∧ ∃ B, S = l' ++ B)
    ∧ (post = [] ∨ head post = head Q ∧ ∃ A, S = A ++ l').
Proof.
  intros (Hl & A & B & -> & HA & HB)%split_on_elem_1.
  destruct (last_newline (P ++ A)) as (X0 & pre & HX & Hpre & HX0).
  assert (P ++ (A ++ l' ++ B) ++ Q = (P ++ A) ++ l' ++ (B ++ Q)) as ->
    by (by rewrite <- !app_assoc).
  assert (pre = [] ∨ last pre = last P ∧ ∃ B0, A ++ l' ++ B = l' ++ B0)
    as Hleft.
  { destruct pre as [|p pre _] using rev_ind; [by left|right].
    assert (A = []) as ->.
    { destruct HA as [?|HA]; [done|]. apply (f_equal last) in HX.
      rewrite app_assoc, last_snoc, last_app, HA in HX.
      injection HX as <-. destruct Hpre. apply elem_of_app. right. left. }
    split; [|by exists B]. apply (f_equal last) in HX.
    rewrite app_nil_r in HX. by rewrite HX, app_assoc, !last_snoc. }
  rewrite HX.
  destruct (first_newline (B ++ Q)) as [HY|(post & Y0 & HY & Hpost)].
  - exists pre, (B ++ Q). split_and!; [|done|].
    + apply (split_on_elem_2 _ _ X0 []); [| |done|by left].
      * intros [?|[?|?]%elem_of_app]%elem_of_app; done.
      * by rewrite app_nil_r, <- !app_assoc.
    + destruct B as [|b B].
      * destruct Q as [|q Q]; [by left|right]. split; [done|].
        exists A. by rewrite app_nil_r.
      * destruct HB as [?|HB]; [done|]. injection HB as ->.
        destruct HY. left.
  - exists pre, post. rewrite HY. split_and!; [|done|].
    + apply (split_on_elem_2 _ _ X0 (nl :: Y0)); [| |done|by right].
      * intros [?|[?|?]%elem_of_app]%elem_of_app; done.
      * by rewrite <- !app_assoc.
    + destruct post as [|p post]; [by left|right].
      destruct B as [|b B].
      * simpl in HY. split; [by rewrite HY|]. exists A. by rewrite app_nil_r.
      * destruct HB as [?|HB]; [done|]. injection HB as ->.
        simpl in HY. injection HY as Hp _. destruct Hpost. rewrite <- Hp. left.
Qed.

End LineFacts.

(** ** Matching in a longer line *)

Section Lifting.
Context `{Unicode}.
Context (d : nat) (post : str).

Lemma clear_after_moved s seg s' :
  moved s seg s' → clear_after post s' → clear_after post s.
Proof.
  intros (Hr & _ & _) [Hne|Hp]; [left|by right].
  rewrite Hr. destruct seg; [done|done].
Qed.

Lemma digits_only_matches ic its x :
  digits_only its = true → class_matches ic its x = true → is_digit x = true.
Proof.
  unfold digits_only, class_matches. rewrite forallb_forall.
  intros Hd (it & Hit & Hm)%existsb_exists. specialize (Hd _ Hit).
  by destruct it.
Qed.

Lemma step_char_nil ok (s : mstate) (c : list (nat * str)) :
  (∀ x, head (rest s) = Some x → ok x = false) → step_char ok s c = [].
Proof.
  unfold step_char. destruct (rest s) as [|x r]; [done|].
  intros Hx. by rewrite (Hx x eq_refl).
Qed.

Lemma step_char_lift ok s z c s' c' :
  lifts d post s z → (s', c') ∈ step_char ok s c →
  ∃ z', lifts d post s' z' ∧ (z', c') ∈ step_char ok z c.
Proof.
  intros (Hp & Hr & Hv). unfold step_char.
  destruct (rest s) as [|x r] eqn:Hrs; [by intros ?%elem_of_nil|].
  rewrite Hr. simpl. destruct (ok x); [|by intros ?%elem_of_nil].
  intros [= -> ->]%list_elem_of_singleton.
  eexists. split; [|left]. split_and!; simpl; [lia|done|by left].
Qed.

Lemma rep_loop_lift (body Body : mstate → list (nat * str) → list (mstate * list (nat * str))) :
  (∀ s z c s' c', lifts d post s z → (s', c') ∈ body s c → clear_after post s' →
     ∃ z', lifts d post s' z' ∧ (z', c') ∈ Body z c) →
  (∀ s c s' c', (s', c') ∈ body s c → ∃ seg, moved s seg s') →
  ∀ fuel Fuel lo hi s z c s' c',
    fuel ≤ Fuel → lifts d post s z →
    (s', c') ∈ rep_loop body fuel lo hi s c → clear_after post s' →
    ∃ z', lifts d post s' z' ∧ (z', c') ∈ rep_loop Body Fuel lo hi z c.
Proof.
  intros Hbody Hmoved. induction fuel as [|fuel IH];
    intros Fuel lo hi s z c s' c' Hle Hl; simpl; [by intros ?%elem_of_nil|].
  destruct Fuel as [|Fuel]; [lia|]. simpl.
  intros [Hgo|Hstop]%elem_of_app Hclear.
  - assert (hi ≠ Some 0) as Hhi by (intros ->; by apply elem_of_nil in Hgo).
    assert ((s', c') ∈ flat_map
             (λ sc, if pos s <? pos sc.1
                    then rep_loop body fuel (pred lo) (pred <$> hi) sc.1 sc.2
                    else []) (body s c)) as Hin.
    { destruct hi as [[|h]|]; done. }
    clear Hgo. apply list_elem_of_In, in_flat_map in Hin as ([s1 c1] & Hb & Hin).
    apply list_elem_of_In in Hb, Hin. simpl in Hin.
    destruct (pos s <? pos s1) eqn:Hlt; [|by apply elem_of_nil in Hin].
    assert (clear_after post s1) as Hclear1.
    { destruct (rep_loop_sound (λ _, True) body) with
        (fuel := fuel) (lo := pred lo) (hi := pred <$> hi) (s := s1) (c := c1)
        (s' := s') (c' := c') as (ws & Hm & _); [|done|].
      - intros ???? Hx. destruct (Hmoved _ _ _ _ Hx) as [seg ?]. eauto.
      - by eapply clear_after_moved. }
    destruct (Hbody _ _ _ _ _ Hl Hb Hclear1) as (z1 & Hl1 & HB).
    destruct (IH Fuel _ _ _ _ _ _ _ ltac:(lia) Hl1 Hin Hclear) as (z' & Hl' & HR).
    exists z'. split; [done|]. apply elem_of_app. left.
    assert ((z', c') ∈ flat_map
             (λ sc, if pos z <? pos sc.1
                    then rep_loop Body Fuel (pred lo) (pred <$> hi) sc.1 sc.2
                    else []) (Body z c)) as Hgoal.
    { apply list_elem_of_In, in_flat_map. exists (z1, c1).
      split; [by apply list_elem_of_In|]. simpl.
      replace (pos z <? pos z1) with true; [by apply list_elem_of_In|].
      symmetry. apply Nat.ltb_lt. apply Nat.ltb_lt in Hlt.
      destruct Hl as (-> & _), Hl1 as (-> & _). lia. }
    destruct hi as [[|h]|]; done.
  - destruct lo; [|by apply elem_of_nil in Hstop].
    apply list_elem_of_singleton in Hstop. injection Hstop as -> ->.
    exists z. split; [done|]. apply elem_of_app. right. left.
Qed.

Lemma matches_lift ic r : stable r = true →
  ∀ s z c s' c',
    lifts d post s z → (s', c') ∈ matches ic r s c → clear_after post s' →
    ∃ z', lifts d post s' z' ∧ (z', c') ∈ matches ic r z c.
Proof.
  induction r as [|a|its|r1 IH1 r2 IH2|r1 IH1 r2 IH2|r1 IH1 lo hi|n r1 IH1| | |its|r1 IH1];
    intros Hst s z c s' c' Hl; cbn [matches]; cbn [stable] in Hst; try done.
  - intros [= -> ->]%list_elem_of_singleton _. exists z. split; [done|left].
  - intros Hin _. by eapply step_char_lift.
  - intros Hin _. by eapply step_char_lift.
  - apply andb_true_iff in Hst as [Hst1 Hst2].
    intros ([s1 c1] & Hb & Hin)%list_elem_of_In%in_flat_map Hclear.
    apply list_elem_of_In in Hb, Hin. simpl in Hin.
    destruct (matches_sound _ _ _ _ _ _ Hin) as (seg & Hm & _).
    destruct (IH1 Hst1 _ _ _ _ _ Hl Hb (clear_after_moved _ _ _ Hm Hclear))
      as (z1 & Hl1 & H1).
    destruct (IH2 Hst2 _ _ _ _ _ Hl1 Hin Hclear) as (z' & Hl' & H2).
    exists z'. split; [done|]. apply list_elem_of_In, in_flat_map.
    exists (z1, c1). split; by apply list_elem_of_In.
  - apply andb_true_iff in Hst as [Hst1 Hst2].
    intros [Hin|Hin]%elem_of_app Hclear.
    + destruct (IH1 Hst1 _ _ _ _ _ Hl Hin Hclear) as (z' & ? & ?).
      exists z'. split; [done|]. apply elem_of_app. by left.
    + destruct (IH2 Hst2 _ _ _ _ _ Hl Hin Hclear) as (z' & ? & ?).
      exists z'. split; [done|]. apply elem_of_app. by right.
  - intros Hin Hclear.
    apply (rep_loop_lift (matches ic r1) (matches ic r1)) with
      (fuel := S (length (rest s))) (s := s); try done.
    + intros. by eapply IH1.
    + intros ???? Hx. destruct (matches_sound _ _ _ _ _ _ Hx) as (seg & ? & _).
      eauto.
    + destruct Hl as (_ & -> & _). rewrite length_app. lia.
  - intros ([s1 c1] & Heq & Hin)%list_elem_of_fmap Hclear.
    injection Heq as -> ->. simpl in *.
    destruct (matches_sound _ _ _ _ _ _ Hin) as (seg & (Hr & Hp & _) & _).
    destruct (IH1 Hst _ _ _ _ _ Hl Hin Hclear) as (z' & Hl' & H1).
    exists z'. split; [done|]. apply list_elem_of_fmap. exists (z', c1).
    split; [|done]. simpl. f_equal. f_equal.
    destruct Hl as (-> & -> & _), Hl' as (-> & _).
    rewrite Hp, Hr. replace (d + (pos s + length seg) - (d + pos s))
      with (length seg) by lia.
    replace (pos s + length seg - pos s) with (length seg) by lia.
    rewrite <- app_assoc. by rewrite !take_app_length.
  - intros Hin _. destruct Hl as (Hp & Hr & Hv).
    assert (∀ x, prev z = Some x → class_matches ic its x = false) as Hno.
    { intros x HS. destruct Hv as [Hv|[Hn Hd]].
      - rewrite Hv in HS. rewrite HS in Hin.
        destruct (class_matches ic its x); [by apply elem_of_nil in Hin|done].
      - destruct (class_matches ic its x) eqn:Hc; [|done].
        apply digits_only_matches in Hc; [|done]. rewrite (Hd _ HS) in Hc. done. }
    assert ((s', c') = (s, c)) as [= -> ->].
    { destruct (prev s) as [x|]; [destruct (class_matches ic its x)|];
        try (by apply elem_of_nil in Hin); by apply list_elem_of_singleton in Hin. }
    exists z. split; [done|].
    destruct (prev z) as [x|]; [rewrite (Hno x eq_refl)|]; left.
  - destruct r1 as [| |its'| | | | | | | |]; try done.
    intros Hin Hclear. cbn [matches] in *.
    destruct (step_char (class_matches ic its') s c) eqn:Hnone;
      [|by apply elem_of_nil in Hin].
    apply list_elem_of_singleton in Hin. injection Hin as -> ->.
    exists z. split; [done|].
    rewrite step_char_nil; [left|].
    intros y Hy. destruct (class_matches ic its' y) eqn:Hc; [|done]. exfalso.
    destruct Hl as (Hp & Hr & Hv). rewrite Hr in Hy.
    unfold step_char in Hnone. destruct (rest s) as [|x r] eqn:Hrs.
    + destruct Hclear as [?|Hpost]; [done|].
      apply digits_only_matches in Hc; [|done]. by rewrite (Hpost y Hy) in Hc.
    + simpl in Hy. injection Hy as ->. by rewrite Hc in Hnone.
Qed.

End Lifting.

Section SearchLift.
Context `{Unicode}.

Lemma search_from_at ic r text : ∀ rs k pv m,
  MState k pv rs = state_at text k → k ≤ length text →
  search_from ic r k pv rs = Some m →
  match_at ic r (state_at text (m_start m)) = Some m
  ∧ m_start m ≤ length text.
Proof.
  induction rs as [|x rs IH]; intros k pv m Heq Hk; simpl; rewrite Heq;
    destruct (match_at ic r (state_at text k)) as [m'|] eqn:Hm; try done;
    try (intros [= ->]; destruct (match_at_ok _ _ _ _ _ Hk Hm) as [_ ->];
         by split).
  intros Hs. apply state_at_step in Heq as [Heq' Hk']. by eapply IH.
Qed.

Lemma search_from_complete ic r text j : ∀ rs k pv,
  MState k pv rs = state_at text k → k ≤ j → j ≤ length text →
  is_Some (match_at ic r (state_at text j)) →
  is_Some (search_from ic r k pv rs).
Proof.
  induction rs as [|x rs IH]; intros k pv Heq Hkj Hj Hm; simpl; rewrite Heq;
    destruct (match_at ic r (state_at text k)) as [m'|] eqn:Hk; try by eauto.
  - assert (length text ≤ k) as Hlen.
    { injection Heq as _ Hd. apply (f_equal length) in Hd.
      rewrite length_drop in Hd. simpl in Hd. lia. }
    replace j with k in Hm by lia. rewrite Hk in Hm. by destruct Hm.
  - apply state_at_step in Heq as [Heq' Hk'].
    apply (IH _ _ Heq'); [|done|done].
    destruct (decide (j = k)) as [->|]; [|lia].
    rewrite Hk in Hm. by destruct Hm.
Qed.

Lemma state_at_lifts (pre l post : str) k :
  k ≤ length l →
  (∀ x, last pre = Some x → is_digit x = false) →
  lifts (length pre) post (state_at l k)
        (state_at (pre ++ l ++ post) (length pre + k)).
Proof.
  intros Hk Hpre. unfold lifts, state_at. simpl. split_and!; [done| |].
  - rewrite <- drop_drop, drop_app_length. by rewrite drop_app_le.
  - rewrite take_app_add, (take_app_le l post k) by done.
    destruct (take k l) as [|y tk] eqn:Htk using rev_ind.
    + right. split; [done|]. rewrite app_nil_r. apply Hpre.
    + left. by rewrite app_assoc, !last_snoc.
Qed.

(** A match of a stable pattern in a line is still there when the line is
    part of a longer one, if no digit comes next to the line on the left
    and either the match ends before the end of the line or no digit comes
    next to the line on the right. *)
Lemma search_lift ic r (pre l post : str) m :
  stable r = true →
  (∀ x, last pre = Some x → is_digit x = false) →
  search ic r l = Some m →
  (m_end m < length l ∨ ∀ x, head post = Some x → is_digit x = false) →
  is_Some (search ic r (pre ++ l ++ post)).
Proof.
  intros Hst Hpre Hs Hpost.
  pose proof (search_ok _ _ _ _ Hs) as Hok.
  apply (search_from_at ic r l l 0 None m) in Hs as [Hm Hk]; [|done|lia].
  unfold match_at in Hm.
  destruct (matches ic r (state_at l (m_start m)) []) as [|[s' c] ms] eqn:Hms;
    [done|].
  assert (s' = state_at l (m_end m)) as ->.
  { injection Hm as Hm. rewrite <- (ok_after _ _ _ _ Hok). by rewrite <- Hm. }
  destruct (matches_lift (length pre) post ic r Hst
              (state_at l (m_start m))
              (state_at (pre ++ l ++ post) (length pre + m_start m))
              [] (state_at l (m_end m)) c) as (z' & _ & Hin).
  - by apply state_at_lifts.
  - rewrite Hms. left.
  - destruct Hpost as [Hlt|Hpost]; [left|by right]. simpl.
    intros Hd. apply (f_equal length) in Hd. rewrite length_drop in Hd.
    simpl in Hd. lia.
  - apply (search_from_complete ic r (pre ++ l ++ post)
             (length pre + m_start m) (pre ++ l ++ post) 0 None); [done|lia| |].
    + rewrite !length_app. lia.
    + unfold match_at.
      destruct (matches ic r (state_at (pre ++ l ++ post)
                                (length pre + m_start m)) []) as [|[? ?] ?];
        [by apply elem_of_nil in Hin|eauto].
Qed.

End SearchLift.

Section DatedLift.
Context `{Unicode}.

Lemma char_range_elem lo hi c : c ∈ char_range lo hi → (lo ≤ c ≤ hi)%N.
Proof.
  unfold char_range. intros (i & -> & Hi)%list_elem_of_fmap.
  apply elem_of_seq in Hi. lia.
Qed.

Lemma is_space_colon : is_space colon = false.
Proof. by rewrite is_space_ascii. Qed.

Lemma is_digit_colon : is_digit colon = false.
Proof. by rewrite is_digit_ascii. Qed.

Lemma is_space_nl : is_space nl = true.
Proof. by rewrite is_space_ascii. Qed.

Lemma is_digit_nl : is_digit nl = false.
Proof. by rewrite is_digit_ascii. Qed.

Lemma ci_eq_colon c : ci_eq c colon = bool_decide (c = colon).
Proof. by apply ci_eq_uncased_r. Qed.

Lemma item_colon_free_sound ic it :
  item_colon_free it = true → item_matches ic it colon = false.
Proof.
  destruct it as [c|lo hi| |]; simpl.
  - intros Hc%negb_true_iff. destruct ic; [by rewrite ci_eq_colon|done].
  - intros Hr%negb_true_iff. destruct ic; [|done].
    destruct (existsb _ _) eqn:He; [|done].
    apply existsb_exists in He as (c & Hc%list_elem_of_In & Heq).
    rewrite ci_eq_colon in Heq. apply bool_decide_eq_true_1 in Heq as ->.
    apply char_range_elem in Hc. apply andb_false_iff in Hr as [Hr|Hr];
      apply N.leb_gt in Hr; lia.
  - intros _. apply is_space_colon.
  - intros _. apply is_digit_colon.
Qed.

Lemma colon_free_sound ic r : ∀ w,
  colon_free r = true → lang ic r w → colon ∉ w.
Proof.
  induction r as [|a|its|r1 IH1 r2 IH2|r1 IH1 r2 IH2|r1 IH1 lo hi|n r1 IH1| | |its|r1 IH1];
    intros w; cbn [lang colon_free];
    try (intros _ ->; by intros ?%elem_of_nil).
  - intros Ha (x & -> & Hx) Hc%list_elem_of_singleton. subst x.
    by rewrite (item_colon_free_sound ic (CLit a)) in Hx.
  - intros Hits (x & -> & Hx) Hc%list_elem_of_singleton. subst x.
    unfold class_matches in Hx. apply existsb_exists in Hx as (it & Hit & Hm).
    rewrite forallb_forall in Hits.
    by rewrite (item_colon_free_sound ic it (Hits _ Hit)) in Hm.
  - intros [H1 H2]%andb_true_iff (a & b & -> & Ha & Hb) [?|?]%elem_of_app.
    + by eapply IH1.
    + by eapply IH2.
  - intros [H1 H2]%andb_true_iff [Hw|Hw]; eauto.
  - intros Hr (ws & -> & HF & _). induction HF as [|w ws Hw HF IH]; simpl.
    + by intros ?%elem_of_nil.
    + intros [?|?]%elem_of_app; [by eapply IH1|done].
  - eauto.
Qed.

Lemma date_patterns_stable : Forall (λ p, stable p = true) date_patterns.
Proof. repeat constructor. Qed.

Lemma date_patterns_colon_free :
  Forall (λ p, colon_free p = true) date_patterns.
Proof. repeat constructor. Qed.

Lemma dated_Some line :
  dated line = true ↔
  ∃ p m, p ∈ date_patterns ∧ search true p line = Some m.
Proof.
  unfold dated. rewrite existsb_exists. split.
  - intros (p & Hp%list_elem_of_In & [m Hm]%bool_decide_eq_true_1). eauto.
  - intros (p & m & Hp & Hm). exists p. split; [by apply list_elem_of_In|].
    apply bool_decide_eq_true_2. eauto.
Qed.

Lemma dated_nil : dated [] = false.
Proof.
  destruct (dated []) eqn:Hd; [|done].
  apply dated_Some in Hd as (p & m & Hp & Hm).
  pose proof (search_ok _ _ _ _ Hm) as Hok.
  pose proof date_patterns_need_digit as HF. rewrite Forall_forall in HF.
  destruct (needs_digit_sound true p _ (HF _ Hp) (ok_lang _ _ _ _ Hok))
    as (x & Hx & _).
  rewrite (ok_text _ _ _ _ Hok) in Hx. unfold slice in Hx.
  rewrite drop_nil, take_nil in Hx. by apply elem_of_nil in Hx.
Qed.

(** A dated line is still dated as a part of a longer line, if no digit
    comes next to it on the left and, on the right, either no digit comes
    next to it or it ends with a colon. *)
Lemma dated_lift (pre l post : str) :
  dated l = true →
  (∀ x, last pre = Some x → is_digit x = false) →
  ((∀ x, head post = Some x → is_digit x = false) ∨ last l = Some colon) →
  dated (pre ++ l ++ post) = true.
Proof.
  intros (p & m & Hp & Hm)%dated_Some Hpre Hpost.
  pose proof date_patterns_stable as Hst. rewrite Forall_forall in Hst.
  destruct (search_lift true p pre l post m (Hst _ Hp) Hpre Hm) as [m' Hm'].
  - destruct Hpost as [Hpost|Hlast]; [by right|left].
    pose proof (search_ok _ _ _ _ Hm) as Hok.
    pose proof (ok_end _ _ _ _ Hok) as Hend.
    destruct (decide (m_end m = length l)) as [Heq|]; [exfalso|lia].
    pose proof date_patterns_need_digit as HF. rewrite Forall_forall in HF.
    destruct (needs_digit_sound true p _ (HF _ Hp) (ok_lang _ _ _ _ Hok))
      as (x & Hx & _).
    pose proof date_patterns_colon_free as HC. rewrite Forall_forall in HC.
    apply (colon_free_sound true p _ (HC _ Hp) (ok_lang _ _ _ _ Hok)).
    rewrite (ok_text _ _ _ _ Hok) in Hx |- *. unfold slice in *.
    rewrite Heq in Hx |- *.
    rewrite take_ge in Hx |- * by (rewrite length_drop; lia).
    destruct (drop (m_start m) l) as [|y tl] eqn:Hd using rev_ind;
      [by apply elem_of_nil in Hx|].
    assert (last l = Some y) as Hy.
    { rewrite <- (take_drop (m_start m) l), Hd, app_assoc. apply last_snoc. }
    rewrite Hlast in Hy. injection Hy as <-. apply elem_of_app. right. left.
  - apply dated_Some. eauto.
Qed.

Lemma lstrip_decomp (s : str) :
  ∃ w, s = w ++ lstrip s ∧ Forall (λ x, is_space x = true) w
       ∧ ∀ x, head (lstrip s) = Some x → is_space x = false.
Proof.
  induction s as [|a s (w & Hs & Hw & Hh)]; simpl.
  { exists []. by split_and!. }
  destruct (is_space a) eqn:Ha.
  - exists (a :: w). split_and!; [simpl; by f_equal|by constructor|done].
  - exists []. split_and!; [done|constructor|]. by intros x [= <-].
Qed.

(** Stripping takes whitespace off the two ends and leaves none there. *)
Lemma strip_decomp (s : str) :
  ∃ w1 w2, s = w1 ++ strip s ++ w2
           ∧ Forall (λ x, is_space x = true) w1
           ∧ Forall (λ x, is_space x = true) w2
           ∧ ∀ x, last (strip s) = Some x → is_space x = false.
Proof.
  destruct (lstrip_decomp s) as (w1 & Hs & Hw1 & _).
  destruct (lstrip_decomp (reverse (lstrip s))) as (w & Hr & Hw & Hh).
  exists w1, (reverse w). unfold strip, rstrip. split_and!; [|done| |].
  - rewrite <- reverse_app, <- Hr, reverse_involutive. done.
  - by apply Forall_reverse.
  - intros x. rewrite last_reverse. apply Hh.
Qed.

End DatedLift.

(** * Further properties of the code

    ** Where the experience section is cut *)

Section Cuts.
Context `{Unicode}.

Lemma ci_eq_colon_l x : ci_eq colon x = bool_decide (colon = x).
Proof. by apply ci_eq_uncased. Qed.

Lemma ci_eq_nl_l x : ci_eq nl x = bool_decide (nl = x).
Proof. by apply ci_eq_uncased. Qed.

(** What [(?:\s*:|\s*\n)] matches ends with a colon or a newline. *)
Lemma header_right_lang w :
  lang true header_right w → ∃ w0 x, w = w0 ++ [x] ∧ (x = colon ∨ x = nl).
Proof.
  unfold header_right. cbn [alts lang].
  intros [(a & b & -> & _ & x & -> & Hx)|(a & b & -> & _ & x & -> & Hx)];
    exists a, x; (split; [done|]); simpl in Hx.
  - left. rewrite ci_eq_colon_l in Hx. by apply bool_decide_eq_true_1 in Hx.
  - right. rewrite ci_eq_nl_l in Hx. by apply bool_decide_eq_true_1 in Hx.
Qed.

Lemma slice_snoc (text : str) s e w0 x :
  slice text s e = w0 ++ [x] → e ≤ length text →
  1 ≤ e ∧ text !! (e - 1) = Some x.
Proof.
  intros Hs He.
  assert (length (slice text s e) = S (length w0)) as Hlen.
  { rewrite Hs, length_app. simpl. lia. }
  unfold slice in *. rewrite length_take, length_drop in Hlen.
  assert (take (e - s) (drop s text) !! length w0 = Some x) as Hx.
  { rewrite Hs. by apply list_lookup_middle. }
  rewrite lookup_take_lt, lookup_drop in Hx by lia.
  split; [lia|]. by replace (e - 1) with (s + length w0) by lia.
Qed.

(** A match of a header pattern ends after a colon or a newline. *)
Lemma header_match_end (A B : regex) text m :
  match_ok true (Seq A (Seq B header_right)) text m →
  cut_left text (m_end m).
Proof.
  intros Hok. pose proof (ok_lang _ _ _ _ Hok) as Hl. cbn [lang] in Hl.
  destruct Hl as (a & ? & Ha & _ & b & c & -> & _ & Hc).
  apply header_right_lang in Hc as (w0 & x & -> & Hx).
  rewrite (ok_text _ _ _ _ Hok), !app_assoc in Ha.
  apply slice_snoc in Ha as [H1 Hx']; [|apply Hok].
  split_and!; [done|apply Hok|]. by destruct Hx as [->| ->]; [left|right].
Qed.

(** A match of a header pattern starts at the start of the text or at a
    newline. *)
Lemma header_match_start (R : regex) text m :
  search true (Seq header_left R) text = Some m →
  m_start m = 0 ∨ text !! m_start m = Some nl.
Proof.
  intros Hs.
  apply (search_from_at true _ text text 0 None m) in Hs as [Hm Hk];
    [|done|lia].
  unfold match_at in Hm.
  destruct (matches true (Seq header_left R) (state_at text (m_start m)) [])
    as [|[s' c] ms] eqn:Hms; [done|]. clear Hm.
  assert ((s', c) ∈ matches true (Seq header_left R)
                      (state_at text (m_start m)) []) as Hin
    by (rewrite Hms; left).
  cbn [matches] in Hin.
  apply list_elem_of_In, in_flat_map in Hin as ([s1 c1] & Hl & _).
  apply list_elem_of_In in Hl. unfold header_left in Hl.
  cbn [alts matches] in Hl.
  assert (∀ f : mstate * list (nat * str) → list (mstate * list (nat * str)),
            (s1, c1) ∈ flat_map f
                 (step_char (item_matches true (CLit nl))
                    (state_at text (m_start m)) []) →
               text !! m_start m = Some nl) as Hnl.
  { intros f ([s2 c2] & Hstep & _)%list_elem_of_In%in_flat_map.
    apply list_elem_of_In, step_char_moved in Hstep as (x & Hx & (Hr & _) & _).
    simpl in Hx, Hr. rewrite ci_eq_nl_l in Hx.
    apply bool_decide_eq_true_1 in Hx as <-.
    pose proof (lookup_drop text (m_start m) 0) as E.
    rewrite Nat.add_0_r in E. rewrite <- E, Hr. reflexivity. }
  apply elem_of_app in Hl as [Hl|Hl].
  - left. simpl in Hl. destruct (m_start m); [done|by apply elem_of_nil in Hl].
  - right. apply elem_of_app in Hl as [Hl|Hl]; by eapply Hnl.
Qed.

Lemma last_take (text : str) a :
  1 ≤ a → a ≤ length text → last (take a text) = text !! (a - 1).
Proof.
  intros H1 Ha. rewrite last_lookup, length_take.
  replace (pred (a `min` length text)) with (a - 1) by lia.
  apply lookup_take_lt. lia.
Qed.

Lemma space_not_digit x : is_space x = true → is_digit x = false.
Proof.
  intros Hs. destruct (is_digit x) eqn:Hd; [|done].
  apply is_digit_not_space in Hd. congruence.
Qed.

(** The dated lines of a piece of the text that is cut as the experience
    section is, and then stripped, come from dated lines of the text. *)
Lemma piece_lines (text : str) a b l' :
  cut_left text a → cut_right text a b →
  l' ∈ split_on nl (strip (slice text a b)) → dated l' = true →
  ∃ l, l ∈ split_on nl text ∧ dated l = true.
Proof.
  intros (Ha1 & Ha & Hca) Hcb Hl' Hd.
  assert (l' ≠ []) as Hne by (intros ->; by rewrite dated_nil in Hd).
  destruct (strip_decomp (slice text a b)) as (w1 & w2 & HR & Hw1 & Hw2 & Hlast).
  set (S' := strip (slice text a b)) in *.
  set (Z := drop (b - a) (drop a text)).
  assert (text = (take a text ++ w1) ++ S' ++ (w2 ++ Z)) as Htext.
  { rewrite <- (take_drop a text) at 1. rewrite <- app_assoc. f_equal.
    rewrite <- (take_drop (b - a) (drop a text)). fold Z.
    fold (slice text a b). rewrite HR at 1. by rewrite <- !app_assoc. }
  destruct (line_of_piece (take a text ++ w1) S' (w2 ++ Z) l' Hl')
    as (pre & post & Hline & Hpre & Hpost).
  rewrite <- Htext in Hline.
  exists (pre ++ l' ++ post). split; [done|]. apply dated_lift; [done| |].
  - intros x Hx. destruct Hpre as [->|[Hpre _]]; [done|].
    rewrite Hpre, last_app in Hx. destruct (last w1) as [y|] eqn:Hy.
    + injection Hx as <-. apply space_not_digit.
      rewrite Forall_forall in Hw1. apply Hw1.
      apply last_Some in Hy as [w ->]. apply elem_of_app. right. left.
    + rewrite last_take in Hx by done.
      destruct Hca as [Hc|Hc]; rewrite Hc in Hx; injection Hx as <-.
      * apply is_digit_colon.
      * apply is_digit_nl.
  - destruct Hpost as [->|[Hpost [A HA]]]; [by left|].
    destruct w2 as [|y w2].
    + simpl in Hpost. rewrite app_nil_r in HR.
      assert (last S' = last l') as HlastS.
      { rewrite HA. destruct l' as [|z l' _] using rev_ind; [done|].
        by rewrite app_assoc, !last_snoc. }
      assert (S' ≠ []) as HS by (rewrite HA; by destruct A).
      destruct (decide (a < b)) as [Hab|Hab].
      2:{ exfalso. apply HS. unfold S', slice.
          by replace (b - a) with 0 by lia. }
      assert (Z = drop b text) as HZ.
      { unfold Z. rewrite drop_drop. f_equal. lia. }
      destruct Hcb as [?|[Hb|[Hb|Hb]]]; [lia| | |].
      * left. intros x Hx. rewrite Hpost, HZ, drop_ge in Hx by done. done.
      * left. intros x Hx. rewrite Hpost, HZ in Hx.
        pose proof (lookup_drop text b 0) as E. rewrite Nat.add_0_r in E.
        assert (head (drop b text) = Some nl) as Hh.
        { rewrite <- Hb, <- E. by destruct (drop b text). }
        rewrite Hh in Hx. injection Hx as <-. apply is_digit_nl.
      * right.
        assert (∃ c, text !! (b - 1) = Some c ∧ (c = colon ∨ c = nl))
          as (c & Hc & Hcn) by (destruct Hb; eauto).
        assert (b ≤ length text) as Hble.
        { apply lookup_lt_Some in Hc. lia. }
        assert (last (slice text a b) = Some c) as HlastR.
        { unfold slice. rewrite last_lookup, length_take, length_drop.
          replace (pred ((b - a) `min` (length text - a))) with (b - a - 1)
            by lia.
          rewrite lookup_take_lt, lookup_drop by lia.
          by replace (a + (b - a - 1)) with (b - 1) by lia. }
        rewrite HR, last_app in HlastR.
        destruct (last S') as [z|] eqn:Hz.
        -- injection HlastR as ->. rewrite <- HlastS.
           destruct Hcn as [->| ->]; [done|].
           pose proof is_space_nl as Hsp.
           first [rewrite (Hlast nl eq_refl) in Hsp|rewrite (Hlast nl Hz) in Hsp].
           done.
        -- destruct S' as [|? ? _] using rev_ind; [done|].
           by rewrite last_snoc in Hz.
    + left. intros x Hx. rewrite Hpost in Hx. injection Hx as <-.
      apply space_not_digit. by apply Forall_cons in Hw2 as [? _].
Qed.

(** Every offset of the segmenter comes after a colon or a newline. *)
Lemma section_offset_cut text (b : boundary) :
  b ∈ section_positions text → cut_left text b.1.1.
Proof.
  intros (kp & m & _ & _ & Hm & ->)%section_positions_elem.
  apply finditer_ok in Hm. unfold full_pattern in Hm. cbn [seqs] in Hm.
  by eapply header_match_end.
Qed.

(** The experience section is a stripped piece of the text, cut after a
    header on the left and at a header, or at the end, on the right. *)
Lemma experience_section_cut text section :
  experience_section text = Some section →
  ∃ a b, section = strip (slice text a b)
         ∧ cut_left text a ∧ cut_right text a b.
Proof.
  unfold experience_section.
  assert (identify_sections text !! u "experience" = Some section →
          ∃ a b, section = strip (slice text a b)
                 ∧ cut_left text a ∧ cut_right text a b) as Hfb.
  { unfold identify_sections.
    intros [Hacc|(i & p & t & Hi & ->)]%fill_sections_inv.
    { by rewrite lookup_empty in Hacc. }
    exists p, (next_offset text (section_positions text) i).
    split; [done|]. split.
    - apply (section_offset_cut text (p, u "experience", t)).
      by eapply list_elem_of_lookup_2.
    - unfold next_offset, cut_right.
      destruct (section_positions text !! S i) as [[[q k] v]|] eqn:Hq.
      + destruct (section_offset_cut text (q, k, v)) as (_ & _ & Hc).
        { by eapply list_elem_of_lookup_2. }
        simpl in Hc. tauto.
      + right. left. lia. }
  destruct (direct_section text) as [[|x s]|] eqn:Hd; [done| |done].
  intros [= <-]. unfold direct_section in Hd.
  destruct (search true experience_pattern text) as [em|] eqn:He; [|done].
  injection Hd as Hd.
  eexists (m_end em), _. split; [symmetry; exact Hd|]. split.
  - apply search_ok in He. unfold experience_pattern in He.
    cbn [seqs] in He. by eapply header_match_end.
  - destruct (search true education_pattern text) as [dm|] eqn:Hdm.
    + unfold education_pattern in Hdm. cbn [seqs] in Hdm.
      apply header_match_start in Hdm as [->|Hnl].
      * left. lia.
      * right. right. by left.
    + right. by left.
Qed.

End Cuts.

(** ** More on the work experiences *)

(** X1 — When no line of the text holds a date range, the function returns
    the empty list, whichever way the experience section is found: the lines
    of the section are pieces of lines of the text, cut where a date range
    cannot be cut. *)
Theorem no_dated_line_no_entries `{Unicode} (text : str) :
  (∀ line, line ∈ split_on nl text → dated line = false) →
  extract_work_experiences_v2 text = [].
Proof.
  intros Hno. unfold extract_work_experiences_v2.
  destruct (experience_section text) as [section|] eqn:Hsec; [|done].
  apply experience_section_cut in Hsec as (a & b & -> & Ha & Hb).
  assert (date_positions (split_on nl (strip (slice text a b))) = []) as ->;
    [|done].
  apply length_zero_iff_nil. unfold date_positions.
  rewrite date_positions_from_length.
  destruct (filter _ _) as [|l' ls] eqn:E; [done|exfalso].
  assert (l' ∈ l' :: ls) as Hin by left. rewrite <- E in Hin.
  apply list_elem_of_filter in Hin as [Hd Hin].
  destruct (piece_lines text a b l' Ha Hb Hin Hd) as (l & Hl & Hdl).
  rewrite (Hno l Hl) in Hdl. done.
Qed.

Lemma no_dated_line_no_entries_witness :
  extract_work_experiences_v2 (H:=latin1) cv_no_dates = [].
Proof.
  apply no_dated_line_no_entries. intros line Hin.
  assert (forallb (λ l, negb (dated (H:=latin1) l)) (split_on nl cv_no_dates)
          = true) as HF by (vm_compute; reflexivity).
  rewrite forallb_forall in HF. apply list_elem_of_In, HF in Hin.
  by apply negb_true_iff in Hin.
Defined.

(** C5 — When no line of the text is matched by a date pattern of the
    catalog, the function returns the empty list: a value like any other,
    and not an error. *)
Theorem no_anchor_empty_result `{Unicode} (text : str) :
  (∀ line pattern, line ∈ split_on nl text → pattern ∈ date_patterns →
                   search true pattern line = None) →
  extract_work_experiences_v2 text = [].
Proof.
  intros Hno.
  assert (∀ line, line ∈ split_on nl text → dated line = false) as Hnd.
  { intros line Hl. destruct (dated line) eqn:Hd; [|done].
    apply dated_Some in Hd as (p & m & Hp & Hm).
    rewrite (Hno line p Hl Hp) in Hm. done. }
  unfold extract_work_experiences_v2.
  destruct (experience_section text) as [section|] eqn:Hsec; [|done].
  apply experience_section_cut in Hsec as (a & b & -> & Ha & Hb).
  destruct (date_positions (split_on nl (strip (slice text a b))))
    as [|[i d] dps] eqn:E; [done|exfalso].
  assert ((i, d) ∈ date_positions (split_on nl (strip (slice text a b))))
    as Hin by (rewrite E; left).
  apply date_positions_from_elem in Hin as (l' & _ & Hl' & Hf).
  apply list_elem_of_lookup_2 in Hl'.
  assert (dated l' = true) as Hd by (apply first_date_dated; eauto).
  destruct (piece_lines text a b l' Ha Hb Hl' Hd) as (l & Hl & Hdl).
  rewrite (Hnd l Hl) in Hdl. done.
Qed.

Lemma no_anchor_empty_result_witness :
  extract_work_experiences_v2 (H:=latin1) cv_two_sections = [].
Proof.
  apply no_anchor_empty_result. intros line pattern Hl Hp.
  assert (forallb (λ l, forallb (λ p, bool_decide
                                        (search (H:=latin1) true p l = None))
                                date_patterns)
                  (split_on nl cv_two_sections) = true) as HF
    by (vm_compute; reflexivity).
  rewrite forallb_forall in HF. apply list_elem_of_In, HF in Hl.
  rewrite forallb_forall in Hl. apply list_elem_of_In, Hl in Hp.
  by apply bool_decide_eq_true_1 in Hp.
Defined.

(** ** Stripped strings *)

Section StripFacts.
Context `{Unicode}.

Lemma lstrip_id (s : str) :
  (∀ x, head s = Some x → is_space x = false) → lstrip s = s.
Proof.
  destruct s as [|x s]; simpl; [done|]. intros Hx. by rewrite (Hx x eq_refl).
Qed.

Lemma strip_prefix (s : str) : ∃ w, lstrip s = strip s ++ w.
Proof.
  destruct (lstrip_decomp (reverse (lstrip s))) as (w & Hr & _).
  exists (reverse w). unfold strip, rstrip.
  by rewrite <- reverse_app, <- Hr, reverse_involutive.
Qed.

Lemma strip_head (s : str) x : head (strip s) = Some x → is_space x = false.
Proof.
  destruct (strip_prefix s) as [w Hw].
  destruct (lstrip_decomp s) as (_ & _ & _ & Hh).
  intros Hx. apply Hh. rewrite Hw. by destruct (strip s).
Qed.

Lemma strip_last (s : str) x : last (strip s) = Some x → is_space x = false.
Proof. destruct (strip_decomp s) as (_ & _ & _ & _ & _ & Hl). apply Hl. Qed.

(** A string with no whitespace at its two ends is left as it is. *)
Lemma strip_id (s : str) :
  (∀ x, head s = Some x → is_space x = false) →
  (∀ x, last s = Some x → is_space x = false) →
  strip s = s.
Proof.
  intros Hh Hl. unfold strip, rstrip. rewrite (lstrip_id s Hh).
  rewrite lstrip_id; [apply reverse_involutive|].
  intros x. rewrite head_reverse. apply Hl.
Qed.

Lemma strip_strip (s : str) : strip (strip s) = strip s.
Proof. apply strip_id; [apply strip_head|apply strip_last]. Qed.

Lemma strip_Unknown : strip Unknown = Unknown.
Proof.
  apply strip_id; intros x [= <-]; by rewrite is_space_ascii.
Qed.

End StripFacts.

(** ** Texts without a header *)

Section NoHeader.
Context `{Unicode}.

Lemma no_cut (text : str) a : colon ∉ text → nl ∉ text → ¬ cut_left text a.
Proof.
  intros Hc Hn (_ & _ & [Hx|Hx]); apply list_elem_of_lookup_2 in Hx; done.
Qed.

Lemma section_positions_nil (text : str) :
  colon ∉ text → nl ∉ text → section_positions text = [].
Proof.
  intros Hc Hn. destruct (section_positions text) as [|b l] eqn:E; [done|].
  destruct (no_cut text b.1.1 Hc Hn). apply section_offset_cut.
  rewrite E. left.
Qed.

Lemma direct_section_None (text : str) :
  colon ∉ text → nl ∉ text → direct_section text = None.
Proof.
  intros Hc Hn. unfold direct_section.
  destruct (search true experience_pattern text) as [m|] eqn:Hs; [|done].
  destruct (no_cut text (m_end m) Hc Hn).
  apply search_ok in Hs. unfold experience_pattern in Hs. cbn [seqs] in Hs.
  by eapply header_match_end.
Qed.

Lemma extract_education_nil (text : str) :
  colon ∉ text → nl ∉ text → extract_education text = [].
Proof.
  intros Hc Hn. unfold extract_education, identify_sections.
  by rewrite section_positions_nil.
Qed.

End NoHeader.

(** X2 — A text that holds neither a colon nor a line break has no section
    header: the segmenter returns the empty mapping. *)
Theorem identify_sections_no_header `{Unicode} (text : str) :
  colon ∉ text → nl ∉ text → identify_sections text = ∅.
Proof.
  intros Hc Hn. unfold identify_sections.
  by rewrite section_positions_nil.
Qed.

Lemma identify_sections_no_header_witness :
  identify_sections (H:=latin1) cv_master = ∅.
Proof.
  apply identify_sections_no_header;
    apply (bool_decide_unpack _); vm_compute; reflexivity.
Defined.

(** X3 — On a text that holds neither a colon nor a line break the education
    extractor and the work-experience extractor find no section and return
    the empty list, whatever degrees or dates the text holds. *)
Theorem no_header_no_entries `{Unicode} (text : str) :
  colon ∉ text → nl ∉ text →
  extract_education text = [] ∧ extract_work_experiences_v2 text = [].
Proof.
  intros Hc Hn. split.
  - by apply extract_education_nil.
  - unfold extract_work_experiences_v2, experience_section, identify_sections.
    by rewrite direct_section_None, section_positions_nil.
Qed.

Lemma no_header_no_entries_witness :
  extract_education (H:=latin1) cv_master = []
  ∧ extract_work_experiences_v2 (H:=latin1) cv_master = [].
Proof.
  apply no_header_no_entries;
    apply (bool_decide_unpack _); vm_compute; reflexivity.
Defined.

(** X4 — Each body of the mapping is the text between the end of a header,
    which is a colon or a line break, and the end of a later header or of
    the text, with the whitespace at its two ends removed: stripping it
    again changes nothing. *)
Theorem identify_sections_bodies `{Unicode} (text k body : str) :
  identify_sections text !! k = Some body →
  strip body = body
  ∧ ∃ p q, body = strip (slice text p q) ∧ p ≤ q ≤ length text
           ∧ cut_left text p ∧ (q = length text ∨ cut_left text q).
Proof.
  unfold identify_sections.
  intros [Hacc|(i & p & t & Hi & ->)]%fill_sections_inv.
  { by rewrite lookup_empty in Hacc. }
  split; [apply strip_strip|].
  exists p, (next_offset text (section_positions text) i).
  split; [done|].
  assert (cut_left text p) as Hp.
  { apply (section_offset_cut text (p, k, t)). by eapply list_elem_of_lookup_2. }
  unfold next_offset.
  destruct (section_positions text !! S i) as [[[q l] v]|] eqn:Hq.
  - assert (cut_left text q) as Hcq.
    { apply (section_offset_cut text (q, l, v)).
      by eapply list_elem_of_lookup_2. }
    split_and!; [|apply Hcq|done|by right].
    apply (StronglySorted_lookup_lt _ _ i (S i) (p, k, t) (q, l, v)
             (section_positions_sorted text)); [done|done|lia].
  - split_and!; [apply Hp|done|done|by left].
Qed.

Lemma identify_sections_bodies_witness :
  strip (H:=latin1) (text_of ["foo"; "Education"]%string)
  = text_of ["foo"; "Education"]%string.
Proof.
  apply (proj1 (identify_sections_bodies (H:=latin1) cv_two_sections
                  (u "experience") (text_of ["foo"; "Education"]%string)
                  ltac:(vm_compute; reflexivity))).
Defined.

(** ** The fields of an entry *)

Section JobFacts.
Context `{Unicode}.

Lemma find_company_stripped lines job_lines start_idx :
  strip (find_company lines job_lines start_idx)
  = find_company lines job_lines start_idx.
Proof.
  unfold find_company.
  repeat match goal with
         | |- context [if ?b then _ else _] => destruct b
         | |- context [match ?o with Some _ => _ | None => _ end] =>
             destruct o as [[? ?]|]
         end; auto using strip_strip, strip_Unknown.
Qed.

Lemma title_candidates_stripped lines job_lines start_idx company date_text :
  Forall (λ candidate, strip candidate = candidate)
         (title_candidates lines job_lines start_idx company date_text).
Proof.
  unfold title_candidates.
  repeat match goal with
         | |- context [if ?b then _ else _] => destruct b
         | |- context [match ?o with Some _ => _ | None => _ end] =>
             destruct o as [[? ?]|]
         end; simpl; repeat constructor; apply strip_strip.
Qed.

Lemma find_title_stripped lines job_lines start_idx company date_text :
  strip (find_title lines job_lines start_idx company date_text)
  = find_title lines job_lines start_idx company date_text.
Proof.
  unfold find_title. destruct (0 <? start_idx); [|apply strip_Unknown].
  pose proof (title_candidates_stripped lines job_lines start_idx company
                date_text) as HF.
  rewrite Forall_forall in HF.
  set (candidates := title_candidates _ _ _ _ _) in *.
  destruct (list_find _ candidates) as [[i c]|] eqn:Hf.
  - apply list_find_Some in Hf as (Hi & _ & _).
    apply list_elem_of_lookup_2 in Hi.
    destruct (bool_decide (c = Unknown)); [|by apply HF].
    destruct candidates as [|c0 cs]; [by apply elem_of_nil in Hi|].
    apply HF. left.
  - rewrite bool_decide_eq_true_2 by done.
    destruct candidates as [|c0 cs]; [apply strip_Unknown|]. apply HF. left.
Qed.

Lemma make_jobs_make_job lines j : ∀ dps,
  j ∈ make_jobs lines dps →
  ∃ start_idx end_idx date_text,
    j = make_job lines start_idx end_idx date_text.
Proof.
  induction dps as [|[i d] dps IH]; simpl; [by intros ?%elem_of_nil|].
  intros [->|Hin]%elem_of_cons; eauto.
Qed.

End JobFacts.

(** X5 — The company, the title and the description of every entry carry no
    whitespace at their ends: each is a stripped line, the stripped join of
    lines, or the placeholder. *)
Theorem job_fields_stripped `{Unicode} (text : str) (j : job) :
  j ∈ extract_work_experiences_v2 text →
  strip (company j) = company j ∧ strip (title j) = title j
  ∧ strip (description j) = description j.
Proof.
  unfold extract_work_experiences_v2.
  destruct (experience_section text) as [section|]; [|by intros ?%elem_of_nil].
  rewrite sort_by_perm.
  intros (s & e & d & ->)%make_jobs_make_job. unfold make_job. simpl.
  split_and!;
    [apply find_company_stripped|apply find_title_stripped|apply strip_strip].
Qed.

Lemma job_fields_stripped_witness :
  strip (H:=latin1) (u "Acme Corp") = u "Acme Corp".
Proof.
  apply (proj1 (proj2 (job_fields_stripped (H:=latin1) cv_jane_headed
     (Job (u "Senior Engineer") (u "Acme Corp") (u "January 2019 - Present")
          (text_of ["January 2019 - Present"; "Built systems."; "";
                    "Beta Inc"; "Analyst"]%string))
     ltac:(vm_compute; left)))).
Defined.

(** ** The order of the entries *)

Section StableSort.
Context {A : Type} (key : A → nat).

(** Sorting in non-increasing order of a key moves no element past one of
    the same key. *)
Lemma filter_insert_sorted (k : nat) x l :
  filter (λ a, key a = k) (insert_sorted (λ a b, key b <=? key a) x l)
  = filter (λ a, key a = k) (x :: l).
Proof.
  induction l as [|y l IH]; simpl; [done|].
  destruct (key y <=? key x) eqn:Hxy; [done|].
  apply Nat.leb_gt in Hxy.
  rewrite (filter_cons _ y), IH, !(filter_cons _ x), (filter_cons _ y).
  destruct (decide (key x = k)), (decide (key y = k)); try done. lia.
Qed.

Lemma filter_sort_by (k : nat) l :
  filter (λ a, key a = k) (sort_by (λ a b, key b <=? key a) l)
  = filter (λ a, key a = k) l.
Proof.
  induction l as [|x l IH]; simpl; [done|].
  fold (sort_by (λ a b, key b <=? key a) l).
  by rewrite filter_insert_sorted, !filter_cons, IH.
Qed.

Lemma sort_by_key_sorted l :
  Sorted (λ a b, key b ≤ key a) (sort_by (λ a b, key b <=? key a) l).
Proof.
  eapply Sorted_weaken; [|apply (sort_by_sorted (λ a b, key b <=? key a))].
  - intros a b. apply Nat.leb_le.
  - intros a b. rewrite Nat.leb_gt, Nat.leb_le. lia.
Qed.

End StableSort.

(** X6 — The entries are the ones built from the dated lines, put in
    non-increasing order of the key that [extract_year] gives to their
    dates; entries of equal key keep the order of their lines. *)
Theorem entries_sorted_by_key `{Unicode} (text section : str) :
  experience_section text = Some section →
  let lines := split_on nl section in
  let built := make_jobs lines (date_positions lines) in
  let jobs := extract_work_experiences_v2 text in
  jobs ≡ₚ built
  ∧ Sorted (λ a b, extract_year (date b) ≤ extract_year (date a)) jobs
  ∧ ∀ k, filter (λ j, extract_year (date j) = k) jobs
         = filter (λ j, extract_year (date j) = k) built.
Proof.
  intros Hsec lines built jobs. unfold jobs, extract_work_experiences_v2.
  rewrite Hsec. fold lines. fold built. split_and!.
  - apply sort_by_perm.
  - apply (sort_by_key_sorted (λ j, extract_year (date j))).
  - intros k. apply (filter_sort_by (λ j, extract_year (date j))).
Qed.

Lemma entries_sorted_by_key_witness :
  filter (λ j, extract_year (H:=latin1) (date j) = 20)
         (extract_work_experiences_v2 (H:=latin1) cv_two_dates)
  = filter (λ j, extract_year (H:=latin1) (date j) = 20)
           (make_jobs (H:=latin1)
              (u <$> ["Acme"; "2015 - 2016"; "Beta"; "2019 - 2020"]%string)
              [(1, u "2015 - 2016"); (3, u "2019 - 2020")]).
Proof.
  apply (proj2 (proj2 (entries_sorted_by_key (H:=latin1) cv_two_dates
     (text_of ["Acme"; "2015 - 2016"; "Beta"; "2019 - 2020"]%string)
     ltac:(vm_compute; reflexivity))) 20).
Defined.

(** ** What the groups hold *)

Section GroupFacts.
Context `{Unicode}.

Lemma rep_loop_caps (Q : nat * str → Prop) body :
  (∀ s c s' c', (s', c') ∈ body s c → ∃ new, c' = new ++ c ∧ Forall Q new) →
  ∀ fuel lo hi s c s' c',
    (s', c') ∈ rep_loop body fuel lo hi s c →
    ∃ new, c' = new ++ c ∧ Forall Q new.
Proof.
  intros Hbody. induction fuel as [|fuel IH]; intros lo hi s c s' c'; simpl.
  { by intros ?%elem_of_nil. }
  intros [Hgo|Hstop]%elem_of_app.
  - assert ((s', c') ∈ flat_map
             (λ sc, if pos s <? pos sc.1
                    then rep_loop body fuel (pred lo) (pred <$> hi) sc.1 sc.2
                    else []) (body s c)) as Hin.
    { destruct hi as [[|h]|]; [by apply elem_of_nil in Hgo|done|done]. }
    clear Hgo. apply list_elem_of_In, in_flat_map in Hin as ([s1 c1] & Hb & Hin).
    apply list_elem_of_In in Hb, Hin. simpl in Hin.
    destruct (pos s <? pos s1); [|by apply elem_of_nil in Hin].
    destruct (Hbody _ _ _ _ Hb) as (new1 & -> & HQ1).
    destruct (IH _ _ _ _ _ _ Hin) as (new2 & -> & HQ2).
    exists (new2 ++ new1). split; [by rewrite app_assoc|].
    by apply Forall_app.
  - destruct lo; [|by apply elem_of_nil in Hstop].
    apply list_elem_of_singleton in Hstop. injection Hstop as -> ->.
    by exists [].
Qed.

Lemma captured_weaken ic (r r' : regex) p :
  (∀ g, g ∈ groups r → g ∈ groups r') → captured ic r p → captured ic r' p.
Proof. intros Hsub (sub & Hin & Hl). exists sub. auto. Qed.

(** A group holds the text that its pattern consumed. *)
Lemma matches_caps ic r : ∀ s c s' c',
  (s', c') ∈ matches ic r s c →
  ∃ new, c' = new ++ c ∧ Forall (captured ic r) new.
Proof.
  induction r as [|a|its|r1 IH1 r2 IH2|r1 IH1 r2 IH2|r1 IH1 lo hi|n r1 IH1| | |its|r1 IH1];
    intros s c s' c'; cbn [matches].
  - intros Hin%list_elem_of_singleton. injection Hin as -> ->. by exists [].
  - intros (x & _ & _ & ->)%step_char_moved. by exists [].
  - intros (x & _ & _ & ->)%step_char_moved. by exists [].
  - intros ([s1 c1] & Hb & Hin)%list_elem_of_In%in_flat_map.
    apply list_elem_of_In in Hb, Hin. simpl in Hin.
    destruct (IH1 _ _ _ _ Hb) as (new1 & -> & HQ1).
    destruct (IH2 _ _ _ _ Hin) as (new2 & -> & HQ2).
    exists (new2 ++ new1). split; [by rewrite app_assoc|].
    apply Forall_app. split; eapply Forall_impl; try done; intros p;
      apply captured_weaken; intros g Hg; cbn [groups]; apply elem_of_app; auto.
  - intros [Hin|Hin]%elem_of_app.
    + destruct (IH1 _ _ _ _ Hin) as (new & -> & HQ). exists new. split; [done|].
      eapply Forall_impl; [done|]. intros p. apply captured_weaken.
      intros g Hg. cbn [groups]. apply elem_of_app. auto.
    + destruct (IH2 _ _ _ _ Hin) as (new & -> & HQ). exists new. split; [done|].
      eapply Forall_impl; [done|]. intros p. apply captured_weaken.
      intros g Hg. cbn [groups]. apply elem_of_app. auto.
  - intros Hin. by apply (rep_loop_caps (captured ic r1) _ IH1) in Hin.
  - intros ([s1 c1] & Heq & Hin)%list_elem_of_fmap. injection Heq as -> ->.
    simpl. destruct (IH1 _ _ _ _ Hin) as (new & -> & HQ).
    exists ((n, take (pos s1 - pos s) (rest s)) :: new). split; [done|].
    constructor.
    + exists r1. split; [left|]. simpl.
      apply matches_sound in Hin as (seg & (Hr & Hp & _) & Hl).
      rewrite Hr, Hp. replace (pos s + length seg - pos s) with (length seg) by lia.
      by rewrite take_app_length.
    + eapply Forall_impl; [done|]. intros p. apply captured_weaken.
      intros g Hg. by right.
  - destruct (pos s); [|by intros ?%elem_of_nil].
    intros Hin%list_elem_of_singleton. injection Hin as -> ->. by exists [].
  - destruct (xorb _ _); [|by intros ?%elem_of_nil].
    intros Hin%list_elem_of_singleton. injection Hin as -> ->. by exists [].
  - destruct (prev s) as [x|]; [destruct (class_matches ic its x)|];
      try (by intros ?%elem_of_nil);
      intros Hin%list_elem_of_singleton; injection Hin as -> ->; by exists [].
  - destruct (matches ic r1 s c); [|by intros ?%elem_of_nil].
    intros Hin%list_elem_of_singleton. injection Hin as -> ->. by exists [].
Qed.

(** A pattern that starts with a group: the group takes part in every
    match. *)
Lemma matches_seq_grp ic n (A R : regex) s s' c' :
  groups A = [] →
  (s', c') ∈ matches ic (Seq (Grp n A) R) s [] →
  ∃ g new, c' = new ++ [(n, g)] ∧ lang ic A g
           ∧ Forall (captured ic R) new.
Proof.
  intros HA. cbn [matches].
  intros ([s1 c1] & Hb & Hin)%list_elem_of_In%in_flat_map.
  apply list_elem_of_In in Hb, Hin. simpl in Hin.
  destruct (matches_caps ic (Grp n A) _ _ _ _ Hb) as (new1 & Hc1 & HQ1).
  rewrite app_nil_r in Hc1. subst c1.
  destruct (matches_caps ic R _ _ _ _ Hin) as (new & -> & HQ).
  cbn [matches] in Hb.
  apply list_elem_of_fmap in Hb as ([s0 c0] & Heq & Hin0). injection Heq as -> ->.
  destruct (matches_caps ic A _ _ _ _ Hin0) as (new0 & Hc0 & HQ0).
  rewrite app_nil_r in Hc0. subst c0.
  assert (new0 = []) as ->.
  { destruct new0 as [|p ?]; [done|]. apply Forall_cons in HQ0 as [(sub & Hin' & _) _].
    rewrite HA in Hin'. by apply elem_of_nil in Hin'. }
  simpl. eexists _, new. split; [done|]. split; [|done].
  apply matches_sound in Hin0 as (seg & (Hr & Hp & _) & Hl).
  rewrite Hr, Hp. replace (pos s + length seg - pos s) with (length seg) by lia.
  by rewrite take_app_length.
Qed.

Lemma group_found n m new g tl :
  m_caps m = new ++ (n, g) :: tl → Forall (λ p, p.1 ≠ n) new →
  group n m = g.
Proof.
  unfold group. intros -> HF. induction HF as [|p new Hp HF IH]; simpl.
  - by rewrite decide_True.
  - rewrite decide_False by done.
    destruct (list_find _ (new ++ (n, g) :: tl)) as [[i [k t]]|]; simpl in *; done.
Qed.

(** Each match that [finditer] gives is the first way the pattern matches
    at the place where it starts. *)
Lemma finditer_from_at ic r text : ∀ fuel k m,
  k ≤ length text →
  m ∈ finditer_from fuel ic r (state_at text k) →
  match_at ic r (state_at text (m_start m)) = Some m.
Proof.
  induction fuel as [|fuel IH]; intros k m Hk; simpl; [by intros ?%elem_of_nil|].
  destruct (search_from ic r k (last (take k text)) (drop k text)) as [m0|] eqn:Hs;
    [|by intros ?%elem_of_nil].
  pose proof (search_from_ok ic r text _ _ _ _ eq_refl Hk Hs) as [Hok Hle].
  intros [->|Hin]%elem_of_cons.
  { by apply (search_from_at ic r text) in Hs as [? _]. }
  destruct (m_start m0 <? m_end m0).
  - rewrite (ok_after _ _ _ _ Hok) in Hin. apply IH in Hin; [done|apply Hok].
  - destruct (rest (m_after m0)) as [|x rs] eqn:Hr; [by apply elem_of_nil in Hin|].
    pose proof (ok_after _ _ _ _ Hok) as Ha.
    destruct (m_after m0) as [p v r0] eqn:Hm. simpl in Hr. subst r0.
    assert (p = m_end m0) as -> by (by injection Ha).
    apply state_at_step in Ha as [Ha Hlen]. rewrite Ha in Hin.
    by apply IH in Hin.
Qed.

Lemma finditer_at ic r text m :
  m ∈ finditer ic r text →
  ∃ s', (s', m_caps m) ∈ matches ic r (state_at text (m_start m)) [].
Proof.
  intros Hin. apply (finditer_from_at ic r text _ 0) in Hin; [|lia].
  unfold match_at in Hin.
  destruct (matches ic r (state_at text (m_start m)) []) as [|[s' c] l];
    [done|].
  injection Hin as <-. simpl. exists s'. left.
Qed.

End GroupFacts.

(** ** The sort key and the date of an education entry *)

Section YearFacts.
Context `{Unicode}.

Lemma lang_lit_exact (w x : str) : lang false (lit w) x → x = w.
Proof.
  revert x. induction w as [|a w IH]; intros x; [done|].
  destruct w as [|b w].
  - simpl. intros (y & -> & Hy). by apply bool_decide_eq_true_1 in Hy as ->.
  - change (lit (a :: b :: w)) with (Seq (Chr a) (lit (b :: w))).
    cbn [lang]. intros (x1 & x2 & -> & (y & -> & Hy) & Hx2).
    simpl in Hy. apply bool_decide_eq_true_1 in Hy as ->.
    by rewrite (IH _ Hx2).
Qed.

Lemma century_lang (g : str) :
  lang false (alts [word "19"; word "20"]) g → g = u "19" ∨ g = u "20".
Proof.
  cbn [alts lang]. intros [Hg|Hg]; apply lang_lit_exact in Hg; auto.
Qed.

Lemma captured_nil ic (r : regex) new :
  groups r = [] → Forall (captured ic r) new → new = [].
Proof.
  intros Hr HF. destruct new as [|p ?]; [done|].
  apply Forall_cons in HF as [(sub & Hin & _) _].
  rewrite Hr in Hin. by apply elem_of_nil in Hin.
Qed.

(** What [re.findall] gives for the pattern of [extract_year]: the
    century. *)
Lemma year_group text m :
  m ∈ finditer false year_pattern text →
  group 1 m = u "19" ∨ group 1 m = u "20".
Proof.
  intros (s' & Hin)%finditer_at. unfold year_pattern in Hin.
  apply matches_seq_grp in Hin as (g & new & Hc & Hl & HF); [|done].
  apply captured_nil in HF as ->; [|done].
  rewrite (group_found 1 m [] g [] Hc) by constructor.
  by apply century_lang.
Qed.

Lemma education_dates_group text m :
  m ∈ finditer false education_dates text →
  group 1 m = u "19" ∨ group 1 m = u "20".
Proof.
  intros (s' & Hin)%finditer_at. unfold education_dates in Hin.
  cbn [seqs] in Hin.
  apply matches_seq_grp in Hin as (g & new & Hc & Hl & HF); [|done].
  rewrite (group_found 1 m new g [] Hc).
  - by apply century_lang.
  - eapply Forall_impl; [exact HF|]. intros [n t] (sub & Hin & _). simpl in *.
    assert (Forall (λ g : nat * regex, g.1 ≠ 1)
              (groups (Seq (times 2 digit)
                 (Seq range_sep
                    (Grp 2 (alts [century_year;
                       Seq (either "P" "p") (word "resent");
                       Seq (either "C" "c") (word "urrent");
                       Seq (either "A" "a") (word "ctual")])))))) as HG
      by (repeat constructor; done).
    rewrite Forall_forall in HG. apply (HG _ Hin).
Qed.

Lemma max_century (l : list nat) :
  Forall (λ y, y = 19 ∨ y = 20) l →
  foldr max 0 l = 0 ∨ foldr max 0 l = 19 ∨ foldr max 0 l = 20.
Proof. induction 1 as [|y l Hy HF IH]; simpl; lia. Qed.

End YearFacts.

(** X7 — The sort key of a date is 0, 19 or 20: [re.findall] gives the text
    of the group of the pattern, the century, and not the year. *)
Theorem extract_year_century `{Unicode} (date_str : str) :
  extract_year date_str = 0 ∨ extract_year date_str = 19
  ∨ extract_year date_str = 20.
Proof.
  unfold extract_year. destruct (_ || _); [by left|].
  destruct (group 1 <$> finditer false year_pattern date_str) as [|y ys] eqn:E;
    [by left|].
  rewrite <- E. apply max_century. apply Forall_fmap, Forall_fmap, Forall_forall.
  intros m Hm. simpl. apply year_group in Hm as [-> | ->]; [by left|by right].
Qed.

(** X8 — The date of an education entry is the placeholder or starts with
    the century of the first year, [19-] or [20-]: the groups of the pattern
    are joined, and the first group holds two digits only. *)
Theorem education_date_shape `{Unicode} (text : str) (e : education_entry) :
  e ∈ extract_education text →
  edu_date e = u "Unknown Date"
  ∨ ∃ rest, edu_date e = u "19-" ++ rest ∨ edu_date e = u "20-" ++ rest.
Proof.
  unfold extract_education.
  destruct (identify_sections text !! u "education") as [[|x s]|];
    try (by intros ?%elem_of_nil).
  intros (paragraph & _ & Hin%list_elem_of_In)%list_elem_of_In%in_flat_map.
  unfold education_of in Hin.
  destruct (strip paragraph); [by apply elem_of_nil in Hin|].
  destruct (_ || _); [|by apply elem_of_nil in Hin].
  apply list_elem_of_singleton in Hin as ->. simpl.
  destruct (finditer false education_dates paragraph) as [|m ms] eqn:E;
    [by left|].
  right. exists (group 2 m).
  destruct (education_dates_group paragraph m) as [-> | ->];
    [rewrite E; left|by left|by right].
Qed.

Lemma education_date_shape_witness :
  ∃ rest, u "20-2017" = u "19-" ++ rest ∨ u "20-2017" = u "20-" ++ rest.
Proof.
  destruct (education_date_shape (H:=latin1) cv_master_headed
              (Education (u "Master of Science") (u "Tech University")
                         (u "20-2017"))
              ltac:(vm_compute; left)) as [Hd|Hd].
  - vm_compute in Hd. discriminate Hd.
  - exact Hd.
Defined.

(** ** The contact extractors *)

Section ContactFacts.
Context `{Unicode}.

Lemma finditer_head ic r text :
  head (finditer ic r text) = search ic r text.
Proof.
  unfold finditer, search. simpl.
  by destruct (search_from ic r 0 None text).
Qed.

Lemma findall_head ic r text :
  head (findall ic r text) = m_text <$> search ic r text.
Proof.
  unfold findall. rewrite <- finditer_head.
  by destruct (finditer ic r text).
Qed.

(** What the first text found is: a piece of the text that the pattern can
    match. *)
Lemma findall_head_Some ic r text found :
  head (findall ic r text) = Some found →
  ∃ a b, a ≤ b ≤ length text ∧ found = slice text a b ∧ lang ic r found.
Proof.
  rewrite findall_head.
  destruct (search ic r text) as [m|] eqn:Hs; [|done]. intros [= <-].
  apply search_ok in Hs. exists (m_start m), (m_end m).
  split_and!; apply Hs.
Qed.

Lemma first_found_Some ic text found : ∀ patterns,
  first_found ic patterns text = Some found →
  ∃ pattern, pattern ∈ patterns ∧ head (findall ic pattern text) = Some found.
Proof.
  induction patterns as [|p patterns IH]; simpl; [done|].
  destruct (findall ic p text) as [|x xs] eqn:E.
  - intros (q & ? & ?)%IH. exists q. split; [by right|done].
  - intros [= <-]. exists p. split; [left|]. by rewrite E.
Qed.

Lemma first_found_None ic text : ∀ patterns,
  (∀ pattern, pattern ∈ patterns → search ic pattern text = None) →
  first_found ic patterns text = None.
Proof.
  induction patterns as [|p patterns IH]; simpl; [done|]. intros Hall.
  pose proof (findall_head ic p text) as Hh.
  rewrite (Hall p) in Hh by left.
  destruct (findall ic p text); [|done]. apply IH. intros q Hq.
  apply Hall. by right.
Qed.

Lemma needs_sound ic (ok : citem → bool) (P : char → Prop) r :
  (∀ it x, ok it = true → item_matches ic it x = true → P x) →
  ∀ w, needs ok r = true → lang ic r w → ∃ x, x ∈ w ∧ P x.
Proof.
  intros Hok.
  induction r as [|a|its|r1 IH1 r2 IH2|r1 IH1 r2 IH2|r1 IH1 lo hi|n r1 IH1| | |its|r1 IH1];
    intros w; cbn [lang needs]; try done.
  - intros Ha (x & -> & Hx). exists x. split; [left|]. by eapply Hok.
  - intros Hd (x & -> & Hx). exists x. split; [left|].
    unfold class_matches in Hx.
    apply existsb_exists in Hx as (it & Hit & Hm).
    rewrite forallb_forall in Hd. apply (Hok it); [by apply Hd|done].
  - intros [Hd|Hd]%orb_true_iff (a & b & -> & Ha & Hb).
    + destruct (IH1 _ Hd Ha) as (x & ? & ?). exists x. split; [|done].
      apply elem_of_app. by left.
    + destruct (IH2 _ Hd Hb) as (x & ? & ?). exists x. split; [|done].
      apply elem_of_app. by right.
  - intros [Hd1 Hd2]%andb_true_iff [Hw|Hw]; eauto.
  - intros [Hlo Hd]%andb_true_iff (ws & -> & HF & Hlen & _).
    apply Nat.ltb_lt in Hlo. destruct HF as [|w ws Hw HF]; [simpl in Hlen; lia|].
    destruct (IH1 _ Hd Hw) as (x & ? & ?). exists x. split; [|done].
    simpl. apply elem_of_app. by left.
  - eauto.
Qed.

(** A pattern that needs a character which the text does not hold is not
    found in it. *)
Lemma needs_search_None ic (ok : citem → bool) (P : char → Prop) r text :
  (∀ it x, ok it = true → item_matches ic it x = true → P x) →
  needs ok r = true → (∀ x, x ∈ text → ¬ P x) → search ic r text = None.
Proof.
  intros Hok Hr Htext. destruct (search ic r text) as [m|] eqn:Hs; [|done].
  apply search_ok in Hs.
  destruct (needs_sound ic ok P r Hok _ Hr (ok_lang _ _ _ _ Hs)) as (x & Hx & HP).
  destruct (Htext x); [|done]. rewrite (ok_text _ _ _ _ Hs) in Hx.
  unfold slice in Hx. by apply subseteq_take, subseteq_drop in Hx.
Qed.

Lemma is_lit_exact a it x :
  is_lit a it = true → item_matches false it x = true → x = a.
Proof.
  destruct it as [c| | |]; try done. simpl.
  by intros <-%bool_decide_eq_true_1 <-%bool_decide_eq_true_1.
Qed.

Lemma is_lit_uncased a it x :
  (a < 128)%N → ascii_letter a = false →
  is_lit a it = true → item_matches true it x = true → x = a.
Proof.
  intros Ha Hl. destruct it as [c| | |]; try done. simpl.
  intros <-%bool_decide_eq_true_1. rewrite ci_eq_uncased by done.
  by intros <-%bool_decide_eq_true_1.
Qed.

Lemma upper_item_sound it x :
  upper_item it = true → item_matches false it x = true →
  ascii_upper x = true.
Proof.
  destruct it as [c|lo hi| |]; try done; simpl.
  - by intros Hc <-%bool_decide_eq_true_1.
  - unfold ascii_upper.
    rewrite !andb_true_iff, !N.leb_le. lia.
Qed.

Lemma lang_rep_cls ic its lo hi w :
  lang ic (Rep (Cls its) lo hi) w →
  lo ≤ length w ∧ Forall (λ x, class_matches ic its x = true) w.
Proof.
  cbn [lang]. intros (ws & -> & HF & Hlo & _). revert lo Hlo.
  induction HF as [|w ws (x & -> & Hx) HF IH]; intros lo Hlo; simpl in *.
  - split; [lia|constructor].
  - destruct (IH (pred lo)) as [? ?]; [lia|]. split; [lia|by constructor].
Qed.

Lemma slice_elem (text : str) a b x : x ∈ slice text a b → x ∈ text.
Proof. unfold slice. by intros ?%subseteq_take%subseteq_drop. Qed.

Lemma letters_class x :
  class_matches false [az; AZ] x = true → ascii_letter x = true.
Proof.
  unfold class_matches, ascii_letter, ascii_upper, ascii_lower. simpl.
  rewrite orb_false_r, orb_comm. done.
Qed.

Lemma phone_patterns_digits :
  Forall (λ p, needs_digit p = true ∧ 7 ≤ min_len p) phone_patterns.
Proof. repeat constructor; vm_compute; lia. Qed.

(** A match of a pattern that starts with a literal character is, one
    character further on, a match of what follows the character. *)
Lemma matches_skip ic a (R T : regex) s c s' c' :
  (s', c') ∈ matches ic (Seq (Seq (Chr a) R) T) s c →
  ∃ x s1, moved s [x] s1 ∧ (s', c') ∈ matches ic (Seq R T) s1 c.
Proof.
  cbn [matches].
  intros ([s2 c2] & ([s1 c1] & Hstep & H2)%in_flat_map & HT)%list_elem_of_In%in_flat_map.
  apply list_elem_of_In, step_char_moved in Hstep as (x & _ & Hm & ->).
  exists x, s1. split; [done|]. apply list_elem_of_In, in_flat_map.
  by exists (s2, c2).
Qed.

Lemma match_at_is_Some ic r s :
  is_Some (match_at ic r s) ↔ ∃ sc, sc ∈ matches ic r s [].
Proof.
  unfold match_at. destruct (matches ic r s []) as [|[s' c] l].
  - split; [by intros [? ?]|]. by intros [? ?%elem_of_nil].
  - split; [|by eauto]. intros _. eexists. left.
Qed.

Lemma moved_one text k x s1 :
  k ≤ length text → moved (state_at text k) [x] s1 →
  s1 = state_at text (S k) ∧ S k ≤ length text.
Proof.
  intros Hk Hm. apply moved_state_at in Hm as [(-> & _ & Hle)|?]; [|lia].
  simpl in *. rewrite Nat.add_1_r. split; [done|lia].
Qed.

(** If a pattern written with [www.] before another one is found, the other
    one is found too. *)
Lemma www_found (site : string) (T : regex) text :
  is_Some (search true (Seq (word ("www." ++ site)) T) text) →
  is_Some (search true (Seq (word site) T) text).
Proof.
  intros [m Hs].
  apply (search_from_at true _ text text 0 None m) in Hs as [Hm Hk];
    [|done|lia].
  assert (is_Some (match_at true (Seq (word ("www." ++ site)) T)
                     (state_at text (m_start m)))) as Hsome by eauto.
  apply match_at_is_Some in Hsome as [[s' c'] Hin].
  change (word ("www." ++ site))
    with (lit (119 :: 119 :: 119 :: 46 :: u site)%N) in Hin.
  destruct (u site) as [|y l] eqn:Hsite.
  - apply matches_skip in Hin as (x1 & s1 & Hm1 & Hin).
    apply moved_one in Hm1 as [-> Hk1]; [|done].
    apply matches_skip in Hin as (x2 & s2 & Hm2 & Hin).
    apply moved_one in Hm2 as [-> Hk2]; [|done].
    apply matches_skip in Hin as (x3 & s3 & Hm3 & Hin).
    apply moved_one in Hm3 as [-> Hk3]; [|done].
    cbn [lit matches] in Hin.
    apply list_elem_of_In, in_flat_map in Hin as ([s4 c4] & Hstep & Hin).
    apply list_elem_of_In, step_char_moved in Hstep as (x4 & _ & Hm4 & ->).
    apply moved_one in Hm4 as [-> Hk4]; [|done]. simpl in Hin.
    apply (search_from_complete true _ text (S (S (S (S (m_start m)))))
             text 0 None); [done|lia|done|].
    apply match_at_is_Some. exists (s', c'). unfold word. rewrite Hsite.
    cbn [lit matches]. apply list_elem_of_In, in_flat_map.
    exists (state_at text (S (S (S (S (m_start m))))), []).
    split; [left; done|done].
  - change (lit (119 :: 119 :: 119 :: 46 :: y :: l)%N)
      with (Seq (Chr 119%N) (Seq (Chr 119%N) (Seq (Chr 119%N)
              (Seq (Chr 46%N) (lit (y :: l)))))) in Hin.
    apply matches_skip in Hin as (x1 & s1 & Hm1 & Hin).
    apply moved_one in Hm1 as [-> Hk1]; [|done].
    apply matches_skip in Hin as (x2 & s2 & Hm2 & Hin).
    apply moved_one in Hm2 as [-> Hk2]; [|done].
    apply matches_skip in Hin as (x3 & s3 & Hm3 & Hin).
    apply moved_one in Hm3 as [-> Hk3]; [|done].
    apply matches_skip in Hin as (x4 & s4 & Hm4 & Hin).
    apply moved_one in Hm4 as [-> Hk4]; [|done].
    apply (search_from_complete true _ text (S (S (S (S (m_start m)))))
             text 0 None); [done|lia|done|].
    apply match_at_is_Some. exists (s', c'). unfold word. by rewrite Hsite.
Qed.

Lemma findall_nil ic r text :
  findall ic r text = [] ↔ search ic r text = None.
Proof.
  pose proof (findall_head ic r text) as Hh.
  destruct (findall ic r text), (search ic r text); done.
Qed.

Lemma profile_www_found (site : string) text :
  findall true (profile_at site) text = [] →
  findall true (profile_at ("www." ++ site)) text = [].
Proof.
  rewrite !findall_nil. unfold profile_at. cbn [seqs].
  intros Hnone. apply eq_None_not_Some. intros Hs%www_found.
  rewrite Hnone in Hs. by destruct Hs.
Qed.

End ContactFacts.

(** X9 — The e-mail address is the first piece of the text of the shape
    [user@domain.tld], with a user and a domain that are not empty and at
    least two letters after the last dot; a text without [@] has none. *)
Theorem extract_email_shape `{Unicode} (text : str) :
  (64%N ∉ text → extract_email text = None)
  ∧ ∀ found, extract_email text = Some found →
      (∃ a b, a ≤ b ≤ length text ∧ found = slice text a b)
      ∧ ∃ user domain tld,
          found = user ++ u "@" ++ domain ++ u "." ++ tld
          ∧ user ≠ [] ∧ domain ≠ [] ∧ 2 ≤ length tld
          ∧ Forall (λ x, ascii_letter x = true) tld.
Proof.
  unfold extract_email. split.
  - intros Hat. rewrite findall_head.
    rewrite (needs_search_None false (is_lit 64%N) (λ x, x = 64%N)); [done| | |].
    + apply is_lit_exact.
    + vm_compute. reflexivity.
    + intros x Hx ->. done.
  - intros found (a & b & Hab & -> & Hl)%findall_head_Some.
    split; [by eauto|].
    assert (∃ C1 C2,
              email_pattern
              = Seq (Rep (Cls C1) 1 None)
                  (Seq (Chr 64%N)
                     (Seq (Rep (Cls C2) 1 None)
                        (Seq (Chr 46%N) (Rep (Cls [az; AZ]) 2 None)))))
      as (C1 & C2 & E) by (eexists _, _; reflexivity).
    rewrite E in Hl. cbn [lang] in Hl.
    destruct Hl as (w1 & ? & -> & H1 & ? & ? & -> & (x & -> & Hx)
                    & w2 & ? & -> & H2 & ? & w3 & -> & (y & -> & Hy) & H3).
    change (lang false (Rep (Cls C1) 1 None) w1) in H1.
    change (lang false (Rep (Cls C2) 1 None) w2) in H2.
    change (lang false (Rep (Cls [az; AZ]) 2 None) w3) in H3.
    apply lang_rep_cls in H1 as [H1 _], H2 as [H2 _], H3 as [H3 HF].
    simpl in Hx, Hy. apply bool_decide_eq_true_1 in Hx as <-, Hy as <-.
    exists w1, w2, w3. split_and!; [done| | |done|].
    + intros ->. simpl in H1. lia.
    + intros ->. simpl in H2. lia.
    + eapply Forall_impl; [exact HF|]. apply letters_class.
Qed.

Lemma extract_email_shape_witness :
  extract_email (H:=latin1) (u "Jane Smith, +1 555 123 4567") = None.
Proof.
  apply (proj1 (extract_email_shape _)).
  apply (bool_decide_unpack _). vm_compute. reflexivity.
Defined.

(** X10 — The telephone number is a piece of the text of at least seven
    characters that holds a digit; a text without a digit has none. *)
Theorem extract_phone_digits `{Unicode} (text : str) :
  ((∀ x, x ∈ text → is_digit x = false) → extract_phone text = None)
  ∧ ∀ found, extract_phone text = Some found →
      (∃ a b, a ≤ b ≤ length text ∧ found = slice text a b)
      ∧ 7 ≤ length found ∧ ∃ x, x ∈ found ∧ is_digit x = true.
Proof.
  pose proof phone_patterns_digits as HF. rewrite Forall_forall in HF.
  unfold extract_phone. split.
  - intros Hno. apply first_found_None. intros p Hp.
    destruct (search false p text) as [m|] eqn:Hs; [|done].
    apply search_ok in Hs.
    destruct (needs_digit_sound false p _ (proj1 (HF _ Hp))
                (ok_lang _ _ _ _ Hs)) as (x & Hx & Hd).
    rewrite (ok_text _ _ _ _ Hs) in Hx. apply slice_elem in Hx.
    rewrite (Hno x Hx) in Hd. done.
  - intros found (p & Hp & Hh)%first_found_Some.
    apply findall_head_Some in Hh as (a & b & Hab & -> & Hl).
    split_and!; [by eauto| |].
    + pose proof (min_len_sound _ _ _ Hl). destruct (HF _ Hp). lia.
    + apply (needs_digit_sound false p); [apply (HF _ Hp)|done].
Qed.

Lemma extract_phone_digits_witness :
  extract_phone (H:=latin1) (u "Jane Smith") = None.
Proof.
  apply (proj1 (extract_phone_digits _)). intros x Hx.
  assert (forallb (λ x, negb (is_digit (Unicode:=latin1) x)) (u "Jane Smith")
          = true) as HF by (vm_compute; reflexivity).
  rewrite forallb_forall in HF. apply list_elem_of_In, HF in Hx.
  by apply negb_true_iff in Hx.
Defined.

(** X11 — The patterns written with [www.] never decide: where one of them
    is found, the pattern without [www.] that is tried before it is found
    too. The LinkedIn address is given by the first two patterns and the
    GitHub address by the first one. *)
Theorem www_patterns_never_decide `{Unicode} (text : str) :
  extract_linkedin text = first_found true (take 2 linkedin_patterns) text
  ∧ extract_github text = first_found true (take 1 github_patterns) text.
Proof.
  unfold extract_linkedin, extract_github, linkedin_patterns, github_patterns.
  cbn [take first_found]. split.
  - destruct (findall true (profile_at "linkedin.com/in/") text) eqn:E; [|done].
    apply (profile_www_found "linkedin.com/in/") in E.
    change ("www." ++ "linkedin.com/in/")%string with "www.linkedin.com/in/"%string in E.
    by rewrite E.
  - destruct (findall true (profile_at "github.com/") text) eqn:E; [|done].
    apply (profile_www_found "github.com/") in E.
    change ("www." ++ "github.com/")%string with "www.github.com/"%string in E.
    by rewrite E.
Qed.

(** X12 — The address of a web site holds [://]: a text without a colon has
    none. What is found is a piece of the text of at least ten
    characters. *)
Theorem extract_website_colon `{Unicode} (text : str) :
  (colon ∉ text → extract_website text = None)
  ∧ ∀ found, extract_website text = Some found →
      (∃ a b, a ≤ b ≤ length text ∧ found = slice text a b)
      ∧ 10 ≤ length found ∧ colon ∈ found.
Proof.
  unfold extract_website. split.
  - intros Hno. rewrite findall_head.
    rewrite (needs_search_None true (is_lit colon) (λ x, x = colon)); [done| | |].
    + intros it x. by apply is_lit_uncased.
    + vm_compute. reflexivity.
    + intros x Hx ->. done.
  - intros found (a & b & Hab & -> & Hl)%findall_head_Some.
    split_and!; [by eauto| |].
    + assert (min_len website_pattern = 10) as E by (vm_compute; reflexivity).
      apply min_len_sound in Hl. lia.
    + destruct (needs_sound true (is_lit colon) (λ x, x = colon) website_pattern)
        with (w := slice text a b) as (x & Hx & ->); try done.
      intros it x. by apply is_lit_uncased.
Qed.

Lemma extract_website_colon_witness :
  extract_website (H:=latin1) (u "www.janesmith.dev") = None.
Proof.
  apply (proj1 (extract_website_colon _)).
  apply (bool_decide_unpack _). vm_compute. reflexivity.
Defined.

(** X13 — Every pattern of a job title and of a location holds a capital
    letter of ASCII and is matched as it is written: a text without such a
    letter has neither a job title nor a location. *)
Theorem no_capital_no_title_no_location `{Unicode} (text : str) :
  (∀ x, x ∈ text → ascii_upper x = false) →
  extract_job_title text = None ∧ extract_location text = None.
Proof.
  intros Hno.
  assert (∀ patterns, Forall (λ p, needs upper_item p = true) patterns →
            first_found false patterns text = None) as Hnone.
  { intros patterns HF. rewrite Forall_forall in HF.
    apply first_found_None. intros p Hp.
    apply (needs_search_None false upper_item (λ x, ascii_upper x = true));
      [apply upper_item_sound|by apply HF|].
    intros x Hx. by rewrite (Hno x Hx). }
  split; apply Hnone; repeat constructor.
Qed.

Lemma no_capital_no_title_no_location_witness :
  extract_job_title (H:=latin1) (u "senior software engineer, santiago") = None
  ∧ extract_location (H:=latin1) (u "senior software engineer, santiago") = None.
Proof.
  apply no_capital_no_title_no_location. intros x Hx.
  assert (forallb (λ x, negb (ascii_upper x))
                  (u "senior software engineer, santiago") = true) as HF
    by (vm_compute; reflexivity).
  rewrite forallb_forall in HF. apply list_elem_of_In, HF in Hx.
  by apply negb_true_iff in Hx.
Defined.

(** ** The structured data *)

(** X14 — The education of the structured data is read in the body of the
    education section, which [extract_education] segments again: when the
    text has no education section, or when the body of that section holds
    neither a colon nor a line break, and so no header of its own, the list
    is empty. *)
Theorem structured_education_empty `{Unicode} (text : str) :
  match identify_sections text !! u "education" with
  | Some body => (colon ∉ body) ∧ (nl ∉ body)
  | None => True
  end →
  data_education (extract_structured_info text) = [].
Proof.
  unfold extract_structured_info. cbn [data_education].
  destruct (identify_sections text !! u "education") as [body|] eqn:E; simpl.
  - intros [Hc Hn]. by apply extract_education_nil.
  - intros _. unfold extract_education. by rewrite E.
Qed.

Lemma structured_education_empty_witness :
  data_education (extract_structured_info (H:=latin1) cv_master_headed) = []
  ∧ extract_education (H:=latin1) cv_master_headed ≠ [].
Proof.
  split.
  - apply structured_education_empty.
    assert (identify_sections (H:=latin1) cv_master_headed !! u "education"
            = Some cv_master) as -> by (vm_compute; reflexivity).
    split; apply (bool_decide_unpack _); vm_compute; reflexivity.
  - intros Heq. vm_compute in Heq. discriminate Heq.
Defined.

(** ** The name, again *)

Section NameShape.
Context `{Unicode}.

Lemma strip_elem (s : str) x : x ∈ strip s → x ∈ s.
Proof.
  destruct (strip_decomp s) as (w1 & w2 & Hs & _). intros Hx. rewrite Hs.
  apply elem_of_app. right. apply elem_of_app. by left.
Qed.

End NameShape.

(** X15 — The name that is returned passes the test again: it is one
    stripped line of more than three characters and at most four words. *)
Theorem extract_name_shape `{Unicode} (text name : str) :
  extract_name text = Some name →
  strip name = name ∧ (nl ∉ name)
  ∧ 3 < length name ∧ length (split_ws name) ≤ 4.
Proof.
  unfold extract_name.
  intros (i & line & Hi & [Hw Hlen] & -> & _)%first_name_like_Some.
  split_and!; [apply strip_strip| |done|done].
  intros Hnl%strip_elem.
  apply lookup_take_Some in Hi as [Hi _].
  apply list_elem_of_lookup_2, split_on_elem_1 in Hi as [Hno _]. done.
Qed.

Lemma extract_name_shape_witness :
  strip (H:=latin1) (u "Jane Smith") = u "Jane Smith".
Proof.
  apply (proj1 (extract_name_shape (H:=latin1) cv_jane (u "Jane Smith")
                  ltac:(vm_compute; reflexivity))).
Defined.

(** ** The sections of the result of [extract_from_pdf] *)

Section GlueFacts.
Context `{Unicode}.

Lemma int_of_from (a : nat) (s : str) :
  foldl (λ acc c, 10 * acc + (N.to_nat c - 48)) a s
  = a * 10 ^ length s + int_of s.
Proof.
  unfold int_of. set (f := λ (acc : nat) (c : N), 10 * acc + (N.to_nat c - 48)).
  revert a. induction s as [|c s IH]; intros a; cbn [foldl length].
  - simpl. lia.
  - rewrite (IH (f a c)), (IH (f 0 c)). unfold f. rewrite Nat.pow_succ_r'. nia.
Qed.

Lemma int_of_decimal_from : ∀ fuel n acc,
  n < fuel →
  int_of (decimal_from fuel n acc) = n * 10 ^ length acc + int_of acc.
Proof.
  induction fuel as [|fuel IH]; intros n acc Hn; [lia|]. cbn [decimal_from].
  set (acc' := (48 + N.of_nat (n mod 10))%N :: acc).
  assert (int_of acc' = n mod 10 * 10 ^ length acc + int_of acc) as Hd.
  { unfold acc'. unfold int_of at 1. cbn [foldl]. rewrite int_of_from.
    replace (10 * 0 + (N.to_nat (48 + N.of_nat (n mod 10)) - 48))
      with (n mod 10) by lia.
    done. }
  destruct (n <? 10) eqn:Hlt.
  - apply Nat.ltb_lt in Hlt. rewrite Hd. by rewrite Nat.mod_small.
  - apply Nat.ltb_ge in Hlt. rewrite IH.
    + rewrite Hd. change (length acc') with (S (length acc)).
      rewrite Nat.pow_succ_r'.
      pose proof (Nat.div_mod_eq n 10). nia.
    + pose proof (Nat.div_lt n 10). lia.
Qed.

(** The number of a page is read back from its key. *)
Lemma int_of_decimal n : int_of (decimal n) = n.
Proof.
  unfold decimal. rewrite int_of_decimal_from by lia. simpl.
  unfold int_of. simpl. lia.
Qed.

Lemma page_key_inj i j : page_key i = page_key j → i = j.
Proof.
  unfold page_key. intros Heq%app_inv_head.
  apply (f_equal int_of) in Heq. rewrite !int_of_decimal in Heq. lia.
Qed.

Lemma page_key_not_kind i : page_key i ∉ section_kinds.
Proof.
  assert (Forall (λ k : str, take 2 k ≠ u "pa") section_kinds) as HF.
  { repeat constructor; vm_compute; discriminate. }
  rewrite Forall_forall in HF. intros Hin%HF. by apply Hin.
Qed.

Lemma identify_sections_kind text k body :
  identify_sections text !! k = Some body → k ∈ section_kinds.
Proof.
  unfold identify_sections.
  intros [Hacc|(i & p & t & Hi & _)]%fill_sections_inv.
  - by rewrite lookup_empty in Hacc.
  - by eapply section_positions_kind.
Qed.

Lemma pages_lookup (base : gmap str str) : ∀ (pages : list str) i,
  foldl (λ acc ip, <[page_key ip.1 := ip.2]> acc) base
        (imap (λ i p, (i, p)) pages) !! page_key i
  = match pages !! i with
    | Some p => Some p
    | None => base !! page_key i
    end.
Proof.
  induction pages as [|p pages IH] using rev_ind; intros i; [done|].
  rewrite imap_app, foldl_app. simpl. rewrite Nat.add_0_r.
  destruct (decide (i = length pages)) as [->|Hne].
  - rewrite lookup_insert_eq. by rewrite list_lookup_middle.
  - rewrite lookup_insert_ne by (by intros ?%page_key_inj).
    rewrite IH. destruct (decide (i < length pages)).
    + by rewrite lookup_app_l.
    + rewrite (lookup_ge_None_2 pages i) by lia.
      rewrite lookup_ge_None_2; [done|]. rewrite length_app. simpl. lia.
Qed.

Lemma pages_lookup_other (base : gmap str str) k : ∀ (pages : list str),
  (∀ i, k ≠ page_key i) →
  foldl (λ acc ip, <[page_key ip.1 := ip.2]> acc) base
        (imap (λ i p, (i, p)) pages) !! k
  = base !! k.
Proof.
  intros pages Hk. induction pages as [|p pages IH] using rev_ind; [done|].
  rewrite imap_app, foldl_app. simpl.
  rewrite lookup_insert_ne by (intros Heq; by apply (Hk (length pages + 0))).
  apply IH.
Qed.


Lemma assemble_content (text : str) (pages : list str) :
  assemble_sections text pages !! u "content" = Some text.
Proof.
  unfold assemble_sections. rewrite lookup_union_r.
  - rewrite pages_lookup_other; [by rewrite lookup_insert_eq|].
    intros i Heq. apply (f_equal (take 1)) in Heq. vm_compute in Heq.
    discriminate Heq.
  - destruct (identify_sections text !! u "content") as [body|] eqn:E; [|done].
    apply identify_sections_kind in E. revert E.
    apply (bool_decide_unpack _). vm_compute. reflexivity.
Qed.

Lemma assemble_page (text : str) (pages : list str) i :
  assemble_sections text pages !! page_key i = pages !! i.
Proof.
  unfold assemble_sections. rewrite lookup_union_r.
  - rewrite pages_lookup. destruct (pages !! i); [done|].
    rewrite lookup_insert_ne, lookup_empty; [done|].
    intros Heq. apply (f_equal (take 1)) in Heq. vm_compute in Heq.
    discriminate Heq.
  - destruct (identify_sections text !! page_key i) as [body|] eqn:E; [|done].
    apply identify_sections_kind in E. by apply page_key_not_kind in E.
Qed.

End GlueFacts.

(** X16 — The sections of the result: the bodies that the segmenter found
    are there under their kinds, the whole text is under [content], which no
    section replaces, and the page of index [i] is under [page_] followed by
    [i + 1], when the pages are given. *)
Theorem assemble_sections_lookup `{Unicode} (text : str) (pages : list str) :
  (∀ k body, identify_sections text !! k = Some body →
             assemble_sections text pages !! k = Some body)
  ∧ assemble_sections text pages !! u "content" = Some text
  ∧ ∀ i, assemble_sections text pages !! page_key i = pages !! i.
Proof.
  split_and!.
  - intros k body Hk. by apply lookup_union_Some_l.
  - apply assemble_content.
  - apply assemble_page.
Qed.

Lemma assemble_sections_lookup_witness :
  assemble_sections (H:=latin1) cv_two_sections [] !! u "education"
  = Some (u "bar").
Proof.
  apply (proj1 (assemble_sections_lookup (H:=latin1) cv_two_sections [])).
  vm_compute. reflexivity.
Defined.

(** ** The choice of the text *)

Section ChoiceFacts.
Context `{Unicode}.

Lemma length_pos_nil (s : str) : ¬ 0 < length s → s = [].
Proof. destruct s; simpl; [done|lia]. Qed.

End ChoiceFacts.

(** X17 — The text of the result is the longer of the two extracted texts,
    the one of PyPDF when they are as long, and it is not empty; the
    extraction fails exactly when both are empty. The whole text is under
    [content], and the pages are there only when the text of PyPDF is
    chosen. *)
Theorem extract_from_pdf_choice `{Unicode} (read : option (list str))
    (mined : option str) :
  let pypdf_text := ex_text (pypdf_extraction read) in
  let pdfminer_text := default [] mined in
  match extract_from_pdf read mined with
  | Failed => pypdf_text = [] ∧ pdfminer_text = []
  | Extracted text sections structured_data =>
      text ≠ []
      ∧ text = (if length pypdf_text <? length pdfminer_text
                then pdfminer_text else pypdf_text)
      ∧ sections !! u "content" = Some text
      ∧ structured_data = extract_structured_info text
      ∧ (length pypdf_text < length pdfminer_text →
         ∀ i, sections !! page_key i = None)
  end.
Proof.
  intros pypdf_text pdfminer_text. unfold extract_from_pdf, extraction_results.
  subst pypdf_text pdfminer_text.
  set (P := pypdf_extraction read).
  destruct mined as [t|]; cbn [default];
    rewrite !filter_cons, ?filter_nil; cbn [ex_text];
    repeat case_decide; cbn [max_by ex_text ex_method ex_pages];
    repeat match goal with
           | |- context [?a <? ?b] =>
               let Hlt := fresh "Hlt" in
               destruct (a <? b) eqn:Hlt;
               [apply Nat.ltb_lt in Hlt|apply Nat.ltb_ge in Hlt]
           | Hn : ¬ 0 < length _ |- _ => apply length_pos_nil in Hn
           end;
    cbn [ex_text ex_method ex_pages];
    repeat match goal with
           | Hn : ?x = [] |- _ => rewrite Hn in *
           end;
    simpl length in *; try lia;
    try (split; [done|done]);
    (split_and!;
     [intros Heq; rewrite Heq in *; simpl in *; lia
     |done
     |apply assemble_content
     |done
     |try lia; intros _ i; rewrite assemble_page; done]).
Qed.

Lemma extract_from_pdf_choice_witness :
  match extract_from_pdf (H:=latin1) (Some [u "Jane"]) (Some (u "Jane Smith")) with
  | Failed => False
  | Extracted text sections _ =>
      text = u "Jane Smith" ∧ sections !! page_key 0 = None
  end.
Proof.
  pose proof (extract_from_pdf_choice (H:=latin1) (Some [u "Jane"])
                (Some (u "Jane Smith"))) as Hc.
  destruct (extract_from_pdf _ _) as [|text sections data].
  - destruct Hc as [_ Hc]. discriminate Hc.
  - destruct Hc as (_ & -> & _ & _ & Hp). split; [vm_compute; reflexivity|].
    apply Hp. vm_compute. lia.
Defined.

(** ** More on the profiles and the education *)

(** X18 — The address of a profile holds a slash, which is matched as it is
    written: a text without a slash has neither a LinkedIn nor a GitHub
    address; an address that is found is a piece of the text. *)
Theorem profile_needs_slash `{Unicode} (text : str) :
  (47%N ∉ text → extract_linkedin text = None ∧ extract_github text = None)
  ∧ ∀ found, extract_linkedin text = Some found ∨ extract_github text = Some found →
      (∃ a b, a ≤ b ≤ length text ∧ found = slice text a b) ∧ 47%N ∈ found.
Proof.
  assert (∀ it x, is_lit 47%N it = true → item_matches true it x = true →
                  x = 47%N) as Hok.
  { intros it x. by apply is_lit_uncased. }
  assert (Forall (λ p, needs (is_lit 47%N) p = true)
                 (linkedin_patterns ++ github_patterns)) as HF.
  { repeat constructor. }
  rewrite Forall_forall in HF. split.
  - intros Hno. split; apply first_found_None; intros p Hp;
      (apply (needs_search_None true (is_lit 47%N) (λ x, x = 47%N));
       [done|apply HF, elem_of_app; auto|by intros x Hx ->]).
  - intros found Hf.
    assert (∃ p, p ∈ linkedin_patterns ++ github_patterns
                 ∧ head (findall true p text) = Some found) as (p & Hp & Hh).
    { destruct Hf as [Hf|Hf]; apply first_found_Some in Hf as (p & Hp & Hh);
        exists p; (split; [apply elem_of_app; auto|done]). }
    apply findall_head_Some in Hh as (a & b & Hab & -> & Hl).
    split; [by eauto|].
    destruct (needs_sound true (is_lit 47%N) (λ x, x = 47%N) p Hok _
                (HF _ Hp) Hl) as (x & Hx & ->). done.
Qed.

Lemma profile_needs_slash_witness :
  extract_linkedin (H:=latin1) (u "Jane Smith on LinkedIn") = None
  ∧ extract_github (H:=latin1) (u "Jane Smith on LinkedIn") = None.
Proof.
  apply (proj1 (profile_needs_slash _)).
  apply (bool_decide_unpack _). vm_compute. reflexivity.
Defined.

Section EducationFacts.
Context `{Unicode}.

Lemma or_else_filled o (d : str) : d ≠ [] → or_else o d ≠ [].
Proof. by destruct o as [[|x s]|]. Qed.

Lemma education_of_one paragraph : length (education_of paragraph) ≤ 1.
Proof.
  unfold education_of. destruct (strip paragraph); [simpl; lia|].
  destruct (_ || _); simpl; lia.
Qed.

Lemma flat_map_length_le {A B} (f : A → list B) (l : list A) n :
  (∀ x, length (f x) ≤ n) → length (flat_map f l) ≤ n * length l.
Proof.
  intros Hf. induction l as [|x l IH]; simpl; [lia|].
  rewrite length_app. specialize (Hf x). lia.
Qed.

End EducationFacts.

(** X19 — An education entry has no empty field: what was not found in the
    paragraph is a placeholder. A paragraph of the education section gives
    one entry at most. *)
Theorem education_entries_filled `{Unicode} (text : str) :
  (∀ e, e ∈ extract_education text →
        degree e ≠ [] ∧ institution e ≠ [] ∧ edu_date e ≠ [])
  ∧ ∀ body, identify_sections text !! u "education" = Some body →
      length (extract_education text) ≤ length (re_split blank_line body).
Proof.
  unfold extract_education. split.
  - intros e.
    destruct (identify_sections text !! u "education") as [[|x s]|];
      try (by intros ?%elem_of_nil).
    intros (paragraph & _ & Hin%list_elem_of_In)%list_elem_of_In%in_flat_map.
    unfold education_of in Hin.
    destruct (strip paragraph); [by apply elem_of_nil in Hin|].
    destruct (_ || _); [|by apply elem_of_nil in Hin].
    apply list_elem_of_singleton in Hin as ->. simpl.
    split_and!; by apply or_else_filled.
  - intros body ->. destruct body as [|x s]; [simpl; lia|].
    pose proof (flat_map_length_le education_of
                  (re_split blank_line (x :: s)) 1 education_of_one). lia.
Qed.

Lemma education_entries_filled_witness :
  length (extract_education (H:=latin1) cv_master_headed) ≤ 1.
Proof.
  apply (proj2 (education_entries_filled (H:=latin1) cv_master_headed) cv_master).
  vm_compute. reflexivity.
Defined.

(** ** The two searches for the experience header *)

Section TwoSearches.
Context `{Unicode}.

Lemma step_char_any ok s c s' c' c0 :
  (s', c') ∈ step_char ok s c → c' = c ∧ (s', c0) ∈ step_char ok s c0.
Proof.
  unfold step_char. destruct (rest s) as [|x r]; [by intros ?%elem_of_nil|].
  destruct (ok x); [|by intros ?%elem_of_nil].
  intros Hin%list_elem_of_singleton. injection Hin as -> ->. split; [done|left].
Qed.

Lemma rep_loop_any body :
  (∀ s c s' c' c0, (s', c') ∈ body s c → c' = c ∧ (s', c0) ∈ body s c0) →
  ∀ fuel lo hi s c s' c' c0,
    (s', c') ∈ rep_loop body fuel lo hi s c →
    c' = c ∧ (s', c0) ∈ rep_loop body fuel lo hi s c0.
Proof.
  intros Hbody. induction fuel as [|fuel IH]; intros lo hi s c s' c' c0; simpl.
  { by intros ?%elem_of_nil. }
  intros [Hgo|Hstop]%elem_of_app.
  - assert (hi ≠ Some 0) as Hhi by (intros ->; by apply elem_of_nil in Hgo).
    assert ((s', c') ∈ flat_map
             (λ sc, if pos s <? pos sc.1
                    then rep_loop body fuel (pred lo) (pred <$> hi) sc.1 sc.2
                    else []) (body s c)) as Hin.
    { destruct hi as [[|h]|]; done. }
    clear Hgo. apply list_elem_of_In, in_flat_map in Hin as ([s1 c1] & Hb & Hin).
    apply list_elem_of_In in Hb, Hin. simpl in Hin.
    destruct (pos s <? pos s1) eqn:Hlt; [|by apply elem_of_nil in Hin].
    destruct (Hbody _ _ _ _ c0 Hb) as [-> Hb0].
    destruct (IH _ _ _ _ _ _ c0 Hin) as [-> Hin0].
    split; [done|]. apply elem_of_app. left.
    assert ((s', c0) ∈ flat_map
             (λ sc, if pos s <? pos sc.1
                    then rep_loop body fuel (pred lo) (pred <$> hi) sc.1 sc.2
                    else []) (body s c0)) as Hgoal.
    { apply list_elem_of_In, in_flat_map. exists (s1, c0).
      split; [by apply list_elem_of_In|]. simpl. rewrite Hlt.
      by apply list_elem_of_In. }
    destruct hi as [[|h]|]; done.
  - destruct lo; [|by apply elem_of_nil in Hstop].
    apply list_elem_of_singleton in Hstop. injection Hstop as -> ->.
    split; [done|]. apply elem_of_app. right. left.
Qed.

Lemma matches_any ic r : plain r = true → ∀ s c s' c' c0,
  (s', c') ∈ matches ic r s c → c' = c ∧ (s', c0) ∈ matches ic r s c0.
Proof.
  induction r as [|a|its|r1 IH1 r2 IH2|r1 IH1 r2 IH2|r1 IH1 lo hi|n r1 IH1| | |its|r1 IH1];
    cbn [plain]; try done; intros Hp s c s' c' c0; cbn [matches].
  - intros Hin%list_elem_of_singleton. injection Hin as -> ->. split; [done|left].
  - apply step_char_any.
  - apply step_char_any.
  - apply andb_true_iff in Hp as [Hp1 Hp2].
    intros ([s1 c1] & Hb & Hin)%list_elem_of_In%in_flat_map.
    apply list_elem_of_In in Hb, Hin. simpl in Hin.
    destruct (IH1 Hp1 _ _ _ _ c0 Hb) as [-> Hb0].
    destruct (IH2 Hp2 _ _ _ _ c0 Hin) as [-> Hin0].
    split; [done|]. apply list_elem_of_In, in_flat_map. exists (s1, c0).
    split; by apply list_elem_of_In.
  - apply andb_true_iff in Hp as [Hp1 Hp2].
    intros [Hin|Hin]%elem_of_app.
    + destruct (IH1 Hp1 _ _ _ _ c0 Hin) as [-> ?]. split; [done|].
      apply elem_of_app. by left.
    + destruct (IH2 Hp2 _ _ _ _ c0 Hin) as [-> ?]. split; [done|].
      apply elem_of_app. by right.
  - apply rep_loop_any. intros ? ? ? ? ?. by apply IH1.
  - destruct (pos s); [|by intros ?%elem_of_nil].
    intros Hin%list_elem_of_singleton. injection Hin as -> ->. split; [done|left].
  - destruct (xorb _ _); [|by intros ?%elem_of_nil].
    intros Hin%list_elem_of_singleton. injection Hin as -> ->. split; [done|left].
  - destruct (prev s) as [x|]; [destruct (class_matches ic its x)|];
      try (by intros ?%elem_of_nil);
      intros Hin%list_elem_of_singleton; injection Hin as -> ->;
      (split; [done|left]).
Qed.

(** A match of an alternation is a match of one of its branches. *)
Lemma alts_elem ic (rs : list regex) s c sc :
  sc ∈ matches ic (alts rs) s c ↔ ∃ r, r ∈ rs ∧ sc ∈ matches ic r s c.
Proof.
  induction rs as [|r rs IH].
  - simpl. split; [by intros ?%elem_of_nil|]. by intros (r & ?%elem_of_nil & _).
  - destruct rs as [|r' rs].
    + simpl. split; [intros ?; exists r; split; [left|done]|].
      by intros (r0 & ->%list_elem_of_singleton & ?).
    + change (alts (r :: r' :: rs)) with (Alt r (alts (r' :: rs))).
      cbn [matches]. rewrite elem_of_app, IH. split.
      * intros [?|(r0 & ? & ?)]; [exists r; split; [left|done]|].
        exists r0. split; [by right|done].
      * intros (r0 & [->|?]%elem_of_cons & ?); [by left|right]. by exists r0.
Qed.

Lemma matches_seq_elem ic r1 r2 s c sc :
  sc ∈ matches ic (Seq r1 r2) s c ↔
  ∃ s1 c1, (s1, c1) ∈ matches ic r1 s c ∧ sc ∈ matches ic r2 s1 c1.
Proof.
  cbn [matches]. rewrite list_elem_of_In, in_flat_map. split.
  - intros ([s1 c1] & H1 & H2). exists s1, c1. by rewrite !list_elem_of_In.
  - intros (s1 & c1 & H1 & H2). exists (s1, c1). by rewrite <- !list_elem_of_In.
Qed.

Lemma matches_grp_elem ic n r s c s1 c1 :
  (s1, c1) ∈ matches ic r s c →
  (s1, (n, take (pos s1 - pos s) (rest s)) :: c1) ∈ matches ic (Grp n r) s c.
Proof.
  intros Hin. cbn [matches]. apply list_elem_of_fmap. by exists (s1, c1).
Qed.

(** A header that the direct search finds is found by the pattern of the
    segmenter for the experience section, at the same place. *)
Lemma experience_header_found s sc :
  sc ∈ matches true experience_pattern s [] →
  ∃ sc', sc' ∈ matches true
           (full_pattern
              (alts [word "Experience"; phrase [u "Work"; u "Experience"];
                     word "Employment"; phrase [u "Employment"; u "History"];
                     phrase [u "Professional"; u "Experience"]; word "Career";
                     word "Experiencia"; phrase [u "Experiencia"; u "Laboral"];
                     word "Empleo"; phrase [u "Historial"; u "de"; u "Empleo"];
                     phrase [u "Experiencia"; u "Profesional"];
                     word "Trayectoria"; word "Trabajo"])) s [].
Proof.
  unfold experience_pattern, full_pattern.
  set (As := [word "Experience"; phrase [u "Work"; u "Experience"];
              word "Employment"; phrase [u "Professional"; u "Experience"];
              word "Experiencia"; word "Trayectoria"]).
  set (Bs := [word "Experience"; phrase [u "Work"; u "Experience"];
              word "Employment"; phrase [u "Employment"; u "History"];
              phrase [u "Professional"; u "Experience"]; word "Career";
              word "Experiencia"; phrase [u "Experiencia"; u "Laboral"];
              word "Empleo"; phrase [u "Historial"; u "de"; u "Empleo"];
              phrase [u "Experiencia"; u "Profesional"];
              word "Trayectoria"; word "Trabajo"]).
  change (seqs [header_left; alts As; header_right])
    with (Seq header_left (Seq (alts As) header_right)).
  change (seqs [header_left; Grp 1 (alts Bs); header_right])
    with (Seq header_left (Seq (Grp 1 (alts Bs)) header_right)).
  intros (s1 & c1 & Hl & (s2 & c2 & Ha & Hr)%matches_seq_elem)%matches_seq_elem.
  destruct (matches_any true header_left eq_refl _ _ _ _ [] Hl) as [-> _].
  apply alts_elem in Ha as (a & Hin & Ha).
  assert (Forall (λ r, plain r = true ∧ r ∈ Bs) As) as HF.
  { repeat constructor. }
  rewrite Forall_forall in HF. destruct (HF _ Hin) as [Hplain HB].
  destruct (matches_any true a Hplain _ _ _ _ [] Ha) as [-> _].
  set (g := take (pos s2 - pos s1) (rest s1)).
  destruct sc as [s' c'].
  destruct (matches_any true header_right eq_refl _ _ _ _ [(1, g)] Hr)
    as [_ Hr'].
  exists (s', [(1, g)]).
  apply matches_seq_elem. exists s1, []. split; [done|].
  apply matches_seq_elem. exists s2, [(1, g)]. split; [|done].
  apply matches_grp_elem, alts_elem. by exists a.
Qed.

Lemma fill_sections_keeps text k : ∀ ps acc,
  is_Some (acc !! k) → is_Some (fill_sections text ps acc !! k).
Proof.
  induction ps as [|[[p l] t] ps IH]; intros acc Hk; simpl; [done|].
  apply IH. destruct (decide (l = k)) as [->|Hne].
  - rewrite lookup_insert_eq. eauto.
  - by rewrite lookup_insert_ne.
Qed.

Lemma fill_sections_stored text k p t : ∀ ps acc,
  (p, k, t) ∈ ps → is_Some (fill_sections text ps acc !! k).
Proof.
  induction ps as [|[[q l] v] ps IH]; intros acc; [by intros ?%elem_of_nil|].
  intros [Heq|Hin]%elem_of_cons; simpl.
  - injection Heq as <- <- <-. apply fill_sections_keeps.
    rewrite lookup_insert_eq. eauto.
  - by apply IH.
Qed.

(** When the direct search finds an experience header, the segmenter stores
    an experience section. *)
Lemma direct_header_section text :
  is_Some (search true experience_pattern text) →
  is_Some (identify_sections text !! u "experience").
Proof.
  intros [m Hs].
  apply (search_from_at true _ text text 0 None m) in Hs as [Hm Hk];
    [|done|lia].
  assert (is_Some (match_at true experience_pattern
                     (state_at text (m_start m)))) as Hsome by eauto.
  apply match_at_is_Some in Hsome as [sc Hin].
  apply experience_header_found in Hin as [sc' Hin'].
  set (kp := (u "experience",
      alts [word "Experience"; phrase [u "Work"; u "Experience"];
            word "Employment"; phrase [u "Employment"; u "History"];
            phrase [u "Professional"; u "Experience"]; word "Career";
            word "Experiencia"; phrase [u "Experiencia"; u "Laboral"];
            word "Empleo"; phrase [u "Historial"; u "de"; u "Empleo"];
            phrase [u "Experiencia"; u "Profesional"]; word "Trayectoria";
            word "Trabajo"]) : str * regex) in *.
  assert (is_Some (search true (full_pattern kp.2) text)) as [m' Hm'].
  { apply (search_from_complete true _ text (m_start m) text 0 None);
      [done|lia|done|]. apply match_at_is_Some. by exists sc'. }
  assert (m' ∈ finditer true (full_pattern kp.2) text) as Hfi.
  { pose proof (finditer_head true (full_pattern kp.2) text) as Hh.
    rewrite Hm' in Hh. destruct (finditer true (full_pattern kp.2) text);
      [done|]. injection Hh as ->. left. }
  unfold identify_sections.
  apply (fill_sections_stored text (u "experience") (m_end m')
           (strip (group 1 m'))).
  rewrite section_positions_perm.
  apply list_elem_of_In, in_flat_map. exists kp. split.
  - apply list_elem_of_In. right. left.
  - apply list_elem_of_In. unfold boundaries_of.
    apply list_elem_of_fmap. by exists m'.
Qed.

End TwoSearches.

(** X20 — The direct search for the experience header finds nothing that the
    segmenter does not find: when [identify_sections] stores no experience
    section, the function returns the empty list. *)
Theorem no_experience_section_no_entries `{Unicode} (text : str) :
  identify_sections text !! u "experience" = None →
  search true experience_pattern text = None
  ∧ extract_work_experiences_v2 text = []
  ∧ data_work_experiences (extract_structured_info text) = [].
Proof.
  intros Hnone.
  assert (search true experience_pattern text = None) as Hs.
  { apply eq_None_not_Some. intros Hsome%direct_header_section.
    rewrite Hnone in Hsome. by destruct Hsome. }
  assert (extract_work_experiences_v2 text = []) as He.
  { unfold extract_work_experiences_v2, experience_section, direct_section.
    by rewrite Hs, Hnone. }
  done.
Qed.

Lemma no_experience_section_no_entries_witness :
  extract_work_experiences_v2 (H:=latin1) cv_master_headed = [].
Proof.
  apply (no_experience_section_no_entries (H:=latin1) cv_master_headed).
  vm_compute. reflexivity.
Defined.
